(** * The updater bootstrap (updater/bootstrap.js)

    A shallow embedding of the bootstrap that decides whether a newer
    version exists, whether this installation may take it (staged
    rollout), downloads the updater and hands over to it.

    The JavaScript functions become functions in a state-and-exception
    monad over an explicit [World]: the file system, the update server,
    [Math.random], the status window, and a trace of every effect in the
    order in which it takes place.  Library functions the code calls
    ([parseInt], the [path] module, [semver], [request], [fs]) are
    modelled next to it from their documented behaviour. *)

From Stdlib Require Import ZArith List String Ascii Bool Lia.
From Stdlib Require Decimal DecimalString DecimalPos.
Import ListNotations.

Local Open Scope Z_scope.

(* ================================================================= *)
(** * JavaScript values *)

(** A number as [parseInt] and the comparison operators see it: NaN, or
    an integer.  The numbers of the language are the binary64 numbers;
    the power of two just beyond them, [2 ^ 1024], stands for Infinity
    and its opposite for -Infinity, so that the order of the integers
    is the order of the language. *)
Inductive JSNumber :=
| NaN
| Num (z : Z).

(** JSON values as far as the bootstrap inspects them. *)
Inductive JSValue :=
| JUndefined
| JNull
| JBool (b : bool)
| JNum (z : Z)
| JStr (s : string)
| JObj (fields : JSFields)
with JSFields :=
| FNil
| FCons (key : string) (value : JSValue) (rest : JSFields).

(** [!v] is [negb (truthy v)]. *)
Definition truthy (v : JSValue) : bool :=
  match v with
  | JUndefined | JNull => false
  | JBool b => b
  | JNum z => negb (z =? 0)
  | JStr s => negb (String.eqb s EmptyString)
  | JObj _ => true
  end.

Definition code (c : ascii) : Z := Z.of_N (N_of_ascii c).

(** Strings are held in UTF-8, as files and the network have them.
    The white space that [parseInt], [String.prototype.trim] and
    ToNumber skip is WhiteSpace and LineTerminator of the language: the
    one-byte characters TAB, LF, VT, FF, CR and SP, then U+00A0 on two
    bytes, and U+1680, U+2000 to U+200A, U+2028, U+2029, U+202F, U+205F,
    U+3000 and U+FEFF (the byte order mark) on three. *)
Definition is_white (c : ascii) : bool :=
  let n := code c in
  ((9 <=? n) && (n <=? 13)) || (n =? 32).

(** The first byte of a white space character of several bytes. *)
Definition white_lead (c : ascii) : bool :=
  let n := code c in
  (n =? 194) || (n =? 225) || (n =? 226) || (n =? 227) || (n =? 239).

Definition white2 (a b : ascii) : bool :=
  (code a =? 194) && (code b =? 160).

Definition white3 (a b c : ascii) : bool :=
  let '(x, y, z) := (code a, code b, code c) in
  ((x =? 225) && (y =? 154) && (z =? 128))
  || ((x =? 226) && (y =? 128)
      && (((128 <=? z) && (z <=? 138)) || (z =? 168) || (z =? 169)
          || (z =? 175)))
  || ((x =? 226) && (y =? 129) && (z =? 159))
  || ((x =? 227) && (y =? 128) && (z =? 128))
  || ((x =? 239) && (y =? 187) && (z =? 191)).

Fixpoint skip_white (s : string) : string :=
  match s with
  | String c r =>
      if is_white c then skip_white r
      else if white_lead c then
        match r with
        | String c1 r1 =>
            if white2 c c1 then skip_white r1
            else
              match r1 with
              | String c2 r2 => if white3 c c1 c2 then skip_white r2 else s
              | EmptyString => s
              end
        | EmptyString => s
        end
      else s
  | EmptyString => s
  end.

(** The same from the end of a string, on the string reversed. *)
Fixpoint skip_white_back (s : string) : string :=
  match s with
  | String c r =>
      if is_white c then skip_white_back r
      else
        match r with
        | String c1 r1 =>
            if white2 c1 c then skip_white_back r1
            else
              match r1 with
              | String c2 r2 =>
                  if white3 c2 c1 c then skip_white_back r2 else s
              | EmptyString => s
              end
        | EmptyString => s
        end
  | EmptyString => s
  end.

(** [s.length]: the number of UTF-16 code units of the string, one for
    each character of one to three bytes and two for each of four. *)
Definition code_units (c : ascii) : nat :=
  let n := code c in
  if (128 <=? n) && (n <? 192) then 0%nat
  else if 240 <=? n then 2%nat else 1%nat.

Fixpoint js_length (s : string) : nat :=
  match s with
  | String c r => (code_units c + js_length r)%nat
  | EmptyString => O
  end.

(** Rounding of a natural number to 53 significant bits, to nearest,
    ties to even: what the binary64 product does to [mant * 100]. *)
Definition round53 (n : Z) : Z :=
  let s := Z.log2 n + 1 - 53 in
  if s <=? 0 then n
  else
    let q := n / 2 ^ s in
    let r := n mod 2 ^ s in
    let half := 2 ^ (s - 1) in
    let q' := if (half <? r) || ((r =? half) && Z.odd q) then q + 1 else q in
    q' * 2 ^ s.

(** The Number value of a natural number: the binary64 number next to
    it, Infinity from [2 ^ 1024 - 2 ^ 970] on. *)
Definition to_double (n : Z) : Z := Z.min (round53 n) (2 ^ 1024).

(** The value of a character as a digit, up to radix 36. *)
Definition digit_value (c : ascii) : option Z :=
  let n := code c in
  if (48 <=? n) && (n <=? 57) then Some (n - 48)
  else if (97 <=? n) && (n <=? 122) then Some (n - 87)
  else if (65 <=? n) && (n <=? 90) then Some (n - 55)
  else None.

(** The longest prefix of digits of the radix, as a number; [None] when
    that prefix is empty. *)
Fixpoint parse_digits (radix : Z) (s : string) (acc : option Z) : option Z :=
  match s with
  | String c r =>
      match digit_value c with
      | Some d =>
          if d <? radix
          then parse_digits radix r
                 (Some (match acc with Some a => a * radix + d | None => d end))
          else acc
      | None => acc
      end
  | EmptyString => acc
  end.

(** [parseInt(string)] with no radix argument: leading white space, a
    sign, an optional [0x] prefix, then the longest prefix of digits,
    of which the result is the Number value. *)
Definition parseInt (s : string) : JSNumber :=
  let s1 := skip_white s in
  let '(sign, s2) :=
    match s1 with
    | String "-"%char r => (-1, r)
    | String "+"%char r => (1, r)
    | _ => (1, s1)
    end in
  let '(radix, s3) :=
    match s2 with
    | String "0"%char (String "x"%char r) => (16, r)
    | String "0"%char (String "X"%char r) => (16, r)
    | _ => (10, s2)
    end in
  match parse_digits radix s3 None with
  | None => NaN
  | Some m => Num (sign * to_double m)
  end.

Fixpoint all_digits (s : string) : bool :=
  match s with
  | String c r => (48 <=? code c) && (code c <=? 57) && all_digits r
  | EmptyString => true
  end.

Fixpoint rev_string (s acc : string) : string :=
  match s with
  | String c r => rev_string r (String c acc)
  | EmptyString => acc
  end.

(** [String.prototype.trim]. *)
Definition trim (s : string) : string :=
  rev_string (skip_white_back (rev_string (skip_white s) EmptyString))
    EmptyString.

(** The decimal digits of an integer. *)
Definition decimal (z : Z) : string :=
  DecimalString.NilZero.string_of_int (Z.to_int z).

Definition digits (n : Z) : Z := Z.of_nat (String.length (decimal n)).

(** Number::toString looks for the decimal of fewest significant digits
    that reads back as the number, and among those of that many digits
    for the nearest.  [shortest fuel k n x] tries [k], [k + 1], ...
    significant digits on the number [x] of [n] digits: the candidates
    are the multiples of [10 ^ (n - k)] on either side of [x].
    Seventeen digits always do. *)
Fixpoint shortest (fuel : nat) (k n x : Z) : Z :=
  match fuel with
  | O => x
  | S fuel' =>
      if n <=? k then x
      else
        let p := 10 ^ (n - k) in
        let lo := x / p * p in
        let hi := lo + p in
        let lo_ok := to_double lo =? x in
        let hi_ok := to_double hi =? x in
        if lo_ok && (negb hi_ok || (x - lo <? hi - x)
                     || ((x - lo =? hi - x) && Z.even (lo / p)))
        then lo
        else if hi_ok then hi
        else shortest fuel' (k + 1) n x
  end.

Fixpoint drop_zeros (s : string) : string :=
  match s with
  | String "0"%char r => drop_zeros r
  | _ => s
  end.

(** [d.ddde+x], for the numbers from [1e21] on. *)
Definition exponent_notation (c : Z) : string :=
  let significand :=
    rev_string (drop_zeros (rev_string (decimal c) EmptyString)) EmptyString in
  let exponent := ("e+" ++ decimal (digits c - 1))%string in
  match significand with
  | String d EmptyString => String d exponent
  | String d r => String d ("." ++ r ++ exponent)%string
  | EmptyString => EmptyString
  end.

(** The template literal [`${n}`] of an integer-valued number, the
    Number value next to [z] where [z] itself is none. *)
Definition toString (z : Z) : string :=
  let x := to_double (Z.abs z) in
  let sign := if z <? 0 then "-"%string else EmptyString in
  if 2 ^ 1024 <=? x then (sign ++ "Infinity")%string
  else
    let c := shortest 17 1 (digits x) x in
    let text := if c <? 10 ^ 21 then decimal c else exponent_notation c in
    (sign ++ text)%string.

(** The digits that [s] begins with, and what follows them. *)
Fixpoint span_digits (s : string) : string * string :=
  match s with
  | String c r =>
      if (48 <=? code c) && (code c <=? 57)
      then let '(d, rest) := span_digits r in (String c d, rest)
      else (EmptyString, s)
  | EmptyString => (EmptyString, EmptyString)
  end.

Definition digits_value (s : string) : Z :=
  match parse_digits 10 s None with
  | Some n => n
  | None => 0
  end.

(** StrUnsignedDecimalLiteral but [Infinity]: digits, a fraction, an
    exponent, with a digit at least before the exponent.  The result is
    [(m, x)] for the literal of value [m * 10 ^ x]. *)
Definition decimal_literal (t : string) : option (Z * Z) :=
  let '(whole, r1) := span_digits t in
  let '(fraction, r2) :=
    match r1 with
    | String "."%char r => span_digits r
    | _ => (EmptyString, r1)
    end in
  if String.eqb whole EmptyString && String.eqb fraction EmptyString
  then None
  else
    let m := digits_value (whole ++ fraction)%string in
    let scale := Z.of_nat (String.length fraction) in
    match r2 with
    | EmptyString => Some (m, - scale)
    | String c r3 =>
        if Ascii.eqb c "e" || Ascii.eqb c "E" then
          let '(sign, r4) :=
            match r3 with
            | String "-"%char r => (-1, r)
            | String "+"%char r => (1, r)
            | _ => (1, r3)
            end in
          let '(exponent, r5) := span_digits r4 in
          if String.eqb exponent EmptyString
             || negb (String.eqb r5 EmptyString)
          then None
          else Some (m, sign * digits_value exponent - scale)
        else None
    end.

Fixpoint all_of_radix (radix : Z) (s : string) : bool :=
  match s with
  | String c r =>
      match digit_value c with
      | Some d => (d <? radix) && all_of_radix radix r
      | None => false
      end
  | EmptyString => true
  end.

(** NonDecimalIntegerLiteral: [0x], [0o] or [0b] and digits. *)
Definition radix_literal (t : string) : option Z :=
  match t with
  | String "0"%char (String p r) =>
      let radix :=
        if Ascii.eqb p "x" || Ascii.eqb p "X" then 16
        else if Ascii.eqb p "o" || Ascii.eqb p "O" then 8
        else if Ascii.eqb p "b" || Ascii.eqb p "B" then 2
        else 0 in
      if (radix =? 0) || String.eqb r EmptyString
         || negb (all_of_radix radix r)
      then None
      else parse_digits radix r None
  | _ => None
  end.

(** The binary64 number next to [a / b], for [a] and [b] positive, as
    [(m, e)] for [m * 2 ^ e]: 53 bits of quotient, or fewer at the
    least exponent, then to nearest, ties to even. *)
Definition round_ratio (a b : Z) : Z * Z :=
  let scaled e := if e <? 0 then (a * 2 ^ (- e), b) else (a, b * 2 ^ e) in
  let e0 := Z.log2 a - Z.log2 b - 53 in
  let q0 := fst (scaled e0) / snd (scaled e0) in
  let e1 := if 2 ^ 53 <=? q0 then e0 + 1 else e0 in
  let e := Z.max e1 (-1074) in
  let '(n, d) := scaled e in
  let q := n / d in
  let r := n mod d in
  (if (d <? 2 * r) || ((2 * r =? d) && Z.odd q) then q + 1 else q, e).

(** The greatest integer not above the Number value of [m * 10 ^ x],
    and the least not below ([up]), for [m] natural. *)
Definition decimal_floor (up : bool) (m x : Z) : Z :=
  if m =? 0 then 0
  else if 400 <? x then 2 ^ 1024
  else if 0 <=? x then to_double (m * 10 ^ x)
  else if x <? - (Z.log2 m + 1500) then 0
  else
    let '(q, e) := round_ratio m (10 ^ (- x)) in
    if 0 <=? e then Z.min (q * 2 ^ e) (2 ^ 1024)
    else if up then - ((- q) / 2 ^ (- e))
    else q / 2 ^ (- e).

(** ToNumber of a string, followed by [Math.floor]: white space
    trimmed, nothing is 0, then StrNumericLiteral. *)
Definition string_floor (s : string) : JSNumber :=
  let t := trim s in
  match t with
  | EmptyString => Num 0
  | _ =>
      match radix_literal t with
      | Some n => Num (to_double n)
      | None =>
          let '(negative, u) :=
            match t with
            | String "-"%char r => (true, r)
            | String "+"%char r => (false, r)
            | _ => (false, t)
            end in
          if String.eqb u "Infinity"%string
          then Num (if negative then - 2 ^ 1024 else 2 ^ 1024)
          else
            match decimal_literal u with
            | Some (m, x) =>
                Num (if negative then - decimal_floor true m x
                     else decimal_floor false m x)
            | None => NaN
            end
      end
  end.

(** ToNumber followed by [Math.floor], for the right operand of
    [roll <= chance]: the roll is an integer or an infinity, for which
    [roll <= x] and [roll <= Math.floor(x)] are one and the same. *)
Definition floor_ToNumber (v : JSValue) : JSNumber :=
  match v with
  | JUndefined => NaN
  | JNull => Num 0
  | JBool b => Num (if b then 1 else 0)
  | JNum z => Num z
  | JStr s => string_floor s
  | JObj _ => NaN
  end.

Fixpoint has_key (name : string) (fields : JSFields) : bool :=
  match fields with
  | FNil => false
  | FCons k _ rest => String.eqb k name || has_key name rest
  end.

(* ================================================================= *)
(** * Math.random and the D100 roll *)

(** A result of [Math.random()]: a binary64 number in [0,1), written
    [mant / 2^expo] with a significand of at most 53 bits. *)
Record Double01 := {
  mant : Z;
  expo : Z;
  double01_ok :
    (0 <=? mant) && (mant <? 2 ^ 53) && (0 <=? expo) && (expo <=? 1074)
    && (mant <? 2 ^ expo) = true
}.

(** [Math.trunc(Math.random() * 100) + 1]. *)
Definition d100 (d : Double01) : Z :=
  round53 (mant d * 100) / 2 ^ expo d + 1.

(* ================================================================= *)
(** * Semantic versions

    The [semver] package the bootstrap calls, in strict mode: an
    optional leading [v], surrounding white space trimmed, at most 256
    characters, numbers up to MAX_SAFE_INTEGER.  A numeric prerelease
    identifier is kept whole, as the package keeps it (a number below
    MAX_SAFE_INTEGER, the string of its digits from there on); it is
    when two of them are compared that they become Number values. *)

Inductive Identifier :=
| IdNum (n : Z)
| IdStr (s : string).

Record SemVer := {
  major : Z;
  minor : Z;
  patch : Z;
  prerelease : list Identifier
}.

Definition MAX_LENGTH : nat := 256.
Definition MAX_SAFE_INTEGER : Z := 9007199254740991.

(** [s] up to the first [sep], and what follows that [sep] if there is
    one. *)
Fixpoint cut (sep : ascii) (s : string) : string * option string :=
  match s with
  | EmptyString => (EmptyString, None)
  | String c r =>
      if Ascii.eqb c sep then (EmptyString, Some r)
      else let '(a, b) := cut sep r in (String c a, b)
  end.

(** [s.split(sep)] for a one-character separator. *)
Fixpoint split (sep : ascii) (s : string) : list string :=
  match s with
  | EmptyString => [EmptyString]
  | String c r =>
      if Ascii.eqb c sep then EmptyString :: split sep r
      else match split sep r with
           | h :: t => String c h :: t
           | [] => [String c EmptyString]
           end
  end.

(** [0|[1-9]\d*] *)
Definition numeric_identifier (s : string) : option Z :=
  match s with
  | EmptyString => None
  | String "0"%char EmptyString => Some 0
  | String "0"%char _ => None
  | _ => if all_digits s then parse_digits 10 s None else None
  end.

(** [[0-9A-Za-z-]+] *)
Fixpoint identifier_chars (s : string) : bool :=
  match s with
  | String c r =>
      (match digit_value c with Some _ => true | None => code c =? 45 end)
      && identifier_chars r
  | EmptyString => true
  end.

Definition prerelease_identifier (s : string) : option Identifier :=
  match s with
  | EmptyString => None
  | _ =>
      if all_digits s then option_map IdNum (numeric_identifier s)
      else if identifier_chars s then Some (IdStr s) else None
  end.

Definition build_identifier (s : string) : bool :=
  negb (String.eqb s EmptyString) && identifier_chars s.

Fixpoint traverse {A B} (f : A -> option B) (l : list A) : option (list B) :=
  match l with
  | [] => Some []
  | x :: r =>
      match f x, traverse f r with
      | Some y, Some ys => Some (y :: ys)
      | _, _ => None
      end
  end.

Definition main_number (s : string) : option Z :=
  match numeric_identifier s with
  | Some n => if n <=? MAX_SAFE_INTEGER then Some n else None
  | None => None
  end.

(** [new SemVer(version)] on a string; [None] where it throws
    "Invalid Version". *)
Definition semver_parse (version : string) : option SemVer :=
  if Nat.ltb MAX_LENGTH (js_length version) then None
  else
    let t := trim version in
    let t := match t with String "v"%char r => r | _ => t end in
    let '(front, build) := cut "+" t in
    let '(main, pre) := cut "-" front in
    let build_ok :=
      match build with
      | Some b => forallb build_identifier (split "." b)
      | None => true
      end in
    let pre_ids :=
      match pre with
      | Some p => traverse prerelease_identifier (split "." p)
      | None => Some []
      end in
    match split "." main, pre_ids with
    | [a; b; c], Some ids =>
        match main_number a, main_number b, main_number c with
        | Some x, Some y, Some z =>
            if build_ok then
              Some {| major := x; minor := y; patch := z; prerelease := ids |}
            else None
        | _, _, _ => None
        end
    | _, _ => None
    end.

(** [new SemVer(version)] on any value: anything but a string is an
    invalid version. *)
Definition semver_of_value (v : JSValue) : option SemVer :=
  match v with
  | JStr s => semver_parse s
  | _ => None
  end.

(** [compareIdentifiers]: two numeric identifiers are compared as
    Number values, [+a] and [+b]. *)
Definition compareIdentifiers (a b : Identifier) : comparison :=
  match a, b with
  | IdNum x, IdNum y => to_double x ?= to_double y
  | IdNum _, IdStr _ => Lt
  | IdStr _, IdNum _ => Gt
  | IdStr x, IdStr y => String.compare x y
  end.

(** [a === b] on two identifiers. *)
Definition identifier_eqb (a b : Identifier) : bool :=
  match a, b with
  | IdNum x, IdNum y => x =? y
  | IdStr x, IdStr y => String.eqb x y
  | _, _ => false
  end.

Definition or_else (c1 c2 : comparison) : comparison :=
  match c1 with
  | Eq => c2
  | _ => c1
  end.

Definition compareMain (a b : SemVer) : comparison :=
  or_else (major a ?= major b)
    (or_else (minor a ?= minor b) (patch a ?= patch b)).

(** The loop of [comparePre]: it goes on past two identifiers that are
    identical, and returns what [compareIdentifiers] makes of the first
    two that are not, 0 included. *)
Fixpoint compareIdentifierLists (a b : list Identifier) : comparison :=
  match a, b with
  | [], [] => Eq
  | _ :: _, [] => Gt
  | [], _ :: _ => Lt
  | x :: a', y :: b' =>
      if identifier_eqb x y then compareIdentifierLists a' b'
      else compareIdentifiers x y
  end.

Definition comparePre (a b : SemVer) : comparison :=
  match prerelease a, prerelease b with
  | _ :: _, [] => Lt
  | [], _ :: _ => Gt
  | [], [] => Eq
  | pa, pb => compareIdentifierLists pa pb
  end.

Definition semver_compare (a b : SemVer) : comparison :=
  or_else (compareMain a b) (comparePre a b).

(** [a] is greater than [b] for the package. *)
Definition semver_greater (a b : SemVer) : Prop := semver_compare a b = Gt.

(* ================================================================= *)
(** * The world the bootstrap runs in *)

(** A path, as the list of its components between separators:
    [dirPath.split(path.sep)].  [path.join] and [path.resolve] append
    components, [path.dirname] drops the last one. *)
Definition Path := list string.

Definition path_sep : string := String "092"%char EmptyString.
Definition path_to_string (p : Path) : string := String.concat path_sep p.
Definition path_join (p : Path) (more : list string) : Path := p ++ more.
Definition path_resolve (p : Path) (more : list string) : Path := p ++ more.
Definition path_dirname (p : Path) : Path := removelast p.

Fixpoint path_eqb (p q : Path) : bool :=
  match p, q with
  | [], [] => true
  | a :: p', b :: q' => String.eqb a b && path_eqb p' q'
  | _, _ => false
  end.

Inductive Node :=
| File (content : string)
| Dir.

Inductive ErrCode := EEXIST | ENOENT | ENOTDIR | EISDIR | EACCES.

(** The configuration the application passes in. *)
Record Info := {
  baseUrl : string;
  version : string;
  versionFileName : string;
  tempDir : Path;
  cacheDir : Path;
  exec : string;
  cwd : string;
  appDir : string;
  waitPids : list Z
}.

Record ReqInfo := {
  rbaseUrl : string;
  uri : string;
  json : bool
}.

(** A response of the update server.  [chunks] is the body as it
    arrives; [parsed] is what [JSON.parse] makes of the body text
    ([None] where it throws), which the server decides together with
    the text since the model carries no JSON grammar.  A request that
    [prequest] makes is answered in full or fails; how the body that
    [fetchUpdater] streams comes to its end is [bodyEnds] of the
    world. *)
Record Response := {
  statusCode : Z;
  content_length : option Z;
  chunks : list string;
  parsed : option JSValue
}.

Inductive HttpOutcome :=
| NoResponse
| Responds (r : Response).

(** The end of the body of the download: the response ends, which
    ends the file stream in its turn; or its chunks arrive and the
    response never ends (the connection stalls, or is lost without an
    end), so that the file stream is neither ended nor closed. *)
Inductive BodyEnd := Completes | Stalls.

Inductive Exn :=
| FsError (c : ErrCode) (p : Path)
| RequestError (r : ReqInfo)
| SyntaxError
| TypeError (msg : string)
| Rejected (msg : string)
| WindowError
| SpawnError.

Inductive LogMsg :=
| LogRollCacheNotFound
| LogNoChanceFile
| LogChance (chance : JSValue)
| LogRolled (roll : Z)
| LogFetchVersionFailed (status : Z)
| LogNoLatestVersion
| LogAlreadyLatest
| LogLatestIsLess
| LogLotteryLost
| LogArgs (args : list string)
| LogError (e : Exn).

(** Every effect, in the order in which it takes place. *)
Inductive Event :=
| EvLog (m : LogMsg)
| EvRequest (r : ReqInfo)
| EvReadFile (p : Path)
| EvMkdir (p : Path) (err : option ErrCode)
| EvWriteFile (p : Path) (data : string) (err : option ErrCode)
| EvOpen (p : Path) (err : option ErrCode)
| EvStreamWrite (p : Path) (chunk : string)
| EvWindowCreate
| EvWindowClose
| EvSend (accum total : Z)
| EvSpawn (command : string) (args : list string) (dir : Path)
| EvUnhandledRejection (e : Exn)
| EvUncaughtException (e : Exn).

(** Where the construction of the status window throws, if it does. *)
Inductive WindowFault := NoFault | NewThrows | OnThrows | LoadURLThrows.

Inductive Window := WindowOpen | WindowClosed.

Record World := {
  fs : Path -> option Node;
  denied : Path -> bool;                (* creating this entry is refused *)
  net : ReqInfo -> HttpOutcome;
  random : nat -> Double01;             (* successive Math.random() *)
  drawn : nat;
  windowFault : WindowFault;
  spawnThrows : bool;
  openAfter : nat;
  (* how many directory creations of a detached [ensureDir] are served
     before the write stream's [open]: 1 when the file system serves
     requests in the order in which they were issued *)
  lingering : nat;
  (* how many of them are still to be served when the download is
     over, one way or another *)
  bodyEnds : BodyEnd;
  detached : list Path;                 (* what a detached ensureDir still creates *)
  statusWindow : option Window;         (* let statusWindow = null *)
  trace : list Event                    (* newest first *)
}.

Definition with_fs (f : Path -> option Node) (w : World) : World :=
  {| fs := f; denied := denied w; net := net w; random := random w;
     drawn := drawn w; windowFault := windowFault w;
     spawnThrows := spawnThrows w; openAfter := openAfter w;
     lingering := lingering w; bodyEnds := bodyEnds w;
     detached := detached w; statusWindow := statusWindow w;
     trace := trace w |}.

Definition with_drawn (n : nat) (w : World) : World :=
  {| fs := fs w; denied := denied w; net := net w; random := random w;
     drawn := n; windowFault := windowFault w;
     spawnThrows := spawnThrows w; openAfter := openAfter w;
     lingering := lingering w; bodyEnds := bodyEnds w;
     detached := detached w; statusWindow := statusWindow w;
     trace := trace w |}.

Definition with_detached (d : list Path) (w : World) : World :=
  {| fs := fs w; denied := denied w; net := net w; random := random w;
     drawn := drawn w; windowFault := windowFault w;
     spawnThrows := spawnThrows w; openAfter := openAfter w;
     lingering := lingering w; bodyEnds := bodyEnds w;
     detached := d; statusWindow := statusWindow w;
     trace := trace w |}.

Definition with_statusWindow (s : option Window) (w : World) : World :=
  {| fs := fs w; denied := denied w; net := net w; random := random w;
     drawn := drawn w; windowFault := windowFault w;
     spawnThrows := spawnThrows w; openAfter := openAfter w;
     lingering := lingering w; bodyEnds := bodyEnds w;
     detached := detached w; statusWindow := s;
     trace := trace w |}.

Definition with_trace (t : list Event) (w : World) : World :=
  {| fs := fs w; denied := denied w; net := net w; random := random w;
     drawn := drawn w; windowFault := windowFault w;
     spawnThrows := spawnThrows w; openAfter := openAfter w;
     lingering := lingering w; bodyEnds := bodyEnds w;
     detached := detached w; statusWindow := statusWindow w;
     trace := t |}.

Definition with_net (n : ReqInfo -> HttpOutcome) (w : World) : World :=
  {| fs := fs w; denied := denied w; net := n; random := random w;
     drawn := drawn w; windowFault := windowFault w;
     spawnThrows := spawnThrows w; openAfter := openAfter w;
     lingering := lingering w; bodyEnds := bodyEnds w;
     detached := detached w; statusWindow := statusWindow w;
     trace := trace w |}.

(** The events of a run, oldest first. *)
Definition history (w : World) : list Event := rev (trace w).

(* ================================================================= *)
(** * Promises: a state monad with exceptions

    [Ok a] is a promise fulfilled with [a], [Throw e] one rejected with
    [e] (or an exception thrown), [Pending] one that never settles. *)

Inductive Outcome (A : Type) :=
| Ok (a : A)
| Throw (e : Exn)
| Pending.

Arguments Ok {A} a.
Arguments Throw {A} e.
Arguments Pending {A}.

Definition M (A : Type) : Type := World -> Outcome A * World.

Definition ret {A} (a : A) : M A := fun w => (Ok a, w).

Definition bind {A B} (m : M A) (k : A -> M B) : M B :=
  fun w =>
    match m w with
    | (Ok a, w') => k a w'
    | (Throw e, w') => (Throw e, w')
    | (Pending, w') => (Pending, w')
    end.

Definition throw {A} (e : Exn) : M A := fun w => (Throw e, w).

Definition pending {A} : M A := fun w => (Pending, w).

(** [try { m } catch (error) { h error }], and [promise.catch(h)]. *)
Definition catch {A} (m : M A) (h : Exn -> M A) : M A :=
  fun w =>
    match m w with
    | (Throw e, w') => h e w'
    | r => r
    end.

Declare Scope promise_scope.
Delimit Scope promise_scope with promise.
Notation "x <- m ;; k" := (bind m (fun x => k))
  (at level 61, m at next level, right associativity) : promise_scope.
Notation "m ;; k" := (bind m (fun _ => k))
  (at level 61, right associativity) : promise_scope.
Local Open Scope promise_scope.

Definition emit (ev : Event) : M unit :=
  fun w => (Ok tt, with_trace (ev :: trace w) w).

Definition console_log (m : LogMsg) : M unit := emit (EvLog m).

(* ================================================================= *)
(** * The file system, the network, the window, the child process *)

Definition fs_set (p : Path) (n : Node) (f : Path -> option Node)
  : Path -> option Node :=
  fun q => if path_eqb q p then Some n else f q.

(** Why an entry cannot be created at [p], if it cannot. *)
Definition creation_error (w : World) (p : Path) : option ErrCode :=
  match fs w (path_dirname p) with
  | None => Some ENOENT
  | Some (File _) => Some ENOTDIR
  | Some Dir => if denied w p then Some EACCES else None
  end.

(** [fs.mkdir]. *)
Definition mkdir (directory : Path) : M unit :=
  fun w =>
    let err :=
      match fs w directory with
      | Some _ => Some EEXIST
      | None => creation_error w directory
      end in
    let w1 := with_trace (EvMkdir directory err :: trace w) w in
    match err with
    | Some c => (Throw (FsError c directory), w1)
    | None => (Ok tt, with_fs (fs_set directory Dir (fs w1)) w1)
    end.

(** [fs.readFile]. *)
Definition readFile (file : Path) : M string :=
  fun w =>
    let w1 := with_trace (EvReadFile file :: trace w) w in
    match fs w file with
    | Some (File data) => (Ok data, w1)
    | Some Dir => (Throw (FsError EISDIR file), w1)
    | None => (Throw (FsError ENOENT file), w1)
    end.

Definition write_error (w : World) (file : Path) : option ErrCode :=
  match fs w file with
  | Some Dir => Some EISDIR
  | Some (File _) => None
  | None => creation_error w file
  end.

(** [fs.writeFile]. *)
Definition writeFile (file : Path) (data : string) : M unit :=
  fun w =>
    let err := write_error w file in
    let w1 := with_trace (EvWriteFile file data err :: trace w) w in
    match err with
    | Some c => (Throw (FsError c file), w1)
    | None => (Ok tt, with_fs (fs_set file (File data) (fs w1)) w1)
    end.

(** The [open] of [fs.createWriteStream(file)]: creates or truncates the
    file.  A failure is not thrown: the stream emits it as 'error'. *)
Definition open_stream (file : Path) : M (option ErrCode) :=
  fun w =>
    let err := write_error w file in
    let w1 := with_trace (EvOpen file err :: trace w) w in
    match err with
    | Some c => (Ok err, w1)
    | None => (Ok None, with_fs (fs_set file (File EmptyString) (fs w1)) w1)
    end.

(** A chunk piped into the open stream. *)
Definition stream_write (file : Path) (chunk : string) : M unit :=
  fun w =>
    let old := match fs w file with Some (File c) => c | _ => EmptyString end in
    let w1 := with_trace (EvStreamWrite file chunk :: trace w) w in
    (Ok tt, with_fs (fs_set file (File (old ++ chunk)) (fs w1)) w1).

(** [Math.random()]. *)
Definition Math_random : M Double01 :=
  fun w => (Ok (random w (drawn w)), with_drawn (S (drawn w)) w).

(** [prequest(reqInfo)]: the promisified [request]; a request without a
    response rejects. *)
Definition prequest (reqInfo : ReqInfo) : M Response :=
  emit (EvRequest reqInfo) ;;
  fun w =>
    match net w reqInfo with
    | NoResponse => (Throw (RequestError reqInfo), w)
    | Responds r => (Ok r, w)
    end.

(** [response.body] of a request made with [json: true]: the parsed
    body; the text itself where it does not parse; nothing at all where
    no body arrived. *)
Definition json_body (r : Response) : JSValue :=
  match parsed r with
  | Some v => v
  | None =>
      match chunks r with
      | [] => JUndefined
      | _ => JStr (String.concat EmptyString (chunks r))
      end
  end.

(** [JSON.parse(response.body)]. *)
Definition JSON_parse (r : Response) : M JSValue :=
  match parsed r with
  | Some v => ret v
  | None => throw SyntaxError
  end.

Fixpoint lookup (name : string) (fields : JSFields) : JSValue :=
  match fields with
  | FNil => JUndefined
  | FCons k v rest => if String.eqb k name then v else lookup name rest
  end.

(** The property [name] of [v]; [None] where reading it is a TypeError
    (on [undefined] and [null]). *)
Definition property (v : JSValue) (name : string) : option JSValue :=
  match v with
  | JUndefined | JNull => None
  | JObj fields => Some (lookup name fields)
  | _ => Some JUndefined
  end.

(** [v.name] *)
Definition get_prop (v : JSValue) (name : string) : M JSValue :=
  match property v name with
  | Some x => ret x
  | None => throw (TypeError name)
  end.

(** An object that cannot be converted to a primitive value.  ToPrimitive
    calls [valueOf] and [toString] in the order the context asks for; an
    object that [JSON.parse] made inherits both, [valueOf] gives the
    object back and [toString] a text, unless the object has a property
    of its own called [toString], which is no function: then there is
    nothing to convert it with, and the conversion throws a
    TypeError. *)
Definition unconvertible (v : JSValue) : bool :=
  match v with
  | JObj fields => has_key "toString" fields
  | _ => false
  end.

(** [roll <= chance]: false as soon as one side is NaN. *)
Definition js_le (roll : Z) (chance : JSValue) : M bool :=
  if unconvertible chance
  then throw (TypeError "Cannot convert object to primitive value")
  else ret (match floor_ToNumber chance with
            | NaN => false
            | Num c => roll <=? c
            end).

(** A value inside a template literal. *)
Definition js_to_string (v : JSValue) : string :=
  match v with
  | JUndefined => "undefined"
  | JNull => "null"
  | JBool true => "true"
  | JBool false => "false"
  | JNum z => toString z
  | JStr s => s
  | JObj _ => "[object Object]"
  end.

(** A value inside a template literal, converted as the literal is
    evaluated. *)
Definition template (v : JSValue) : M string :=
  if unconvertible v
  then throw (TypeError "Cannot convert object to primitive value")
  else ret (js_to_string v).

(** [semver.eq] and [semver.gt] share this: both arguments become
    [SemVer] objects, which throws on an invalid version. *)
Definition semver_cmp (a b : JSValue) : M comparison :=
  match semver_of_value a, semver_of_value b with
  | Some x, Some y => ret (semver_compare x y)
  | _, _ => throw (TypeError "Invalid Version")
  end.

Definition semver_eq (a b : JSValue) : M bool :=
  c <- semver_cmp a b ;;
  ret (match c with Eq => true | _ => false end).

Definition semver_gt (a b : JSValue) : M bool :=
  c <- semver_cmp a b ;;
  ret (match c with Gt => true | _ => false end).

(** [new BrowserWindow(...)], assigned to [statusWindow]. *)
Definition new_BrowserWindow : M unit :=
  fun w =>
    match windowFault w with
    | NewThrows => (Throw WindowError, w)
    | _ => emit EvWindowCreate (with_statusWindow (Some WindowOpen) w)
    end.

Definition statusWindow_on_ready_to_show : M unit :=
  fun w =>
    match windowFault w with
    | OnThrows => (Throw WindowError, w)
    | _ => (Ok tt, w)
    end.

Definition statusWindow_loadURL : M unit :=
  fun w =>
    match windowFault w with
    | LoadURLThrows => (Throw WindowError, w)
    | _ => (Ok tt, w)
    end.

(** [if (statusWindow) statusWindow.close();] *)
Definition close_statusWindow : M unit :=
  fun w =>
    match statusWindow w with
    | Some _ => emit EvWindowClose (with_statusWindow (Some WindowClosed) w)
    | None => (Ok tt, w)
    end.

Definition statusWindow_null : M unit :=
  fun w => (Ok tt, with_statusWindow None w).

(** [cp.spawn(command, args, { cwd, detached: true, stdio: 'ignore',
    shell: true })]. *)
Definition spawn (command : string) (args : list string) (dir : Path)
  : M unit :=
  fun w =>
    if spawnThrows w then (Throw SpawnError, w)
    else emit (EvSpawn command args dir) w.

(** A method call on an array of strings.  [Array.prototype] has [push];
    calling a property that does not exist is a TypeError. *)
Definition call_method (arr : list string) (name : string) (arg : string)
  : M (list string) :=
  if String.eqb name "push" then ret (arr ++ [arg])
  else throw (TypeError (name ++ " is not a function")).

(** What [for (key in array)] enumerates: the indices, as strings. *)
Definition for_in_keys {A} (l : list A) : list string :=
  map (fun i => toString (Z.of_nat i)) (seq 0 (List.length l)).

Definition quoted (s : string) : string :=
  String "034"%char (s ++ String "034"%char EmptyString).

(** A node-style callback [(err, data) => ...]: the failure as a value. *)
Definition attempt {A} (m : M A) : M (Exn + A) :=
  fun w =>
    match m w with
    | (Ok a, w') => (Ok (inr a), w')
    | (Throw e, w') => (Ok (inl e), w')
    | (Pending, w') => (Pending, w')
    end.

Definition get_net (reqInfo : ReqInfo) : M HttpOutcome :=
  fun w => (Ok (net w reqInfo), w).

Definition get_bodyEnds : M BodyEnd :=
  fun w => (Ok (bodyEnds w), w).

(** A listener of 'data' is called.  If it throws, the exception
    leaves the event loop uncaught, and the listeners registered after
    it, the pipe into the file among them, do not see the chunk. *)
Definition on_data (listener : M unit) : M bool :=
  fun w =>
    match listener w with
    | (Ok _, w') => (Ok true, w')
    | (Throw e, w') =>
        (Ok false, with_trace (EvUncaughtException e :: trace w') w')
    | (Pending, w') => (Pending, w')
    end.

(* ================================================================= *)
(** * bootstrap.js *)

(** [mkdirMaybe] *)
Definition mkdirMaybe (directory : Path) : M unit :=
  catch (mkdir directory)
    (fun error =>
       match error with
       | FsError EEXIST _ => ret tt
       | _ => throw error
       end).

(** The successive values of [directory] in the loop of [ensureDir]:
    every prefix of the path but the first component. *)
Fixpoint ensureDir_from (directory : Path) (directories : list string)
  : list Path :=
  match directories with
  | [] => []
  | d :: rest => (directory ++ [d]) :: ensureDir_from (directory ++ [d]) rest
  end.

Definition ensureDir_directories (dirPath : Path) : list Path :=
  match dirPath with
  | [] => []
  | d0 :: rest => ensureDir_from [d0] rest
  end.

Fixpoint mkdirMaybe_each (dirs : list Path) : M unit :=
  match dirs with
  | [] => ret tt
  | directory :: rest => mkdirMaybe directory ;; mkdirMaybe_each rest
  end.

(** [await ensureDir(dirPath)] *)
Definition ensureDir (dirPath : Path) : M unit :=
  mkdirMaybe_each (ensureDir_directories dirPath).

(** [ensureDir(dirPath);] with no [await]: the caller goes on at once,
    and the directories are created as the event loop serves them. *)
Definition ensureDir_detached (dirPath : Path) : M unit :=
  fun w => (Ok tt, with_detached (ensureDir_directories dirPath) w).

(** The event loop serves the next [mkdirMaybe] of the detached
    [ensureDir].  If it throws, the loop of [ensureDir] ends there and
    its promise is rejected with nobody to handle it. *)
Definition serve_detached : M unit :=
  fun w =>
    match detached w with
    | [] => (Ok tt, w)
    | directory :: rest =>
        match mkdirMaybe directory (with_detached rest w) with
        | (Throw e, w') =>
            emit (EvUnhandledRejection e) (with_detached [] w')
        | (_, w') => (Ok tt, w')
        end
    end.

Fixpoint serve_detached_n (n : nat) : M unit :=
  match n with
  | O => ret tt
  | S k => serve_detached ;; serve_detached_n k
  end.

(** The [open] that [fs.createWriteStream] issued is served: after
    [openAfter] creations of a detached [ensureDir], and before what
    remains of them, of which the last [lingering] are served only once
    the download is over. *)
Definition outStream_opens (file : Path) : M (option ErrCode) :=
  fun w =>
    (serve_detached_n (openAfter w) ;;
     err <- open_stream file ;;
     (fun w' =>
        serve_detached_n (List.length (detached w') - lingering w') w') ;;
     ret err) w.

(** [getPreviousRoll] *)
Definition getPreviousRoll (cacheFile : Path) (version : string) : M Z :=
  r <- attempt (readFile cacheFile) ;;
  match r with
  | inl err =>
      console_log LogRollCacheNotFound ;;
      ret 0
  | inr data =>
      let roll := parseInt data in
      (* if (!roll) roll = 0;  -- NaN and 0 are the falsy numbers *)
      let roll := match roll with NaN => 0 | Num z => z end in
      ret roll
  end.

(** [checkChance] *)
Definition checkChance (info : Info) (version : string) : M bool :=
  let reqInfo :=
    {| rbaseUrl := baseUrl info;
       uri := "/" ++ version ++ ".chance";
       json := false |} in
  response <- prequest reqInfo ;;
  if negb (statusCode response =? 200) then
    console_log LogNoChanceFile ;;
    ret true
  else
    let rollCache := path_join (cacheDir info) ["rolls"%string; version] in
    body <- JSON_parse response ;;
    chance <- get_prop body "chance" ;;
    template chance ;;
    console_log (LogChance chance) ;;
    roll <- getPreviousRoll rollCache version ;;
    roll <- (if roll =? 0 then
               r <- Math_random ;;
               let roll := d100 r in
               ensureDir (path_dirname rollCache) ;;
               writeFile rollCache (toString roll) ;;
               ret roll
             else ret roll) ;;
    console_log (LogRolled roll) ;;
    lucky <- js_le roll chance ;;
    if lucky then ret true else ret false.

(** The 'data' handler of [handleResponse] and the pipe into
    [outStream], chunk by chunk. *)
Fixpoint receive (file : Path) (contentLength : option Z)
  (progress : Z -> Z -> M unit) (accum : Z) (body : list string) : M unit :=
  match body with
  | [] => ret tt
  | chunk :: rest =>
      let accum' := accum + Z.of_nat (String.length chunk) in
      piped <- match contentLength with
               | None => ret true
               | Some total => on_data (progress accum' total)
               end ;;
      (if piped then stream_write file chunk else ret tt) ;;
      receive file contentLength progress accum' rest
  end.

(** The pipe alone: [request] forwards the body of any response,
    whatever its status. *)
Fixpoint pipe (file : Path) (body : list string) : M unit :=
  match body with
  | [] => ret tt
  | chunk :: rest => stream_write file chunk ;; pipe file rest
  end.

(** [fetchUpdater].  Once the promise is rejected, what the request
    does afterwards is not followed.  A body piped after a rejection
    lands in the file after the caller has gone on; it is written here
    before the rejection is raised.  The promise is resolved by the
    'close' of the file stream alone, which the end of the response
    brings about. *)
Definition fetchUpdater (info : Info) (progress : Z -> Z -> M unit)
  : M Path :=
  let reqInfo :=
    {| rbaseUrl := baseUrl info;
       uri := "/latest-updater.exe";
       json := false |} in
  let updaterPath := path_resolve (tempDir info) ["latest-updater.exe"%string] in
  (* fs.createWriteStream(updaterPath) issues the open;
     request(reqInfo) issues the request *)
  emit (EvRequest reqInfo) ;;
  opened <- outStream_opens updaterPath ;;
  match opened with
  | Some c =>
      (* outPipe.on('error', (error) => reject(error)) *)
      throw (FsError c updaterPath)
  | None =>
      outcome <- get_net reqInfo ;;
      match outcome with
      | NoResponse =>
          (* the request emits 'error'; nothing listens on the request,
             and pipe() does not forward errors to [outStream] *)
          emit (EvUncaughtException (RequestError reqInfo)) ;;
          pending
      | Responds response =>
          if negb (statusCode response =? 200) then
            pipe updaterPath (chunks response) ;;
            throw (Rejected ("Failed to fetch updater: status "
                             ++ toString (statusCode response)))
          else
            receive updaterPath (content_length response) progress 0
              (chunks response) ;;
            ended <- get_bodyEnds ;;
            match ended with
            | Completes =>
                (* outPipe.on('close', () => resolve(updaterPath)) *)
                ret updaterPath
            | Stalls => pending
            end
      end
  end.

(** [getVersion] *)
Definition getVersion (info : Info) : M JSValue :=
  let reqInfo :=
    {| rbaseUrl := baseUrl info;
       uri := "/" ++ versionFileName info;
       json := true |} in
  response <- prequest reqInfo ;;
  if negb (statusCode response =? 200) then
    console_log (LogFetchVersionFailed (statusCode response)) ;;
    ret JNull
  else
    get_prop (json_body response) "version".

(** The loop [for (pid in info.waitPids)]. *)
Fixpoint push_pids (pids : list string) (updaterArgs : list string)
  : M (list string) :=
  match pids with
  | [] => ret updaterArgs
  | pid :: rest =>
      updaterArgs <- call_method updaterArgs "push_back" "-p" ;;
      updaterArgs <- call_method updaterArgs "push_back" pid ;;
      push_pids rest updaterArgs
  end.

(** [entry] *)
Definition entry (info : Info) : M bool :=
  latestVersion <- getVersion info ;;
  if negb (truthy latestVersion) then
    console_log LogNoLatestVersion ;;
    ret false
  else
  same <- semver_eq (JStr (version info)) latestVersion ;;
  if same then
    console_log LogAlreadyLatest ;;
    ret false
  else
  older <- semver_gt (JStr (version info)) latestVersion ;;
  if older then
    console_log LogLatestIsLess ;;
    ret false
  else
  lucky <- checkChance info (js_to_string latestVersion) ;;
  if negb lucky then
    console_log LogLotteryLost ;;
    ret false
  else
  catch (new_BrowserWindow ;;
         statusWindow_on_ready_to_show ;;
         statusWindow_loadURL)
    (fun error => close_statusWindow ;; statusWindow_null) ;;
  ensureDir_detached (tempDir info) ;;
  updaterPath <- fetchUpdater info
    (fun accum total w =>
       match statusWindow w with
       | None => (Ok tt, w)
       | Some _ => emit (EvSend accum total) w
       end) ;;
  let updaterArgs :=
    [ "--base-url"%string; quoted (baseUrl info);
      "--version"%string; quoted (js_to_string latestVersion);
      "--exec"%string; quoted (exec info);
      "--cwd"%string; quoted (cwd info);
      "--app-dir"%string; quoted (appDir info);
      "--force-temp"%string ] in
  updaterArgs <- push_pids (for_in_keys (waitPids info)) updaterArgs ;;
  console_log (LogArgs updaterArgs) ;;
  spawn (path_to_string updaterPath) updaterArgs (tempDir info) ;;
  close_statusWindow ;;
  ret true.

(** [module.exports] *)
Definition module_exports (info : Info) : M bool :=
  catch (entry info)
    (fun error =>
       console_log (LogError error) ;;
       close_statusWindow ;;
       ret false).

(* ================================================================= *)
(** * Sample installations and servers *)

(** [Math.random()] returning 0.5, 0, and the largest number below 1. *)
Definition a_half : Double01 :=
  {| mant := 1; expo := 1; double01_ok := eq_refl |}.

Definition a_zero : Double01 :=
  {| mant := 0; expo := 0; double01_ok := eq_refl |}.

Definition almost_one : Double01 :=
  {| mant := 2 ^ 53 - 1; expo := 53; double01_ok := eq_refl |}.

Definition an_info : Info :=
  {| baseUrl := "https://updates.example/app";
     version := "1.0.0";
     versionFileName := "latest.json";
     tempDir := ["C:"; "Temp"]%string;
     cacheDir := ["C:"; "Cache"]%string;
     exec := "C:/App/app.exe";
     cwd := "C:/App";
     appDir := "C:/App/resources";
     waitPids := [] |}.

Definition with_waitPids (pids : list Z) (i : Info) : Info :=
  {| baseUrl := baseUrl i; version := version i;
     versionFileName := versionFileName i; tempDir := tempDir i;
     cacheDir := cacheDir i; exec := exec i; cwd := cwd i;
     appDir := appDir i; waitPids := pids |}.

Definition with_tempDir (p : Path) (i : Info) : Info :=
  {| baseUrl := baseUrl i; version := version i;
     versionFileName := versionFileName i; tempDir := p;
     cacheDir := cacheDir i; exec := exec i; cwd := cwd i;
     appDir := appDir i; waitPids := waitPids i |}.

(** A file system holding the given directories and files. *)
Fixpoint disk (entries : list (Path * Node)) : Path -> option Node :=
  match entries with
  | [] => fun _ => None
  | (p, n) :: rest => fs_set p n (disk rest)
  end.

Definition a_disk : Path -> option Node :=
  disk [ (["C:"], Dir); (["C:"; "Temp"], Dir); (["C:"; "Cache"], Dir) ]%string.

Definition responds (status : Z) (body : list string) (v : option JSValue)
  : HttpOutcome :=
  Responds {| statusCode := status; content_length := None;
              chunks := body; parsed := v |}.

(** [{ "version": v }] and [{ "chance": c }] *)
Definition version_descriptor (v : string) : HttpOutcome :=
  responds 200 ["{version}"%string]
    (Some (JObj (FCons "version" (JStr v) FNil))).

Definition chance_file (c : Z) : HttpOutcome :=
  responds 200 ["{chance}"%string]
    (Some (JObj (FCons "chance" (JNum c) FNil))).

(** A server: what it answers for the version file, for the chance file
    and for the updater binary. *)
Definition server (versionFile chanceFile binary : HttpOutcome)
  : ReqInfo -> HttpOutcome :=
  fun r =>
    if json r then versionFile
    else if String.eqb (uri r) "/latest-updater.exe" then binary
    else chanceFile.

Definition a_world (f : Path -> option Node) (n : ReqInfo -> HttpOutcome)
  : World :=
  {| fs := f; denied := fun _ => false; net := n;
     random := fun _ => a_half;
     drawn := O; windowFault := NoFault; spawnThrows := false;
     openAfter := 1%nat; lingering := O; bodyEnds := Completes;
     detached := []; statusWindow := None;
     trace := [] |}.

(* ================================================================= *)
(** * Names for what the statements speak about *)

(** The three requests of a run. *)
Definition version_request (info : Info) : ReqInfo :=
  {| rbaseUrl := baseUrl info;
     uri := "/" ++ versionFileName info;
     json := true |}.

Definition chance_request (info : Info) (version : string) : ReqInfo :=
  {| rbaseUrl := baseUrl info;
     uri := "/" ++ version ++ ".chance";
     json := false |}.

Definition updater_request (info : Info) : ReqInfo :=
  {| rbaseUrl := baseUrl info;
     uri := "/latest-updater.exe";
     json := false |}.

(** The roll cache file of a version, and the downloaded updater. *)
Definition rollCache_of (info : Info) (version : string) : Path :=
  path_join (cacheDir info) ["rolls"%string; version].

Definition updaterPath_of (info : Info) : Path :=
  path_resolve (tempDir info) ["latest-updater.exe"%string].

(** What [getPreviousRoll] makes of the cache: the number the file
    starts with, and 0 when there is no file or no number. *)
Definition stored_roll (w : World) (cacheFile : Path) : Z :=
  match fs w cacheFile with
  | Some (File data) =>
      match parseInt data with
      | Num z => z
      | NaN => 0
      end
  | _ => 0
  end.

(** The last thing a run did. *)
Definition last_event (w : World) : option Event := hd_error (trace w).

Definition is_spawn (e : Event) : bool :=
  match e with
  | EvSpawn _ _ _ => true
  | _ => false
  end.

(** A cache directory that holds [data] as the roll for 1.2.0. *)
Definition cached_disk (data : string) : Path -> option Node :=
  disk [ (["C:"; "Cache"; "rolls"; "1.2.0"], File data);
         (["C:"; "Cache"; "rolls"], Dir);
         (["C:"], Dir); (["C:"; "Temp"], Dir); (["C:"; "Cache"], Dir) ]%string.

Definition an_updater : HttpOutcome := responds 200 ["MZ"; "P"]%string None.

(** Version 1.2.0 is out, rolled out to [c] percent. *)
Definition staged (c : Z) : ReqInfo -> HttpOutcome :=
  server (version_descriptor "1.2.0") (chance_file c) an_updater.

Definition chance_response (c : Z) : Response :=
  {| statusCode := 200; content_length := None;
     chunks := ["{chance}"%string];
     parsed := Some (JObj (FCons "chance" (JNum c) FNil)) |}.


(** Version 1.2.0 is out and not staged. *)
Definition unstaged (binary : HttpOutcome) : ReqInfo -> HttpOutcome :=
  server (version_descriptor "1.2.0") (responds 404 [] None) binary.

Definition version_response (v : string) : Response :=
  {| statusCode := 200; content_length := None;
     chunks := ["{version}"%string];
     parsed := Some (JObj (FCons "version" (JStr v) FNil)) |}.

(** An installation at 1.0.0 facing a server with 1.2.0, unstaged. *)
Definition a_newer_world (binary : HttpOutcome) : World :=
  a_world a_disk (unstaged binary).

Definition a_server_error : HttpOutcome :=
  responds 500 ["Internal "; "Server Error"]%string None.

(** The same installation at another version. *)
Definition with_version (v : string) (i : Info) : Info :=
  {| baseUrl := baseUrl i; version := v;
     versionFileName := versionFileName i; tempDir := tempDir i;
     cacheDir := cacheDir i; exec := exec i; cwd := cwd i;
     appDir := appDir i; waitPids := waitPids i |}.

(** A server that has the version [v] out, not staged. *)
Definition serves_version (v : string) : ReqInfo -> HttpOutcome :=
  server (version_descriptor v) (responds 404 [] None) an_updater.

(** The same world with another end of the download's body. *)
Definition with_bodyEnds (e : BodyEnd) (w : World) : World :=
  {| fs := fs w; denied := denied w; net := net w; random := random w;
     drawn := drawn w; windowFault := windowFault w;
     spawnThrows := spawnThrows w; openAfter := openAfter w;
     lingering := lingering w; bodyEnds := e;
     detached := detached w; statusWindow := statusWindow w;
     trace := trace w |}.

(** The same world with [n] creations of the detached [ensureDir] left
    over when the download ends. *)
Definition with_lingering (n : nat) (w : World) : World :=
  {| fs := fs w; denied := denied w; net := net w; random := random w;
     drawn := drawn w; windowFault := windowFault w;
     spawnThrows := spawnThrows w; openAfter := openAfter w;
     lingering := n; bodyEnds := bodyEnds w;
     detached := detached w; statusWindow := statusWindow w;
     trace := trace w |}.

(** A cache file that begins with a byte order mark. *)
Definition with_byte_order_mark (data : string) : string :=
  String (ascii_of_nat 239)
    (String (ascii_of_nat 187) (String (ascii_of_nat 191) data)).

(* ================================================================= *)
(** * The order of the Semantic Versioning document

    Precedence as item 11 of Semantic Versioning 2.0.0 words it: major,
    minor and patch are compared numerically; a version with a
    prerelease comes before the same version without; prerelease
    identifiers are compared from left to right, numeric ones
    numerically, the others in ASCII order, a numeric one before one
    that is not, and of two lists of which one begins the other the
    longer is the greater. *)






(** Between [w] and [w'] a successor process was started. *)
Definition spawned_since (w w' : World) : Prop :=
  exists evs command args dir,
    trace w' = evs ++ trace w /\ In (EvSpawn command args dir) evs.

(* ================================================================= *)
(** * Predicates on runs *)

(** [w'] comes after [w]: the server is the same, and the trace has
    grown by events that all satisfy [P]. *)
Definition frame (P : Event -> Prop) (w w' : World) : Prop :=
  net w' = net w /\
  exists evs, trace w' = evs ++ trace w /\ Forall P evs.

Definition keeps (P : Event -> Prop) {A} (m : M A) : Prop :=
  forall w, frame P w (snd (m w)).

(** [Q] holds of the outcome and the world that [m] leaves from [w]. *)
Definition spec {A} (w : World) (m : M A)
  (Q : Outcome A -> World -> Prop) : Prop :=
  Q (fst (m w)) (snd (m w)).

Definition any_event (e : Event) : Prop := True.

(** Everything but the start of the successor process. *)
Definition quiet (e : Event) : Prop :=
  match e with
  | EvSpawn _ _ _ => False
  | _ => True
  end.

(** [m] never leaves its promise pending. *)
Definition settles {A} (m : M A) : Prop :=
  forall w, fst (m w) <> Pending.


(** The run ended in [false] without starting a successor. *)
Definition fails_quietly (w0 : World) (o : Outcome bool) (w' : World) : Prop :=
  o = Ok false /\ frame quiet w0 w'.

(* ================================================================= *)
(** * What a computation leaves alone *)

(** [m] does not change what [f] reads off the world. *)
Definition preserves {X A} (f : World -> X) (m : M A) : Prop :=
  forall w, f (snd (m w)) = f w.

(** The variable [statusWindow], whether [cp.spawn] will throw, which
    entries the file system refuses to create, and how the body of the
    download will end. *)
Definition backdrop (w : World)
  : option Window * bool * (Path -> bool) * BodyEnd :=
  (statusWindow w, spawnThrows w, denied w, bodyEnds w).

(** The callback that [entry] hands to [fetchUpdater]. *)
Definition send_progress (accum total : Z) : M unit :=
  fun w =>
    match statusWindow w with
    | None => (Ok tt, w)
    | Some _ => emit (EvSend accum total) w
    end.

(** What became of the path [p] between [w] and [w']: nothing, or it is
    a directory that was not there and is one of [D], or it is a file
    and one of [F]. *)
Definition change (D F : Path -> Prop) (w w' : World) (p : Path) : Prop :=
  fs w' p = fs w p \/
  (D p /\ fs w p = None /\ fs w' p = Some Dir) \/
  (F p /\ exists c, fs w' p = Some (File c)).

(** [m] creates directories among [D] only and writes files among [F]
    only, and has nothing to do with a detached [ensureDir]. *)
Definition writes (D F : Path -> Prop) {A} (m : M A) : Prop :=
  forall w,
    detached (snd (m w)) = detached w /\
    forall p, change D F w (snd (m w)) p.

(** The same of a computation during which a detached [ensureDir] may
    be served: what that one still has to create is among [D] too. *)
Definition confined (D F : Path -> Prop) {A} (m : M A) : Prop :=
  forall w,
    Forall D (detached w) ->
    Forall D (detached (snd (m w))) /\
    forall p, change D F w (snd (m w)) p.

Definition no_path (p : Path) : Prop := False.

(** A step that leaves the disk and the detached work as they are. *)
Definition idle {A} (m : M A) : Prop :=
  forall w, fs (snd (m w)) = fs w /\ detached (snd (m w)) = detached w.

(** The directories and files the bootstrap works on: the prefixes of
    the temp directory and of [cacheDir/rolls], the downloaded updater
    and the roll files. *)
Definition bootstrap_dirs (info : Info) (p : Path) : Prop :=
  In p (ensureDir_directories (tempDir info)) \/
  In p (ensureDir_directories (path_join (cacheDir info) ["rolls"%string])).

Definition bootstrap_files (info : Info) (p : Path) : Prop :=
  p = updaterPath_of info \/ exists v, p = rollCache_of info v.

(** The arguments handed to the updater when there is no process to
    wait for. *)
Definition plain_args (info : Info) (latest : string) : list string :=
  [ "--base-url"; quoted (baseUrl info);
    "--version"; quoted latest;
    "--exec"; quoted (exec info);
    "--cwd"; quoted (cwd info);
    "--app-dir"; quoted (appDir info);
    "--force-temp" ]%string.

(* ================================================================= *)
(** * The D100 roll *)

Lemma double01_bounds (d : Double01) :
  0 <= mant d < 2 ^ 53 /\ 0 <= expo d <= 1074 /\ mant d < 2 ^ expo d.
Proof.
  destruct d as [m e ok]; simpl.
  repeat (apply andb_prop in ok; destruct ok as [ok ?]).
  repeat split; lia.
Qed.

(** Rounding to 53 bits moves a number below [100 * 2^53] by at most 64
    and never below zero. *)
Lemma round53_near (n : Z) :
  0 <= n < 100 * 2 ^ 53 -> 0 <= round53 n <= n + 64.
Proof.
  intros [Hn0 Hn]. unfold round53.
  destruct (Z.leb_spec (Z.log2 n + 1 - 53) 0) as [Hs | Hs]; [lia |].
  assert (Hpos : 0 < n).
  { destruct (Z.eq_dec n 0) as [-> | ]; [simpl in Hs; lia | lia]. }
  assert (Hlog : Z.log2 n < 60).
  { apply Z.log2_lt_pow2; [lia |].
    change (2 ^ 60) with (128 * 2 ^ 53). lia. }
  remember (Z.log2 n + 1 - 53) as s eqn:Es.
  assert (Hcases : s = 1 \/ s = 2 \/ s = 3 \/ s = 4 \/ s = 5 \/ s = 6 \/ s = 7)
    by lia.
  clear Es Hlog Hs.
  assert (Hstep : forall p h, 0 < p -> p = 2 * h -> h <= 64 ->
    0 <= (if (h <? n mod p) || ((n mod p =? h) && Z.odd (n / p))
          then n / p + 1 else n / p) * p <= n + 64).
  { intros p h Hp Hh Hh64.
    pose proof (Z.div_mod n p ltac:(lia)) as Hdm.
    pose proof (Z.mod_pos_bound n p Hp) as Hm.
    assert (0 <= n / p) by (apply Z.div_pos; lia).
    destruct ((h <? n mod p) || ((n mod p =? h) && Z.odd (n / p))) eqn:Hup.
    - assert (h <= n mod p).
      { apply orb_prop in Hup. destruct Hup as [Hup | Hup].
        - apply Z.ltb_lt in Hup. lia.
        - apply andb_prop in Hup. destruct Hup as [Hup _].
          apply Z.eqb_eq in Hup. lia. }
      nia.
    - nia. }
  destruct Hcases as [-> | [-> | [-> | [-> | [-> | [-> | ->]]]]]];
    cbn [Z.sub Z.add Z.opp Z.pos_sub Pos.pred_double Z.succ_double
         Z.pred_double Z.double]; simpl (2 ^ _).
  - apply (Hstep 2 1); lia.
  - apply (Hstep 4 2); lia.
  - apply (Hstep 8 4); lia.
  - apply (Hstep 16 8); lia.
  - apply (Hstep 32 16); lia.
  - apply (Hstep 64 32); lia.
  - apply (Hstep 128 64); lia.
Qed.

(** Every drawn roll is an integer between 1 and 100. *)
Lemma d100_range (d : Double01) : 1 <= d100 d <= 100.
Proof.
  destruct (double01_bounds d) as [[Hm0 Hm] [[He0 _] Hme]].
  unfold d100.
  assert (Hp : 0 < 2 ^ expo d) by (apply Z.pow_pos_nonneg; lia).
  assert (Hr : 0 <= round53 (mant d * 100) <= mant d * 100 + 64)
    by (apply round53_near; lia).
  assert (0 <= round53 (mant d * 100) / 2 ^ expo d)
    by (apply Z.div_pos; lia).
  assert (round53 (mant d * 100) / 2 ^ expo d < 100)
    by (apply Z.div_lt_upper_bound; lia).
  lia.
Qed.

(** A roll written to the cache reads back as itself. *)
Lemma parseInt_toString (r : Z) :
  1 <= r <= 100 -> parseInt (toString r) = Num r.
Proof.
  intros Hr.
  assert (Hall : forallb
            (fun k => match parseInt (toString (Z.of_nat k)) with
                      | Num z => z =? Z.of_nat k
                      | NaN => false
                      end) (seq 1 100) = true)
    by (vm_compute; reflexivity).
  rewrite forallb_forall in Hall.
  specialize (Hall (Z.to_nat r)).
  rewrite Z2Nat.id in Hall by lia.
  assert (Hin : In (Z.to_nat r) (seq 1 100)) by (apply in_seq; lia).
  specialize (Hall Hin).
  destruct (parseInt (toString r)) as [| z]; [discriminate |].
  apply Z.eqb_eq in Hall. now subst.
Qed.

(** The two ends of the range are reached. *)
Lemma d100_ends : d100 a_zero = 1 /\ d100 a_half = 51 /\ d100 almost_one = 100.
Proof. repeat split. Qed.

Lemma path_eqb_refl (p : Path) : path_eqb p p = true.
Proof.
  induction p as [| a p IH]; simpl; [reflexivity |].
  now rewrite String.eqb_refl, IH.
Qed.

(** A run whose outcome is known is that outcome with the world it
    leaves. *)
Lemma run_outcome {A} (m : M A) (w : World) (o : Outcome A) :
  fst (m w) = o -> m w = (o, snd (m w)).
Proof. intros <-. apply surjective_pairing. Qed.

(** Evaluates a run on a sample world. *)
Ltac evaluate :=
  first [ apply run_outcome; vm_compute; reflexivity
        | vm_compute; reflexivity ].

(** The comparison gives its answer, or throws, and does nothing
    else. *)
Lemma js_le_cases roll chance :
  (exists d, js_le roll chance = ret d) \/
  (exists e, js_le roll chance = throw e).
Proof. unfold js_le. destruct (unconvertible chance); eauto. Qed.

Lemma template_cases v :
  (exists s, template v = ret s) \/ (exists e, template v = throw e).
Proof. unfold template. destruct (unconvertible v); eauto. Qed.

(* ================================================================= *)
(** * The order on versions *)

Lemma or_else_opp (c1 c2 : comparison) :
  CompOpp (or_else c1 c2) = or_else (CompOpp c1) (CompOpp c2).
Proof. destruct c1; reflexivity. Qed.

Lemma compareIdentifiers_antisym (a b : Identifier) :
  compareIdentifiers b a = CompOpp (compareIdentifiers a b).
Proof.
  destruct a, b; simpl; auto using Z.compare_antisym, String.compare_antisym.
Qed.

Lemma identifier_eqb_sym (a b : Identifier) :
  identifier_eqb b a = identifier_eqb a b.
Proof.
  destruct a, b; simpl; auto using Z.eqb_sym, String.eqb_sym.
Qed.

Lemma compareIdentifierLists_antisym (a b : list Identifier) :
  compareIdentifierLists b a = CompOpp (compareIdentifierLists a b).
Proof.
  revert b. induction a as [| x a IH]; intros [| y b]; simpl; auto.
  rewrite identifier_eqb_sym.
  destruct (identifier_eqb x y); [apply IH | apply compareIdentifiers_antisym].
Qed.

Lemma comparePre_antisym (a b : SemVer) :
  comparePre b a = CompOpp (comparePre a b).
Proof.
  unfold comparePre.
  destruct (prerelease a) as [| x pa] eqn:Ea,
           (prerelease b) as [| y pb] eqn:Eb; auto.
  apply compareIdentifierLists_antisym.
Qed.

Lemma compareMain_antisym (a b : SemVer) :
  compareMain b a = CompOpp (compareMain a b).
Proof.
  unfold compareMain.
  rewrite !or_else_opp, <- !Z.compare_antisym. reflexivity.
Qed.

Lemma semver_compare_antisym (a b : SemVer) :
  semver_compare b a = CompOpp (semver_compare a b).
Proof.
  unfold semver_compare.
  rewrite or_else_opp, <- compareMain_antisym, <- comparePre_antisym.
  reflexivity.
Qed.

(** The remote version is greater exactly when the current one compares
    as less. *)
Lemma semver_greater_iff_lt (current remote : SemVer) :
  semver_greater remote current <-> semver_compare current remote = Lt.
Proof.
  unfold semver_greater. rewrite (semver_compare_antisym current remote).
  destruct (semver_compare current remote); simpl; split; congruence.
Qed.

(** ** The package and the document

    Where every numeric prerelease identifier is a safe integer, the
    package compares two versions as the document says. *)

Lemma round53_small (n : Z) : 0 <= n < 2 ^ 53 -> round53 n = n.
Proof.
  intros [H0 H]. unfold round53.
  destruct (Z.leb_spec (Z.log2 n + 1 - 53) 0) as [Hs | Hs]; [reflexivity |].
  exfalso.
  destruct (Z.eq_dec n 0) as [-> | Hn]; [simpl in Hs; lia |].
  assert (Z.log2 n < 53) by (apply Z.log2_lt_pow2; lia).
  lia.
Qed.

Lemma to_double_safe (n : Z) : 0 <= n <= MAX_SAFE_INTEGER -> to_double n = n.
Proof.
  unfold MAX_SAFE_INTEGER. intros H. unfold to_double.
  rewrite round53_small by (change (2 ^ 53) with 9007199254740992; lia).
  apply Z.min_l.
  assert (2 ^ 53 <= 2 ^ 1024) by (apply Z.pow_le_mono_r; lia).
  change (2 ^ 53) with 9007199254740992 in *. lia.
Qed.











(** The precedence chain of the Semantic Versioning document. *)
Lemma semver_precedence_chain :
  let lt a b :=
    match semver_parse a, semver_parse b with
    | Some x, Some y =>
        match semver_compare x y with Lt => true | _ => false end
    | _, _ => false
    end in
  forallb (fun p => lt (fst p) (snd p))
    [ ("1.0.0-alpha", "1.0.0-alpha.1");
      ("1.0.0-alpha.1", "1.0.0-alpha.beta");
      ("1.0.0-alpha.beta", "1.0.0-beta");
      ("1.0.0-beta", "1.0.0-beta.2");
      ("1.0.0-beta.2", "1.0.0-beta.11");
      ("1.0.0-beta.11", "1.0.0-rc.1");
      ("1.0.0-rc.1", "1.0.0");
      ("1.0.0", "1.0.1"); ("1.0.9", "1.0.10"); ("1.9.0", "1.10.0");
      ("9.0.0", "10.0.0") ]%string = true.
Proof. vm_compute. reflexivity. Qed.

(* ================================================================= *)
(** * Reasoning about runs *)

Lemma frame_refl P w : frame P w w.
Proof. split; [reflexivity | exists []; split; [reflexivity | constructor]]. Qed.

Lemma frame_trans P w1 w2 w3 :
  frame P w1 w2 -> frame P w2 w3 -> frame P w1 w3.
Proof.
  intros [N1 [e1 [T1 F1]]] [N2 [e2 [T2 F2]]]. split; [congruence |].
  exists (e2 ++ e1). split.
  - rewrite T2, T1, app_assoc. reflexivity.
  - apply Forall_app; auto.
Qed.

Lemma frame_weaken (P P' : Event -> Prop) w w' :
  (forall e, P e -> P' e) -> frame P w w' -> frame P' w w'.
Proof.
  intros HP [N [evs [T F]]]. split; [exact N |].
  exists evs. split; [exact T |]. eapply Forall_impl; eauto.
Qed.

Lemma frame_one (P : Event -> Prop) w ev :
  P ev -> frame P w (with_trace (ev :: trace w) w).
Proof.
  intros HP. split; [reflexivity |].
  exists [ev]. split; [reflexivity | repeat constructor; exact HP].
Qed.

Lemma keeps_ret P {A} (a : A) : keeps P (ret a).
Proof. intros w. apply frame_refl. Qed.

Lemma keeps_throw P {A} e : keeps P (@throw A e).
Proof. intros w. apply frame_refl. Qed.

Lemma keeps_pending P {A} : keeps P (@pending A).
Proof. intros w. apply frame_refl. Qed.

Lemma keeps_emit (P : Event -> Prop) ev : P ev -> keeps P (emit ev).
Proof. intros HP w. simpl. now apply frame_one. Qed.

Lemma keeps_bind P {A B} (m : M A) (k : A -> M B) :
  keeps P m -> (forall a, keeps P (k a)) -> keeps P (bind m k).
Proof.
  intros Km Kk w. unfold bind.
  specialize (Km w). destruct (m w) as [[a | e |] w1]; simpl in *; auto.
  eapply frame_trans; [exact Km | apply Kk].
Qed.

Lemma keeps_catch P {A} (m : M A) (h : Exn -> M A) :
  keeps P m -> (forall e, keeps P (h e)) -> keeps P (catch m h).
Proof.
  intros Km Kh w. unfold catch.
  specialize (Km w). destruct (m w) as [[a | e |] w1]; simpl in *; auto.
  eapply frame_trans; [exact Km | apply Kh].
Qed.

Lemma keeps_attempt P {A} (m : M A) : keeps P m -> keeps P (attempt m).
Proof.
  intros Km w. unfold attempt.
  specialize (Km w). destruct (m w) as [[a | e |] w1]; simpl in *; auto.
Qed.

Lemma spec_bind {A B} w (m : M A) (k : A -> M B) Q :
  spec w m (fun o w1 =>
    match o with
    | Ok a => spec w1 (k a) Q
    | Throw e => Q (Throw e) w1
    | Pending => Q Pending w1
    end) ->
  spec w (bind m k) Q.
Proof.
  unfold spec, bind. destruct (m w) as [[a | e |] w1]; simpl; auto.
Qed.

Lemma spec_catch {A} w (m : M A) (h : Exn -> M A) Q :
  spec w m (fun o w1 =>
    match o with
    | Throw e => spec w1 (h e) Q
    | _ => Q o w1
    end) ->
  spec w (catch m h) Q.
Proof.
  unfold spec, catch. destruct (m w) as [[a | e |] w1]; simpl; auto.
Qed.

Lemma keeps_js_le P roll chance : keeps P (js_le roll chance).
Proof.
  destruct (js_le_cases roll chance) as [[d ->] | [e ->]];
    [apply keeps_ret | apply keeps_throw].
Qed.

Lemma keeps_template P v : keeps P (template v).
Proof.
  destruct (template_cases v) as [[d ->] | [e ->]];
    [apply keeps_ret | apply keeps_throw].
Qed.

Create HintDb keeps.

#[export] Hint Resolve keeps_ret keeps_throw keeps_pending : keeps.
#[export] Hint Extern 1 (keeps _ (emit _)) =>
  apply keeps_emit; exact I : keeps.
#[export] Hint Extern 1 (keeps _ (console_log _)) =>
  apply keeps_emit; exact I : keeps.
#[export] Hint Extern 2 (keeps _ (bind _ _)) =>
  apply keeps_bind; [| intro] : keeps.
#[export] Hint Extern 2 (keeps _ (catch _ _)) =>
  apply keeps_catch; [| intro] : keeps.
#[export] Hint Extern 2 (keeps _ (attempt _)) => apply keeps_attempt : keeps.
#[export] Hint Extern 3 (keeps _ (if ?b then _ else _)) => destruct b : keeps.
#[export] Hint Extern 3 (keeps _ (match ?x with _ => _ end)) =>
  destruct x : keeps.

Section Quiet.
Variable P : Event -> Prop.
Hypothesis quiet_P : forall e, quiet e -> P e.

Lemma P_quiet e : quiet e -> P e.
Proof. exact (quiet_P e). Qed.

Ltac quiet_step :=
  first
    [ apply frame_refl
    | apply frame_one; apply P_quiet; exact I
    | split; [reflexivity | exists []; split; [reflexivity | constructor]]
    | split; [reflexivity
             | eexists [_]; split;
               [reflexivity | repeat constructor; apply P_quiet; exact I]] ].

Lemma keeps_mkdir directory : keeps P (mkdir directory).
Proof.
  intros w. unfold mkdir.
  destruct (fs w directory); simpl; [quiet_step |].
  destruct (creation_error w directory); simpl; quiet_step.
Qed.

Lemma keeps_readFile file : keeps P (readFile file).
Proof.
  intros w. unfold readFile.
  destruct (fs w file) as [[data |] |]; simpl; quiet_step.
Qed.

Lemma keeps_writeFile file data : keeps P (writeFile file data).
Proof.
  intros w. unfold writeFile.
  destruct (write_error w file); simpl; quiet_step.
Qed.

Lemma keeps_open_stream file : keeps P (open_stream file).
Proof.
  intros w. unfold open_stream.
  destruct (write_error w file); simpl; quiet_step.
Qed.

Lemma keeps_stream_write file chunk : keeps P (stream_write file chunk).
Proof. intros w. unfold stream_write. simpl. quiet_step. Qed.

Lemma keeps_Math_random : keeps P Math_random.
Proof. intros w. unfold Math_random. simpl. quiet_step. Qed.


Lemma keeps_prequest reqInfo : keeps P (prequest reqInfo).
Proof.
  unfold prequest. apply keeps_bind.
  - apply keeps_emit, P_quiet. exact I.
  - intros _ w. destruct (net w reqInfo); simpl; quiet_step.
Qed.

Lemma keeps_get_net reqInfo : keeps P (get_net reqInfo).
Proof. intros w. apply frame_refl. Qed.

Lemma keeps_JSON_parse r : keeps P (JSON_parse r).
Proof. unfold JSON_parse. destruct (parsed r); auto with keeps. Qed.

Lemma keeps_get_prop v name : keeps P (get_prop v name).
Proof. unfold get_prop. destruct (property v name); auto with keeps. Qed.

Lemma keeps_semver_cmp a b : keeps P (semver_cmp a b).
Proof.
  unfold semver_cmp.
  destruct (semver_of_value a), (semver_of_value b); auto with keeps.
Qed.

Lemma keeps_semver_eq a b : keeps P (semver_eq a b).
Proof.
  unfold semver_eq. apply keeps_bind; auto using keeps_semver_cmp with keeps.
Qed.

Lemma keeps_semver_gt a b : keeps P (semver_gt a b).
Proof.
  unfold semver_gt. apply keeps_bind; auto using keeps_semver_cmp with keeps.
Qed.

Lemma keeps_new_BrowserWindow : keeps P new_BrowserWindow.
Proof.
  intros w. unfold new_BrowserWindow.
  destruct (windowFault w); simpl; quiet_step.
Qed.

Lemma keeps_on_ready_to_show : keeps P statusWindow_on_ready_to_show.
Proof.
  intros w. unfold statusWindow_on_ready_to_show.
  destruct (windowFault w); simpl; quiet_step.
Qed.

Lemma keeps_loadURL : keeps P statusWindow_loadURL.
Proof.
  intros w. unfold statusWindow_loadURL.
  destruct (windowFault w); simpl; quiet_step.
Qed.

Lemma keeps_close_statusWindow : keeps P close_statusWindow.
Proof.
  intros w. unfold close_statusWindow.
  destruct (statusWindow w); simpl; quiet_step.
Qed.

Lemma keeps_statusWindow_null : keeps P statusWindow_null.
Proof. intros w. simpl. quiet_step. Qed.

Lemma keeps_mkdirMaybe directory : keeps P (mkdirMaybe directory).
Proof.
  unfold mkdirMaybe. apply keeps_catch; [apply keeps_mkdir |].
  intros [[] ? | | | | | |]; auto with keeps.
Qed.

Lemma keeps_mkdirMaybe_each dirs : keeps P (mkdirMaybe_each dirs).
Proof.
  induction dirs as [| d dirs IH]; simpl; [apply keeps_ret |].
  apply keeps_bind; [apply keeps_mkdirMaybe | intros _; exact IH].
Qed.

Lemma keeps_ensureDir dirPath : keeps P (ensureDir dirPath).
Proof. apply keeps_mkdirMaybe_each. Qed.

Lemma keeps_ensureDir_detached dirPath : keeps P (ensureDir_detached dirPath).
Proof. intros w. simpl. quiet_step. Qed.

Lemma keeps_serve_detached : keeps P serve_detached.
Proof.
  intros w. unfold serve_detached.
  destruct (detached w) as [| directory rest]; [apply frame_refl |].
  pose proof (keeps_mkdirMaybe directory (with_detached rest w)) as K.
  destruct (mkdirMaybe directory (with_detached rest w)) as [[[] | e |] w1];
    simpl in *; auto.
  eapply frame_trans; [exact K | quiet_step].
Qed.

Lemma keeps_serve_detached_n n : keeps P (serve_detached_n n).
Proof.
  induction n as [| n IH]; simpl; [apply keeps_ret |].
  apply keeps_bind; [apply keeps_serve_detached | intros _; exact IH].
Qed.

Lemma keeps_outStream_opens file : keeps P (outStream_opens file).
Proof.
  intros w. unfold outStream_opens.
  apply keeps_bind; [apply keeps_serve_detached_n | intros _].
  apply keeps_bind; [apply keeps_open_stream | intros err].
  apply keeps_bind; [| auto with keeps].
  intros w'. apply keeps_serve_detached_n.
Qed.

Lemma keeps_getPreviousRoll cacheFile v : keeps P (getPreviousRoll cacheFile v).
Proof.
  unfold getPreviousRoll.
  apply keeps_bind; [apply keeps_attempt, keeps_readFile |].
  intros [err | data]; [| apply keeps_ret].
  apply keeps_bind; [apply keeps_emit, P_quiet; exact I | auto with keeps].
Qed.

Lemma keeps_checkChance info v : keeps P (checkChance info v).
Proof.
  unfold checkChance.
  apply keeps_bind; [apply keeps_prequest | intros response].
  destruct (negb (statusCode response =? 200)).
  - apply keeps_bind; [apply keeps_emit, P_quiet; exact I | auto with keeps].
  - apply keeps_bind; [apply keeps_JSON_parse | intros body].
    apply keeps_bind; [apply keeps_get_prop | intros chance].
    apply keeps_bind; [apply keeps_template | intros _].
    apply keeps_bind; [apply keeps_emit, P_quiet; exact I | intros _].
    apply keeps_bind; [apply keeps_getPreviousRoll | intros roll].
    apply keeps_bind.
    + destruct (roll =? 0); [| apply keeps_ret].
      apply keeps_bind; [apply keeps_Math_random | intros r].
      apply keeps_bind; [apply keeps_ensureDir | intros _].
      apply keeps_bind; [apply keeps_writeFile | auto with keeps].
    + intros roll'.
      apply keeps_bind; [apply keeps_emit, P_quiet; exact I | intros _].
      apply keeps_bind; [apply keeps_js_le | intros []; apply keeps_ret].
Qed.

Lemma keeps_pipe file body : keeps P (pipe file body).
Proof.
  induction body as [| chunk body IH]; simpl; [apply keeps_ret |].
  apply keeps_bind; [apply keeps_stream_write | intros _; exact IH].
Qed.

Lemma keeps_on_data listener : keeps P listener -> keeps P (on_data listener).
Proof.
  intros K w. unfold on_data. specialize (K w).
  destruct (listener w) as [[[] | e |] w1]; simpl in *; auto.
  eapply frame_trans; [exact K | apply frame_one, P_quiet; exact I].
Qed.

Lemma keeps_receive file contentLength progress accum body :
  (forall a t, keeps P (progress a t)) ->
  keeps P (receive file contentLength progress accum body).
Proof.
  intros Kp. revert accum.
  induction body as [| chunk body IH]; intros accum; simpl;
    [apply keeps_ret |].
  apply keeps_bind.
  - destruct contentLength; [apply keeps_on_data, Kp | apply keeps_ret].
  - intros piped. apply keeps_bind; [| intros _; apply IH].
    destruct piped; [apply keeps_stream_write | apply keeps_ret].
Qed.

Lemma keeps_fetchUpdater info progress :
  (forall a t, keeps P (progress a t)) ->
  keeps P (fetchUpdater info progress).
Proof.
  intros Kp. unfold fetchUpdater.
  apply keeps_bind; [apply keeps_emit, P_quiet; exact I | intros _].
  apply keeps_bind; [apply keeps_outStream_opens | intros opened].
  destruct opened as [c |]; [apply keeps_throw |].
  apply keeps_bind; [apply keeps_get_net | intros [| response]].
  - apply keeps_bind; [apply keeps_emit, P_quiet; exact I | intros _].
    apply keeps_pending.
  - destruct (negb (statusCode response =? 200)).
    + apply keeps_bind; [apply keeps_pipe | intros _; apply keeps_throw].
    + apply keeps_bind; [apply keeps_receive, Kp | intros _].
      apply keeps_bind; [intros w; apply frame_refl | intros ended].
      destruct ended; [apply keeps_ret | apply keeps_pending].
Qed.

Lemma keeps_getVersion info : keeps P (getVersion info).
Proof.
  unfold getVersion.
  apply keeps_bind; [apply keeps_prequest | intros response].
  destruct (negb (statusCode response =? 200)).
  - apply keeps_bind; [apply keeps_emit, P_quiet; exact I | auto with keeps].
  - apply keeps_get_prop.
Qed.

Lemma keeps_call_method arr name arg : keeps P (call_method arr name arg).
Proof.
  unfold call_method. destruct (String.eqb name "push"); auto with keeps.
Qed.

Lemma keeps_push_pids pids updaterArgs : keeps P (push_pids pids updaterArgs).
Proof.
  revert updaterArgs.
  induction pids as [| pid pids IH]; intros updaterArgs; simpl;
    [apply keeps_ret |].
  apply keeps_bind; [apply keeps_call_method | intros a1].
  apply keeps_bind; [apply keeps_call_method | intros a2; apply IH].
Qed.

Lemma keeps_progress accum total :
  keeps P (fun w =>
             match statusWindow w with
             | None => (Ok tt, w)
             | Some _ => emit (EvSend accum total) w
             end).
Proof. intros w. destruct (statusWindow w); simpl; quiet_step. Qed.

Lemma keeps_open_window :
  keeps P
    (catch (new_BrowserWindow ;;
            statusWindow_on_ready_to_show ;;
            statusWindow_loadURL)
       (fun error => close_statusWindow ;; statusWindow_null)).
Proof.
  apply keeps_catch.
  - apply keeps_bind; [apply keeps_new_BrowserWindow | intros _].
    apply keeps_bind; [apply keeps_on_ready_to_show | intros _].
    apply keeps_loadURL.
  - intros e. apply keeps_bind; [apply keeps_close_statusWindow | intros _].
    apply keeps_statusWindow_null.
Qed.

End Quiet.

Lemma keeps_spawn command args dir : keeps any_event (spawn command args dir).
Proof.
  intros w. unfold spawn. destruct (spawnThrows w); simpl.
  - apply frame_refl.
  - apply frame_one. exact I.
Qed.

(* ================================================================= *)
(** * The rollout gate *)

(** [getPreviousRoll] always resolves, with what the cache holds, and
    leaves everything but the trace as it was. *)
Lemma getPreviousRoll_run cacheFile v w :
  exists t,
    getPreviousRoll cacheFile v w
    = (Ok (stored_roll w cacheFile), with_trace (t ++ trace w) w).
Proof.
  unfold getPreviousRoll, stored_roll, bind, attempt, readFile.
  destruct (fs w cacheFile) as [[data |] |]; simpl.
  - exists [EvReadFile cacheFile]. reflexivity.
  - exists [EvLog LogRollCacheNotFound; EvReadFile cacheFile]. reflexivity.
  - exists [EvLog LogRollCacheNotFound; EvReadFile cacheFile]. reflexivity.
Qed.

Lemma ret_eq {A} (a b : A) : ret a = ret b -> a = b.
Proof.
  intros E. apply (f_equal (fun m => fst (m (a_world a_disk (staged 0))))) in E.
  now inversion E.
Qed.

(** What a gate that returns has done, when the chance file is there. *)
Lemma checkChance_returns info v w r b w' :
  net w (chance_request info v) = Responds r ->
  statusCode r = 200 ->
  checkChance info v w = (Ok b, w') ->
  exists body chance roll,
    parsed r = Some body /\
    property body "chance" = Some chance /\
    last_event w' = Some (EvLog (LogRolled roll)) /\
    js_le roll chance = ret b /\
    ((stored_roll w (rollCache_of info v) <> 0 /\
      roll = stored_roll w (rollCache_of info v) /\
      fs w' = fs w)
     \/
     (stored_roll w (rollCache_of info v) = 0 /\
      roll = d100 (random w (drawn w)) /\
      fs w' (rollCache_of info v) = Some (File (toString roll)))).
Proof.
  intros Hnet Hstatus Hrun.
  unfold checkChance in Hrun. fold (chance_request info v) in Hrun.
  fold (rollCache_of info v) in Hrun.
  unfold bind at 1 in Hrun. unfold prequest, bind at 1, emit in Hrun.
  simpl in Hrun. rewrite Hnet in Hrun. rewrite Hstatus in Hrun.
  simpl in Hrun.
  unfold bind at 1 in Hrun. unfold JSON_parse in Hrun.
  destruct (parsed r) as [body |] eqn:Hbody; [| discriminate].
  unfold ret at 1 in Hrun.
  unfold bind at 1 in Hrun.
  set (w1 := with_trace (EvRequest (chance_request info v) :: trace w) w)
    in Hrun.
  unfold get_prop at 1 in Hrun.
  destruct (property body "chance") as [chance |] eqn:Hprop; [| discriminate].
  unfold ret at 1 in Hrun.
  exists body, chance.
  unfold bind at 1 in Hrun.
  destruct (template_cases chance) as [[text Ht] | [e He]];
    [rewrite Ht in Hrun | rewrite He in Hrun; discriminate].
  unfold ret at 1 in Hrun.
  unfold bind at 1, console_log, emit in Hrun.
  set (w2 := with_trace (EvLog (LogChance chance) :: trace w1) w1) in Hrun.
  unfold bind at 1 in Hrun.
  destruct (getPreviousRoll_run (rollCache_of info v) v w2) as [t Hprev].
  rewrite Hprev in Hrun.
  assert (Hstored : stored_roll w2 (rollCache_of info v)
                    = stored_roll w (rollCache_of info v)) by reflexivity.
  rewrite Hstored in Hrun.
  set (w3 := with_trace (t ++ trace w2) w2) in Hrun.
  unfold bind at 1 in Hrun.
  destruct (stored_roll w (rollCache_of info v) =? 0) eqn:Hzero.
  - (* a fresh roll *)
    apply Z.eqb_eq in Hzero.
    unfold bind at 1 in Hrun. unfold Math_random at 1 in Hrun.
    change (random w3 (drawn w3)) with (random w (drawn w)) in Hrun.
    set (roll := d100 (random w (drawn w))) in *.
    set (w4 := with_drawn (S (drawn w3)) w3) in Hrun.
    unfold bind at 1 in Hrun. unfold ensureDir in Hrun.
    destruct (mkdirMaybe_each
                (ensureDir_directories (path_dirname (rollCache_of info v))) w4)
      as [[[] | e |] w5] eqn:Hdirs; try discriminate.
    unfold bind at 1 in Hrun. unfold writeFile at 1 in Hrun.
    destruct (write_error w5 (rollCache_of info v)) as [c |] eqn:Hwr;
      simpl in Hrun; [discriminate |].
    unfold bind at 1, emit in Hrun. simpl in Hrun.
    exists roll.
    unfold bind at 1 in Hrun.
    destruct (js_le_cases roll chance) as [[d Hd] | [e He]];
      [rewrite Hd in Hrun | rewrite He in Hrun; discriminate].
    unfold ret at 1 in Hrun.
    destruct d; inversion Hrun; subst b w'; clear Hrun;
      (split; [reflexivity |]; split; [exact Hprop |];
       split; [reflexivity |]; split; [exact Hd |];
       right; split; [exact Hzero |]; split; [reflexivity |];
       simpl; unfold fs_set; rewrite path_eqb_refl; reflexivity).
  - (* the cached roll *)
    apply Z.eqb_neq in Hzero.
    unfold ret at 1 in Hrun.
    unfold bind at 1, console_log, emit in Hrun. simpl in Hrun.
    exists (stored_roll w (rollCache_of info v)).
    unfold bind at 1 in Hrun.
    destruct (js_le_cases (stored_roll w (rollCache_of info v)) chance)
      as [[d Hd] | [e He]];
      [rewrite Hd in Hrun | rewrite He in Hrun; discriminate].
    unfold ret at 1 in Hrun.
    destruct d; inversion Hrun; subst b w'; clear Hrun;
      (split; [reflexivity |]; split; [exact Hprop |];
       split; [reflexivity |]; split; [exact Hd |];
       left; split; [exact Hzero |]; split; reflexivity).
Qed.

(** C7.  When the chance endpoint answers with a status other than 200,
    the rollout gate returns true whatever the cache or the next random
    number holds: the run consists of the request and one log line, and
    nothing of the world but the trace changes, so the roll cache is
    neither read nor written. *)
Theorem checkChance_without_chance_file info v w r :
  net w (chance_request info v) = Responds r ->
  statusCode r <> 200 ->
  checkChance info v w
  = (Ok true,
     with_trace (EvLog LogNoChanceFile
                 :: EvRequest (chance_request info v) :: trace w) w).
Proof.
  intros Hnet Hstatus.
  unfold checkChance. fold (chance_request info v).
  unfold bind at 1. unfold prequest, bind at 1, emit. simpl.
  rewrite Hnet.
  destruct (statusCode r =? 200) eqn:E; [apply Z.eqb_eq in E; tauto |].
  reflexivity.
Qed.

Lemma stored_roll_ext w w' p : fs w' = fs w -> stored_roll w' p = stored_roll w p.
Proof. unfold stored_roll. intros ->. reflexivity. Qed.

Lemma last_event_eq w e1 e2 :
  last_event w = Some e1 -> last_event w = Some e2 -> e1 = e2.
Proof. congruence. Qed.

(** C5.  With the chance file there, an integer [chance] in it and a
    roll determined, the gate returns true exactly when
    [roll <= chance], the tie included: 50 against 50 passes, 51 against
    50 does not, and every roll from 1 to 100 passes against 100. *)
Theorem checkChance_decision info v w r fields c b w' roll :
  net w (chance_request info v) = Responds r ->
  statusCode r = 200 ->
  parsed r = Some (JObj fields) ->
  lookup "chance" fields = JNum c ->
  checkChance info v w = (Ok b, w') ->
  last_event w' = Some (EvLog (LogRolled roll)) ->
  (b = true <-> roll <= c) /\
  (c = 50 -> roll = 50 -> b = true) /\
  (c = 50 -> roll = 51 -> b = false) /\
  (c = 100 -> 1 <= roll <= 100 -> b = true).
Proof.
  intros Hnet Hstatus Hbody Hchance Hrun Hlast.
  destruct (checkChance_returns _ _ _ _ _ _ Hnet Hstatus Hrun)
    as (body & chance & roll' & Hb & Hp & Hl & Hdec & _).
  rewrite Hbody in Hb. inversion Hb; subst body; clear Hb.
  simpl in Hp. rewrite Hchance in Hp. inversion Hp; subst chance; clear Hp.
  pose proof (last_event_eq _ _ _ Hl Hlast) as E.
  inversion E; subst roll'; clear E.
  assert (Hiff : b = true <-> roll <= c).
  { simpl in Hdec. apply ret_eq in Hdec. subst b. apply Z.leb_le. }
  split; [exact Hiff |].
  split; [intros -> ->; apply Hiff; lia |].
  split.
  - intros -> ->. destruct b; [| reflexivity].
    assert (51 <= 50) by (apply Hiff; reflexivity). lia.
  - intros -> Hr. apply Hiff. lia.
Qed.

Lemma checkChance_decision_witness :
  (true = true <-> 50 <= 50) /\
  (50 = 50 -> 50 = 50 -> true = true) /\
  (50 = 50 -> 50 = 51 -> true = false) /\
  (50 = 100 -> 1 <= 50 <= 100 -> true = true).
Proof.
  apply (checkChance_decision an_info "1.2.0"
           (a_world (cached_disk "50") (staged 50))
           (chance_response 50) (FCons "chance" (JNum 50) FNil) 50 true
           (snd (checkChance an_info "1.2.0"
                   (a_world (cached_disk "50") (staged 50))))
           50);
    evaluate.
Defined.

(** C3.  Two runs of the gate for the same version and cache directory
    use the same roll, however the server, its chance value and the
    random numbers differ between them, as long as the second run finds
    the disk as the first one left it. *)
Theorem checkChance_roll_is_kept info v w1 r1 b1 w1' roll1 w2 r2 b2 w2' roll2 :
  net w1 (chance_request info v) = Responds r1 ->
  statusCode r1 = 200 ->
  checkChance info v w1 = (Ok b1, w1') ->
  last_event w1' = Some (EvLog (LogRolled roll1)) ->
  fs w2 = fs w1' ->
  net w2 (chance_request info v) = Responds r2 ->
  statusCode r2 = 200 ->
  checkChance info v w2 = (Ok b2, w2') ->
  last_event w2' = Some (EvLog (LogRolled roll2)) ->
  roll1 = roll2.
Proof.
  intros Hnet1 Hst1 Hrun1 Hlast1 Hdisk Hnet2 Hst2 Hrun2 Hlast2.
  destruct (checkChance_returns _ _ _ _ _ _ Hnet1 Hst1 Hrun1)
    as (_ & _ & r1' & _ & _ & Hl1 & _ & Hcases1).
  destruct (checkChance_returns _ _ _ _ _ _ Hnet2 Hst2 Hrun2)
    as (_ & _ & r2' & _ & _ & Hl2 & _ & Hcases2).
  pose proof (last_event_eq _ _ _ Hl1 Hlast1) as E1.
  pose proof (last_event_eq _ _ _ Hl2 Hlast2) as E2.
  inversion E1; subst r1'; clear E1. inversion E2; subst r2'; clear E2.
  (* what the second run finds in the cache is the roll of the first *)
  assert (Hstored : stored_roll w2 (rollCache_of info v) = roll1
                    /\ roll1 <> 0).
  { destruct Hcases1 as [(Hnz & Hr & Hfs) | (Hz & Hr & Hfile)].
    - split; [| congruence].
      rewrite Hr. apply stored_roll_ext. congruence.
    - assert (Hrange : 1 <= roll1 <= 100)
        by (rewrite Hr; apply d100_range).
      split; [| lia].
      unfold stored_roll. rewrite Hdisk, Hfile.
      rewrite parseInt_toString by exact Hrange. reflexivity. }
  destruct Hstored as [Hstored Hnz].
  destruct Hcases2 as [(_ & Hr & _) | (Hz & _)]; congruence.
Qed.

Lemma checkChance_roll_is_kept_witness : 51 = 51.
Proof.
  apply (checkChance_roll_is_kept an_info "1.2.0"
           (a_world a_disk (staged 30)) (chance_response 30) false
           (snd (checkChance an_info "1.2.0" (a_world a_disk (staged 30))))
           51
           (with_net (staged 90)
              (snd (checkChance an_info "1.2.0" (a_world a_disk (staged 30)))))
           (chance_response 90) true
           (snd (checkChance an_info "1.2.0"
                   (with_net (staged 90)
                      (snd (checkChance an_info "1.2.0"
                              (a_world a_disk (staged 30)))))))
           51);
    evaluate.
Defined.

Lemma checkChance_without_chance_file_witness :
  checkChance an_info "1.2.0"
    (a_world (cached_disk "45")
       (server (version_descriptor "1.2.0") (responds 404 [] None) an_updater))
  = (Ok true,
     with_trace [EvLog LogNoChanceFile;
                 EvRequest (chance_request an_info "1.2.0")]
       (a_world (cached_disk "45")
          (server (version_descriptor "1.2.0") (responds 404 [] None)
             an_updater))).
Proof.
  refine (checkChance_without_chance_file an_info "1.2.0"
            (a_world (cached_disk "45")
               (server (version_descriptor "1.2.0") (responds 404 [] None)
                  an_updater))
            {| statusCode := 404; content_length := None; chunks := [];
               parsed := None |} _ _).
  - reflexivity.
  - discriminate.
Defined.

(* ================================================================= *)
(** * Promises that settle *)

Lemma settles_ret {A} (a : A) : settles (ret a).
Proof. intros w. discriminate. Qed.

Lemma settles_throw {A} e : settles (@throw A e).
Proof. intros w. discriminate. Qed.

Lemma settles_emit ev : settles (emit ev).
Proof. intros w. discriminate. Qed.

Lemma settles_bind {A B} (m : M A) (k : A -> M B) :
  settles m -> (forall a, settles (k a)) -> settles (bind m k).
Proof.
  intros Sm Sk w. unfold bind. specialize (Sm w).
  destruct (m w) as [[a | e |] w1]; simpl in *;
    [apply Sk | discriminate | congruence].
Qed.

Lemma settles_catch {A} (m : M A) (h : Exn -> M A) :
  settles m -> (forall e, settles (h e)) -> settles (catch m h).
Proof.
  intros Sm Sh w. unfold catch. specialize (Sm w).
  destruct (m w) as [[a | e |] w1]; simpl in *;
    [discriminate | apply Sh | congruence].
Qed.

Lemma settles_attempt {A} (m : M A) : settles m -> settles (attempt m).
Proof.
  intros Sm w. unfold attempt. specialize (Sm w).
  destruct (m w) as [[a | e |] w1]; simpl in *;
    [discriminate | discriminate | congruence].
Qed.

(** A primitive settles: unfold it and look at every case. *)
Ltac settles_by_cases :=
  intros w; cbv beta zeta delta
    [mkdir readFile writeFile open_stream stream_write Math_random
     get_net new_BrowserWindow statusWindow_on_ready_to_show
     statusWindow_loadURL close_statusWindow statusWindow_null spawn
     ensureDir_detached emit];
  repeat match goal with
         | |- context [match ?x with _ => _ end] => destruct x
         | |- context [if ?x then _ else _] => destruct x
         end;
  simpl; discriminate.

Lemma settles_mkdir directory : settles (mkdir directory).
Proof. settles_by_cases. Qed.

Lemma settles_readFile file : settles (readFile file).
Proof. settles_by_cases. Qed.

Lemma settles_writeFile file data : settles (writeFile file data).
Proof. settles_by_cases. Qed.

Lemma settles_Math_random : settles Math_random.
Proof. settles_by_cases. Qed.

Lemma settles_new_BrowserWindow : settles new_BrowserWindow.
Proof. settles_by_cases. Qed.

Lemma settles_on_ready_to_show : settles statusWindow_on_ready_to_show.
Proof. settles_by_cases. Qed.

Lemma settles_loadURL : settles statusWindow_loadURL.
Proof. settles_by_cases. Qed.

Lemma settles_close_statusWindow : settles close_statusWindow.
Proof. settles_by_cases. Qed.

Lemma settles_statusWindow_null : settles statusWindow_null.
Proof. settles_by_cases. Qed.

Lemma settles_ensureDir_detached dirPath : settles (ensureDir_detached dirPath).
Proof. settles_by_cases. Qed.


Lemma settles_prequest reqInfo : settles (prequest reqInfo).
Proof.
  unfold prequest. apply settles_bind; [apply settles_emit |].
  intros _ w. destruct (net w reqInfo); discriminate.
Qed.

Lemma settles_JSON_parse r : settles (JSON_parse r).
Proof.
  unfold JSON_parse. destruct (parsed r);
    [apply settles_ret | apply settles_throw].
Qed.

Lemma settles_get_prop v name : settles (get_prop v name).
Proof.
  unfold get_prop.
  destruct (property v name); auto using settles_ret, settles_throw.
Qed.

Lemma settles_semver_cmp a b : settles (semver_cmp a b).
Proof.
  unfold semver_cmp.
  destruct (semver_of_value a), (semver_of_value b);
    auto using settles_ret, settles_throw.
Qed.

Lemma settles_semver_eq a b : settles (semver_eq a b).
Proof.
  apply settles_bind; [apply settles_semver_cmp | intros; apply settles_ret].
Qed.

Lemma settles_semver_gt a b : settles (semver_gt a b).
Proof.
  apply settles_bind; [apply settles_semver_cmp | intros; apply settles_ret].
Qed.

Lemma settles_mkdirMaybe directory : settles (mkdirMaybe directory).
Proof.
  apply settles_catch; [apply settles_mkdir |].
  intros [[] ? | | | | | |]; auto using settles_ret, settles_throw.
Qed.

Lemma settles_mkdirMaybe_each dirs : settles (mkdirMaybe_each dirs).
Proof.
  induction dirs as [| d dirs IH]; simpl; [apply settles_ret |].
  apply settles_bind; [apply settles_mkdirMaybe | intros _; exact IH].
Qed.

Lemma settles_ensureDir dirPath : settles (ensureDir dirPath).
Proof. apply settles_mkdirMaybe_each. Qed.

Lemma settles_getPreviousRoll cacheFile v : settles (getPreviousRoll cacheFile v).
Proof.
  intros w. destruct (getPreviousRoll_run cacheFile v w) as [t ->].
  discriminate.
Qed.

Lemma settles_checkChance info v : settles (checkChance info v).
Proof.
  unfold checkChance.
  apply settles_bind; [apply settles_prequest | intros response].
  destruct (negb (statusCode response =? 200)).
  - apply settles_bind; [apply settles_emit | intros; apply settles_ret].
  - apply settles_bind; [apply settles_JSON_parse | intros body].
    apply settles_bind; [apply settles_get_prop | intros chance].
    apply settles_bind; [| intros _].
    { destruct (template_cases chance) as [[d ->] | [e ->]];
        [apply settles_ret | apply settles_throw]. }
    apply settles_bind; [apply settles_emit | intros _].
    apply settles_bind; [apply settles_getPreviousRoll | intros roll].
    apply settles_bind.
    + destruct (roll =? 0); [| apply settles_ret].
      apply settles_bind; [apply settles_Math_random | intros r].
      apply settles_bind; [apply settles_ensureDir | intros _].
      apply settles_bind; [apply settles_writeFile | intros; apply settles_ret].
    + intros roll'.
      apply settles_bind; [apply settles_emit | intros _].
      apply settles_bind; [| intros []; apply settles_ret].
      destruct (js_le_cases roll' chance) as [[d ->] | [e ->]];
        [apply settles_ret | apply settles_throw].
Qed.

Lemma settles_getVersion info : settles (getVersion info).
Proof.
  unfold getVersion.
  apply settles_bind; [apply settles_prequest | intros response].
  destruct (negb (statusCode response =? 200)).
  - apply settles_bind; [apply settles_emit | intros; apply settles_ret].
  - apply settles_get_prop.
Qed.

Lemma settles_open_window :
  settles
    (catch (new_BrowserWindow ;;
            statusWindow_on_ready_to_show ;;
            statusWindow_loadURL)
       (fun error => close_statusWindow ;; statusWindow_null)).
Proof.
  apply settles_catch.
  - apply settles_bind; [apply settles_new_BrowserWindow | intros _].
    apply settles_bind; [apply settles_on_ready_to_show | intros _].
    apply settles_loadURL.
  - intros e. apply settles_bind; [apply settles_close_statusWindow | intros _].
    apply settles_statusWindow_null.
Qed.



(** The steps of the download that always come back. *)
Lemma serve_detached_ok w : fst (serve_detached w) = Ok tt.
Proof.
  unfold serve_detached.
  destruct (detached w) as [| d rest]; [reflexivity |].
  destruct (mkdirMaybe d (with_detached rest w)) as [[[] | e |] w1];
    reflexivity.
Qed.

Lemma serve_detached_n_ok n w : fst (serve_detached_n n w) = Ok tt.
Proof.
  revert w. induction n as [| n IH]; intros w; simpl; [reflexivity |].
  unfold bind. pose proof (serve_detached_ok w) as H.
  destruct (serve_detached w) as [o w1]. simpl in H. subst o. apply IH.
Qed.

Lemma outStream_opens_ok file w :
  exists err, fst (outStream_opens file w) = Ok err.
Proof.
  unfold outStream_opens, bind.
  pose proof (serve_detached_n_ok (openAfter w) w) as H1.
  destruct (serve_detached_n (openAfter w) w) as [o1 w1].
  simpl in H1. subst o1.
  assert (Hopen : exists err w2, open_stream file w1 = (Ok err, w2)).
  { unfold open_stream. destruct (write_error w1 file); eauto. }
  destruct Hopen as (err & w2 & ->).
  match goal with
  | |- context [serve_detached_n ?n w2] =>
      pose proof (serve_detached_n_ok n w2) as H3;
      destruct (serve_detached_n n w2) as [o3 w3]
  end.
  simpl in H3. subst o3. exists err. reflexivity.
Qed.

Lemma pipe_ok file body w : fst (pipe file body w) = Ok tt.
Proof.
  revert w. induction body as [| chunk body IH]; intros w; simpl;
    [reflexivity |].
  unfold bind, stream_write. apply IH.
Qed.

Lemma receive_ok file contentLength progress accum body w :
  (forall a t u, fst (progress a t u) = Ok tt) ->
  fst (receive file contentLength progress accum body w) = Ok tt.
Proof.
  intros Hp. revert accum w.
  induction body as [| chunk body IH]; intros accum w; simpl;
    [reflexivity |].
  unfold bind at 1.
  destruct contentLength as [total |].
  - unfold on_data.
    pose proof (Hp (accum + Z.of_nat (String.length chunk)) total w) as H.
    destruct (progress (accum + Z.of_nat (String.length chunk)) total w)
      as [o w1]. simpl in H. subst o.
    unfold bind, stream_write. apply IH.
  - unfold ret. unfold bind, stream_write. apply IH.
Qed.

(* ================================================================= *)
(** * The pipeline *)

Arguments spec : simpl never.

Lemma quiet_any e : quiet e -> any_event e.
Proof. intros _. exact I. Qed.

Lemma quiet_quiet e : quiet e -> quiet e.
Proof. auto. Qed.

(** Takes a computation of the bootstrap apart and shows that it only
    adds events the hypothesis [HP] allows. *)
Ltac keeps_with HP :=
  cbv beta zeta;
  lazymatch goal with
  | |- keeps _ (bind _ _) => apply keeps_bind; [| intro]; keeps_with HP
  | |- keeps _ (catch _ _) => apply keeps_catch; [| intro]; keeps_with HP
  | |- keeps _ (if ?b then _ else _) => destruct b; keeps_with HP
  | |- keeps _ (ret _) => apply keeps_ret
  | |- keeps _ (throw _) => apply keeps_throw
  | |- keeps _ (console_log _) => apply keeps_emit, HP; exact I
  | |- keeps _ (emit _) => apply keeps_emit, HP; exact I
  | |- keeps _ (getVersion _) => apply keeps_getVersion, HP
  | |- keeps _ (semver_eq _ _) => apply keeps_semver_eq
  | |- keeps _ (semver_gt _ _) => apply keeps_semver_gt
  | |- keeps _ (checkChance _ _) => apply keeps_checkChance, HP
  | |- keeps _ (js_le _ _) => apply keeps_js_le
  | |- keeps _ (template _) => apply keeps_template
  | |- keeps _ new_BrowserWindow => apply keeps_new_BrowserWindow, HP
  | |- keeps _ statusWindow_on_ready_to_show => apply keeps_on_ready_to_show
  | |- keeps _ statusWindow_loadURL => apply keeps_loadURL
  | |- keeps _ close_statusWindow => apply keeps_close_statusWindow, HP
  | |- keeps _ statusWindow_null => apply keeps_statusWindow_null
  | |- keeps _ (ensureDir_detached _) => apply keeps_ensureDir_detached
  | |- keeps _ (fetchUpdater _ _) =>
      apply keeps_fetchUpdater;
      [exact HP | intros; apply keeps_progress; exact HP]
  | |- keeps _ (push_pids _ _) => apply keeps_push_pids
  | |- keeps _ (spawn _ _ _) => apply keeps_spawn
  | |- _ => idtac
  end.

Lemma keeps_entry info : keeps any_event (entry info).
Proof. unfold entry. keeps_with quiet_any. Qed.

(** Whatever happens, the trace of a run only grows. *)
Lemma keeps_module_exports info : keeps any_event (module_exports info).
Proof. unfold module_exports. keeps_with quiet_any. apply keeps_entry. Qed.





(** Stepping through a run whose first step is known. *)
Lemma catch_bind_ok {A B} (m : M A) (k : A -> M B) h w a w1 :
  m w = (Ok a, w1) -> catch (bind m k) h w = catch (k a) h w1.
Proof. unfold catch, bind. intros ->. reflexivity. Qed.

Lemma catch_bind_throw {A B} (m : M A) (k : A -> M B) h w e w1 :
  m w = (Throw e, w1) -> catch (bind m k) h w = h e w1.
Proof. unfold catch, bind. intros ->. reflexivity. Qed.

Lemma getVersion_ok info w r fields :
  net w (version_request info) = Responds r ->
  statusCode r = 200 ->
  json_body r = JObj fields ->
  getVersion info w
  = (Ok (lookup "version" fields),
     with_trace (EvRequest (version_request info) :: trace w) w).
Proof.
  intros Hnet Hstatus Hbody.
  unfold getVersion. fold (version_request info).
  unfold bind at 1. unfold prequest, bind at 1, emit. simpl.
  rewrite Hnet, Hstatus. simpl. rewrite Hbody. reflexivity.
Qed.

Lemma semver_eq_run a b x y w :
  semver_parse a = Some x -> semver_parse b = Some y ->
  semver_eq (JStr a) (JStr b) w
  = (Ok (match semver_compare x y with Eq => true | _ => false end), w).
Proof.
  intros Ha Hb. unfold semver_eq, semver_cmp, bind. simpl.
  rewrite Ha, Hb. reflexivity.
Qed.

Lemma semver_gt_run a b x y w :
  semver_parse a = Some x -> semver_parse b = Some y ->
  semver_gt (JStr a) (JStr b) w
  = (Ok (match semver_compare x y with Gt => true | _ => false end), w).
Proof.
  intros Ha Hb. unfold semver_gt, semver_cmp, bind. simpl.
  rewrite Ha, Hb. reflexivity.
Qed.

Lemma parsed_version_is_truthy s v :
  semver_parse s = Some v -> truthy (JStr s) = true.
Proof. destruct s; [discriminate | reflexivity]. Qed.


(** The handler of [module.exports] turns any failure into [false]. *)
Lemma handler_run e w :
  exists t,
    (console_log (LogError e) ;; close_statusWindow ;; ret false) w
    = (Ok false, snd ((console_log (LogError e) ;; close_statusWindow ;;
                       ret false) w))
    /\ trace (snd ((console_log (LogError e) ;; close_statusWindow ;;
                    ret false) w))
       = t ++ EvLog (LogError e) :: trace w
    /\ (t = [] \/ t = [EvWindowClose]).
Proof.
  unfold bind, console_log, emit, close_statusWindow. simpl.
  destruct (statusWindow w); simpl.
  - exists [EvWindowClose]. auto.
  - exists []. auto.
Qed.




(** Prerelease versions with small numbers are told apart in both
    directions: from 1.0.0-rc.1 the run goes on to the gate for
    1.0.0-rc.2 and for 1.0.0, and stops for 1.0.0-rc.1 and 1.0.0-rc. *)
Lemma prereleases_are_told_apart :
  history (snd (module_exports (with_version "1.0.0-rc.1" an_info)
                  (a_world a_disk (serves_version "1.0.0-rc.1"))))
  = [ EvRequest (version_request an_info); EvLog LogAlreadyLatest ] /\
  history (snd (module_exports (with_version "1.0.0-rc.1" an_info)
                  (a_world a_disk (serves_version "1.0.0-rc"))))
  = [ EvRequest (version_request an_info); EvLog LogLatestIsLess ] /\
  In (EvRequest (chance_request an_info "1.0.0-rc.2"))
    (history (snd (module_exports (with_version "1.0.0-rc.1" an_info)
                     (a_world a_disk (serves_version "1.0.0-rc.2"))))) /\
  In (EvRequest (chance_request an_info "1.0.0"))
    (history (snd (module_exports (with_version "1.0.0-rc.1" an_info)
                     (a_world a_disk (serves_version "1.0.0"))))).
Proof. repeat split; vm_compute; tauto. Qed.


(* ================================================================= *)
(** * A download that fails *)

Lemma handler_quiet w0 w1 e :
  frame quiet w0 w1 ->
  spec w1 (console_log (LogError e) ;; close_statusWindow ;; ret false)
    (fails_quietly w0).
Proof.
  intros F. unfold spec, fails_quietly.
  destruct (handler_run e w1) as (t & Hrun & _).
  rewrite Hrun at 1. split; [reflexivity |].
  eapply frame_trans; [exact F |].
  assert (K : keeps quiet
                (console_log (LogError e) ;; close_statusWindow ;; ret false))
    by keeps_with quiet_quiet.
  apply K.
Qed.

Lemma log_false_quiet w0 w1 m (h : Exn -> M bool) :
  frame quiet w0 w1 ->
  spec w1 (console_log m ;; ret false)
    (fun o w' =>
       match o with
       | Throw e => spec w' (h e) (fails_quietly w0)
       | _ => fails_quietly w0 o w'
       end).
Proof.
  intros F. unfold spec, bind, console_log, emit. simpl.
  split; [reflexivity |].
  eapply frame_trans; [exact F | apply frame_one; exact I].
Qed.

(** One step of a run: the step settles, and adds only events that
    satisfy [P]. *)
Lemma spec_step P {A B} w0 w (m : M A) (k : A -> M B) Q :
  keeps P m -> settles m ->
  frame P w0 w ->
  (forall a w1, frame P w0 w1 -> spec w1 (k a) Q) ->
  (forall e w1, frame P w0 w1 -> Q (Throw e) w1) ->
  spec w (bind m k) Q.
Proof.
  intros K S F Hok Hthrow. apply spec_bind. unfold spec.
  specialize (K w). specialize (S w).
  destruct (m w) as [[a | e |] w1]; simpl in *;
    [apply Hok | apply Hthrow | congruence];
    eapply frame_trans; eauto.
Qed.

(** The download rejects when the server answers with a status other
    than 200. *)
Lemma fetchUpdater_rejects info progress w r :
  net w (updater_request info) = Responds r ->
  statusCode r <> 200 ->
  exists e, fst (fetchUpdater info progress w) = Throw e.
Proof.
  intros Hnet Hst. unfold fetchUpdater.
  fold (updater_request info). fold (updaterPath_of info).
  unfold bind at 1, emit.
  set (w1 := with_trace (EvRequest (updater_request info) :: trace w) w).
  unfold bind at 1.
  destruct (outStream_opens_ok (updaterPath_of info) w1) as [err Herr].
  pose proof (keeps_outStream_opens quiet quiet_quiet (updaterPath_of info) w1)
    as [Hn _].
  destruct (outStream_opens (updaterPath_of info) w1) as [o w2].
  simpl in Herr, Hn. subst o.
  destruct err as [c |]; [eexists; reflexivity |].
  unfold bind at 1, get_net. rewrite Hn. subst w1. simpl. rewrite Hnet.
  destruct (statusCode r =? 200) eqn:E; [apply Z.eqb_eq in E; tauto |].
  simpl. unfold bind.
  pose proof (pipe_ok (updaterPath_of info) (chunks r) w2) as Hp.
  destruct (pipe (updaterPath_of info) (chunks r) w2) as [o w3].
  simpl in Hp. subst o. eexists. reflexivity.
Qed.

(** C8, as the code has it.  When the binary endpoint answers with a
    status other than 200, the run resolves to false (it neither rejects
    nor stays pending) and no successor process is started. *)
Theorem failed_download_fails_the_run info w r :
  net w (updater_request info) = Responds r ->
  statusCode r <> 200 ->
  fst (module_exports info w) = Ok false /\
  exists evs,
    trace (snd (module_exports info w)) = evs ++ trace w /\
    forall command args dir, ~ In (EvSpawn command args dir) evs.
Proof.
  intros Hnet Hst.
  assert (Hrun : spec w (module_exports info) (fails_quietly w)).
  { unfold module_exports. apply spec_catch. unfold entry.
    apply (spec_step quiet w);
      [apply keeps_getVersion, quiet_quiet | apply settles_getVersion
      | apply frame_refl | | intros e w1 F; now apply handler_quiet].
    intros latestVersion w1 F1.
    destruct (negb (truthy latestVersion)); [now apply log_false_quiet |].
    apply (spec_step quiet w);
      [apply keeps_semver_eq | apply settles_semver_eq
      | exact F1 | | intros e w2 F; now apply handler_quiet].
    intros same w2 F2.
    destruct same; [now apply log_false_quiet |].
    apply (spec_step quiet w);
      [apply keeps_semver_gt | apply settles_semver_gt
      | exact F2 | | intros e w3 F; now apply handler_quiet].
    intros older w3 F3.
    destruct older; [now apply log_false_quiet |].
    apply (spec_step quiet w);
      [apply keeps_checkChance, quiet_quiet | apply settles_checkChance
      | exact F3 | | intros e w4 F; now apply handler_quiet].
    intros lucky w4 F4.
    destruct (negb lucky); [now apply log_false_quiet |].
    apply (spec_step quiet w);
      [apply keeps_open_window, quiet_quiet | apply settles_open_window
      | exact F4 | | intros e w5 F; now apply handler_quiet].
    intros [] w5 F5.
    apply (spec_step quiet w);
      [apply keeps_ensureDir_detached | apply settles_ensureDir_detached
      | exact F5 | | intros e w6 F; now apply handler_quiet].
    intros [] w6 F6.
    apply spec_bind. unfold spec.
    match goal with
    | |- context [fetchUpdater info ?p w6] =>
        destruct (fetchUpdater_rejects info p w6 r) as [e He];
        [destruct F6 as [-> _]; exact Hnet | exact Hst |];
        pose proof (keeps_fetchUpdater quiet quiet_quiet info p
                      (fun a t => keeps_progress quiet quiet_quiet a t) w6)
          as F7;
        destruct (fetchUpdater info p w6) as [o w7]
    end.
    simpl in He, F7. subst o. simpl.
    apply handler_quiet. eapply frame_trans; eauto. }
  unfold spec, fails_quietly in Hrun. destruct Hrun as [Ho [_ [evs [Ht Hq]]]].
  split; [exact Ho |].
  exists evs. split; [exact Ht |].
  intros command args dir Hin.
  rewrite Forall_forall in Hq. exact (Hq _ Hin).
Qed.

Lemma failed_download_fails_the_run_witness :
  fst (module_exports an_info (a_newer_world a_server_error)) = Ok false /\
  exists evs,
    trace (snd (module_exports an_info (a_newer_world a_server_error)))
    = evs ++ trace (a_newer_world a_server_error) /\
    forall command args dir, ~ In (EvSpawn command args dir) evs.
Proof.
  refine (failed_download_fails_the_run an_info
            (a_newer_world a_server_error)
            {| statusCode := 500; content_length := None;
               chunks := ["Internal "; "Server Error"]%string;
               parsed := None |} _ _).
  - reflexivity.
  - discriminate.
Defined.

(** C8 as stated fails in its last part: after a status 500 the temp
    directory holds a [latest-updater.exe] that was not there before,
    made of the body of the failed response. *)
Lemma failed_download_leaves_a_file :
  fst (module_exports an_info (a_newer_world a_server_error)) = Ok false /\
  fs (a_newer_world a_server_error) (updaterPath_of an_info) = None /\
  fs (snd (module_exports an_info (a_newer_world a_server_error)))
    (updaterPath_of an_info)
  = Some (File "Internal Server Error").
Proof. repeat split; vm_compute; reflexivity. Qed.

(* ================================================================= *)
(** * A chance file that is not JSON *)

(** C10.  A chance endpoint that answers 200 with a body that is not
    JSON makes the gate throw, where any other status makes it return
    true; and a run that reaches the gate then resolves to false, having
    asked for the version and the chance file and for nothing else. *)
Theorem chance_file_that_is_not_json info w :
  (forall v r,
     net w (chance_request info v) = Responds r ->
     statusCode r = 200 ->
     parsed r = None ->
     checkChance info v w
     = (Throw SyntaxError,
        with_trace (EvRequest (chance_request info v) :: trace w) w)) /\
  (forall v r,
     net w (chance_request info v) = Responds r ->
     statusCode r <> 200 ->
     fst (checkChance info v w) = Ok true) /\
  (forall rv fields s current remote rc,
     net w (version_request info) = Responds rv ->
     statusCode rv = 200 ->
     json_body rv = JObj fields ->
     lookup "version" fields = JStr s ->
     semver_parse (version info) = Some current ->
     semver_parse s = Some remote ->
     semver_greater remote current ->
     net w (chance_request info s) = Responds rc ->
     statusCode rc = 200 ->
     parsed rc = None ->
     fst (module_exports info w) = Ok false /\
     exists t,
       trace (snd (module_exports info w))
       = t ++ [EvLog (LogError SyntaxError);
               EvRequest (chance_request info s);
               EvRequest (version_request info)] ++ trace w /\
       (t = [] \/ t = [EvWindowClose])).
Proof.
  assert (Hgate : forall v r u,
    net u (chance_request info v) = Responds r ->
    statusCode r = 200 ->
    parsed r = None ->
    checkChance info v u
    = (Throw SyntaxError,
       with_trace (EvRequest (chance_request info v) :: trace u) u)).
  { intros v r u Hnet Hst Hbody.
    unfold checkChance. fold (chance_request info v).
    unfold bind at 1. unfold prequest, bind at 1, emit. simpl.
    rewrite Hnet, Hst. simpl.
    unfold bind at 1, JSON_parse. rewrite Hbody. reflexivity. }
  split; [intros v r; apply Hgate |]. split.
  - intros v r Hnet Hst.
    unfold checkChance. fold (chance_request info v).
    unfold bind at 1. unfold prequest, bind at 1, emit. simpl.
    rewrite Hnet.
    destruct (statusCode r =? 200) eqn:E; [apply Z.eqb_eq in E; tauto |].
    reflexivity.
  - intros rv fields s current remote rc
      Hnet Hst Hbody Hver Hcur Hrem Hgt Hnetc Hstc Hbodyc.
    apply semver_greater_iff_lt in Hgt.
    unfold module_exports, entry.
    rewrite (catch_bind_ok _ _ _ _ _ _
               (getVersion_ok info w rv fields Hnet Hst Hbody)).
    rewrite Hver. rewrite (parsed_version_is_truthy _ _ Hrem). cbn [negb].
    rewrite (catch_bind_ok _ _ _ _ _ _ (semver_eq_run _ _ _ _ _ Hcur Hrem)).
    rewrite Hgt. cbn [negb].
    rewrite (catch_bind_ok _ _ _ _ _ _ (semver_gt_run _ _ _ _ _ Hcur Hrem)).
    rewrite Hgt. cbn [js_to_string negb].
    rewrite (catch_bind_throw _ _ _ _ _ _
               (Hgate s rc
                  (with_trace (EvRequest (version_request info) :: trace w) w)
                  Hnetc Hstc Hbodyc)).
    match goal with
    | |- context [(console_log (LogError SyntaxError) ;; _) ?u] =>
        destruct (handler_run SyntaxError u) as (t & Hrun & Htrace & Ht)
    end.
    rewrite Hrun at 1. split; [reflexivity |].
    exists t. split; [rewrite Htrace; reflexivity | exact Ht].
Qed.

Lemma chance_file_that_is_not_json_witness :
  checkChance an_info "1.2.0"
    (a_world a_disk
       (server (version_descriptor "1.2.0")
          (responds 200 ["<html>"%string] None) an_updater))
  = (Throw SyntaxError,
     with_trace
       (EvRequest (chance_request an_info "1.2.0")
        :: trace (a_world a_disk
                    (server (version_descriptor "1.2.0")
                       (responds 200 ["<html>"%string] None) an_updater)))
       (a_world a_disk
          (server (version_descriptor "1.2.0")
             (responds 200 ["<html>"%string] None) an_updater))).
Proof.
  refine (proj1 (chance_file_that_is_not_json an_info
                   (a_world a_disk
                      (server (version_descriptor "1.2.0")
                         (responds 200 ["<html>"%string] None) an_updater)))
            "1.2.0"%string
            {| statusCode := 200; content_length := None;
               chunks := ["<html>"%string]; parsed := None |} _ _ _);
    reflexivity.
Defined.

(* ================================================================= *)
(** * Runs of the whole bootstrap *)

(** With 1.2.0 out and no chance file, the updater is downloaded and
    started, each value of its arguments between quotes. *)
Lemma unstaged_update_is_launched :
  fst (module_exports an_info (a_newer_world an_updater)) = Ok true /\
  statusWindow (snd (module_exports an_info (a_newer_world an_updater)))
  = Some WindowClosed /\
  skipn 9 (history (snd (module_exports an_info (a_newer_world an_updater))))
  = [ EvLog (LogArgs
        [ "--base-url"; quoted "https://updates.example/app";
          "--version"; quoted "1.2.0";
          "--exec"; quoted "C:/App/app.exe";
          "--cwd"; quoted "C:/App";
          "--app-dir"; quoted "C:/App/resources";
          "--force-temp" ]%string);
      EvSpawn (path_to_string (updaterPath_of an_info))
        [ "--base-url"; quoted "https://updates.example/app";
          "--version"; quoted "1.2.0";
          "--exec"; quoted "C:/App/app.exe";
          "--cwd"; quoted "C:/App";
          "--app-dir"; quoted "C:/App/resources";
          "--force-temp" ]%string
        (tempDir an_info);
      EvWindowClose ].
Proof. repeat split; vm_compute; reflexivity. Qed.

(** Scenario C: a cached roll of 45 against a chance of 30. *)
Lemma cached_roll_45_loses_against_30 :
  fst (module_exports an_info (a_world (cached_disk "45") (staged 30)))
  = Ok false /\
  last_event (snd (module_exports an_info
                     (a_world (cached_disk "45") (staged 30))))
  = Some (EvLog LogLotteryLost).
Proof. split; vm_compute; reflexivity. Qed.

(** [updaterArgs.push_back] does not exist: the loop over [waitPids]
    throws in its first round. *)
Lemma push_pids_throws pid pids updaterArgs w :
  push_pids (pid :: pids) updaterArgs w
  = (Throw (TypeError "push_back is not a function"), w).
Proof. reflexivity. Qed.

(** C4 at [waitPids = [111, 222]].  The loop enumerates the indices 0
    and 1, not the process identifiers, and its first call of
    [push_back] throws: after the download the run resolves to false,
    and no successor process is started, with or without [-p]. *)
Theorem wait_pids_stop_the_launch :
  for_in_keys [111; 222] = ["0"; "1"]%string /\
  fst (module_exports (with_waitPids [111; 222] an_info)
         (a_newer_world an_updater)) = Ok false /\
  existsb is_spawn
    (history (snd (module_exports (with_waitPids [111; 222] an_info)
                     (a_newer_world an_updater)))) = false /\
  skipn 9
    (history (snd (module_exports (with_waitPids [111; 222] an_info)
                     (a_newer_world an_updater))))
  = [ EvLog (LogError (TypeError "push_back is not a function"));
      EvWindowClose ].
Proof. repeat split; vm_compute; reflexivity. Qed.

(** C9 at a temp directory [C:\Temp\app] of which [C:\Temp] exists.
    With the file system serving requests in the order in which they
    were issued, the stream's open of [latest-updater.exe] comes after
    the first [mkdir] of the detached [ensureDir] and before the one
    that creates the temp directory: the open fails and the run resolves
    to false. *)
Theorem download_opens_before_tempDir_exists :
  fst (module_exports (with_tempDir ["C:"; "Temp"; "app"]%string an_info)
         (a_newer_world an_updater)) = Ok false /\
  skipn 5
    (history (snd (module_exports
                     (with_tempDir ["C:"; "Temp"; "app"]%string an_info)
                     (a_newer_world an_updater))))
  = [ EvMkdir ["C:"; "Temp"]%string (Some EEXIST);
      EvOpen ["C:"; "Temp"; "app"; "latest-updater.exe"]%string (Some ENOENT);
      EvMkdir ["C:"; "Temp"; "app"]%string None;
      EvLog (LogError
               (FsError ENOENT
                  ["C:"; "Temp"; "app"; "latest-updater.exe"]%string));
      EvWindowClose ].
Proof. split; vm_compute; reflexivity. Qed.

(** The same run when the last [mkdir] of the detached [ensureDir] is
    served only once the promise has resolved: the outcome is the same,
    and the temp directory is not there yet when the caller gets its
    answer. *)
Lemma last_mkdir_may_come_late :
  fst (module_exports (with_tempDir ["C:"; "Temp"; "app"]%string an_info)
         (with_lingering 1 (a_newer_world an_updater))) = Ok false /\
  skipn 5
    (history (snd (module_exports
                     (with_tempDir ["C:"; "Temp"; "app"]%string an_info)
                     (with_lingering 1 (a_newer_world an_updater)))))
  = [ EvMkdir ["C:"; "Temp"]%string (Some EEXIST);
      EvOpen ["C:"; "Temp"; "app"; "latest-updater.exe"]%string (Some ENOENT);
      EvLog (LogError
               (FsError ENOENT
                  ["C:"; "Temp"; "app"; "latest-updater.exe"]%string));
      EvWindowClose ] /\
  fs (snd (module_exports
             (with_tempDir ["C:"; "Temp"; "app"]%string an_info)
             (with_lingering 1 (a_newer_world an_updater))))
    ["C:"; "Temp"; "app"]%string = None.
Proof. repeat split; vm_compute; reflexivity. Qed.

(** C1 at a download that gets no response.  The request emits an
    error nobody listens to, the promise of [fetchUpdater] is never
    settled, and neither is the one the caller holds; the status window
    stays open. *)
Theorem download_without_response_never_settles :
  fst (module_exports an_info (a_newer_world NoResponse)) = Pending /\
  statusWindow (snd (module_exports an_info (a_newer_world NoResponse)))
  = Some WindowOpen /\
  last_event (snd (module_exports an_info (a_newer_world NoResponse)))
  = Some (EvUncaughtException (RequestError (updater_request an_info))).
Proof. repeat split; vm_compute; reflexivity. Qed.

(* ================================================================= *)
(** * What holds of every run *)


(** One step of a run that may stay pending. *)
Lemma spec_step_any P {A B} w0 w (m : M A) (k : A -> M B) Q :
  keeps P m ->
  frame P w0 w ->
  (forall a w1, frame P w0 w1 -> spec w1 (k a) Q) ->
  (forall e w1, frame P w0 w1 -> Q (Throw e) w1) ->
  (forall w1, Q Pending w1) ->
  spec w (bind m k) Q.
Proof.
  intros K F Hok Hthrow Hpending. apply spec_bind. unfold spec.
  specialize (K w).
  destruct (m w) as [[a | e |] w1]; simpl in *;
    [apply Hok | apply Hthrow | apply Hpending];
    eapply frame_trans; eauto.
Qed.

(** X15.  The caller receives [true] only after a successor process
    has been started in the course of the run. *)
Lemma true_only_after_spawn info w :
  fst (module_exports info w) = Ok true ->
  spawned_since w (snd (module_exports info w)).
Proof.
  assert (Hrun : spec w (module_exports info)
                   (fun o w' => o = Ok true -> spawned_since w w')).
  { assert (Hhandler : forall e u,
      spec u (console_log (LogError e) ;; close_statusWindow ;; ret false)
        (fun o w' => o = Ok true -> spawned_since w w')).
    { intros e u. unfold spec.
      destruct (handler_run e u) as (t & Hrun & _).
      rewrite Hrun. simpl. discriminate. }
    assert (Hfalse : forall m u,
      spec u (console_log m ;; ret false)
        (fun o w' =>
           match o with
           | Throw e =>
               spec w' (console_log (LogError e) ;; close_statusWindow ;;
                        ret false)
                 (fun o w' => o = Ok true -> spawned_since w w')
           | _ => o = Ok true -> spawned_since w w'
           end)).
    { intros m u. unfold spec, bind, console_log, emit. simpl. discriminate. }
    unfold module_exports. apply spec_catch. unfold entry.
    apply (spec_step_any any_event w);
      [apply keeps_getVersion, quiet_any | apply frame_refl |
      | intros e w1 F; apply Hhandler | discriminate].
    intros latestVersion w1 F1.
    destruct (negb (truthy latestVersion)); [apply Hfalse |].
    apply (spec_step_any any_event w);
      [apply keeps_semver_eq | exact F1 |
      | intros e w2 F; apply Hhandler | discriminate].
    intros same w2 F2.
    destruct same; [apply Hfalse |].
    apply (spec_step_any any_event w);
      [apply keeps_semver_gt | exact F2 |
      | intros e w3 F; apply Hhandler | discriminate].
    intros older w3 F3.
    destruct older; [apply Hfalse |].
    apply (spec_step_any any_event w);
      [apply keeps_checkChance, quiet_any | exact F3 |
      | intros e w4 F; apply Hhandler | discriminate].
    intros lucky w4 F4.
    destruct (negb lucky); [apply Hfalse |].
    apply (spec_step_any any_event w);
      [apply keeps_open_window, quiet_any | exact F4 |
      | intros e w5 F; apply Hhandler | discriminate].
    intros [] w5 F5.
    apply (spec_step_any any_event w);
      [apply keeps_ensureDir_detached | exact F5 |
      | intros e w6 F; apply Hhandler | discriminate].
    intros [] w6 F6.
    apply (spec_step_any any_event w);
      [apply keeps_fetchUpdater;
         [exact quiet_any | intros; apply keeps_progress; exact quiet_any]
      | exact F6 |
      | intros e w7 F; apply Hhandler | discriminate].
    intros updaterPath w7 F7. cbv zeta.
    apply (spec_step_any any_event w);
      [apply keeps_push_pids | exact F7 |
      | intros e w8 F; apply Hhandler | discriminate].
    intros updaterArgs w8 F8.
    apply (spec_step_any any_event w);
      [apply keeps_emit; exact I | exact F8 |
      | intros e w9 F; apply Hhandler | discriminate].
    intros [] w9 [_ [evs [Ht _]]].
    apply spec_bind. unfold spec at 1, spawn.
    destruct (spawnThrows w9); cbn [fst snd]; [apply Hhandler |].
    unfold spec, bind, close_statusWindow, emit. simpl.
    destruct (statusWindow w9); simpl; intros _.
    - exists (EvWindowClose
              :: EvSpawn (path_to_string updaterPath) updaterArgs
                   (tempDir info) :: evs),
        (path_to_string updaterPath), updaterArgs, (tempDir info).
      split; [rewrite Ht; reflexivity | right; left; reflexivity].
    - exists (EvSpawn (path_to_string updaterPath) updaterArgs
                (tempDir info) :: evs),
        (path_to_string updaterPath), updaterArgs, (tempDir info).
      split; [rewrite Ht; reflexivity | left; reflexivity]. }
  exact Hrun.
Qed.

(** X16.  With any process to wait for, no run ends in [true]: the
    loop over [waitPids] throws before the successor is started. *)
Lemma wait_pids_never_launch info w :
  waitPids info <> [] -> fst (module_exports info w) <> Ok true.
Proof.
  intros Hpids.
  assert (Hkeys : exists pid pids, for_in_keys (waitPids info) = pid :: pids).
  { destruct (waitPids info) as [| p ps]; [contradiction |].
    unfold for_in_keys. simpl. eauto. }
  destruct Hkeys as (pid & pids & Hkeys).
  assert (Hrun : spec w (module_exports info) (fun o _ => o <> Ok true)).
  { assert (Hhandler : forall e u,
      spec u (console_log (LogError e) ;; close_statusWindow ;; ret false)
        (fun o _ => o <> Ok true)).
    { intros e u. unfold spec.
      destruct (handler_run e u) as (t & Hrun & _).
      rewrite Hrun. simpl. discriminate. }
    assert (Hfalse : forall m u,
      spec u (console_log m ;; ret false)
        (fun o w' =>
           match o with
           | Throw e =>
               spec w' (console_log (LogError e) ;; close_statusWindow ;;
                        ret false)
                 (fun o _ => o <> Ok true)
           | _ => o <> Ok true
           end)).
    { intros m u. unfold spec, bind, console_log, emit. simpl. discriminate. }
    unfold module_exports. apply spec_catch. unfold entry.
    apply (spec_step_any any_event w);
      [apply keeps_getVersion, quiet_any | apply frame_refl |
      | intros e w1 F; apply Hhandler | discriminate].
    intros latestVersion w1 F1.
    destruct (negb (truthy latestVersion)); [apply Hfalse |].
    apply (spec_step_any any_event w);
      [apply keeps_semver_eq | exact F1 |
      | intros e w2 F; apply Hhandler | discriminate].
    intros same w2 F2.
    destruct same; [apply Hfalse |].
    apply (spec_step_any any_event w);
      [apply keeps_semver_gt | exact F2 |
      | intros e w3 F; apply Hhandler | discriminate].
    intros older w3 F3.
    destruct older; [apply Hfalse |].
    apply (spec_step_any any_event w);
      [apply keeps_checkChance, quiet_any | exact F3 |
      | intros e w4 F; apply Hhandler | discriminate].
    intros lucky w4 F4.
    destruct (negb lucky); [apply Hfalse |].
    apply (spec_step_any any_event w);
      [apply keeps_open_window, quiet_any | exact F4 |
      | intros e w5 F; apply Hhandler | discriminate].
    intros [] w5 F5.
    apply (spec_step_any any_event w);
      [apply keeps_ensureDir_detached | exact F5 |
      | intros e w6 F; apply Hhandler | discriminate].
    intros [] w6 F6.
    apply (spec_step_any any_event w);
      [apply keeps_fetchUpdater;
         [exact quiet_any | intros; apply keeps_progress; exact quiet_any]
      | exact F6 |
      | intros e w7 F; apply Hhandler | discriminate].
    intros updaterPath w7 F7. cbv zeta. rewrite Hkeys.
    apply spec_bind. unfold spec at 1.
    rewrite push_pids_throws. cbn [fst snd]. apply Hhandler. }
  exact Hrun.
Qed.

(* ================================================================= *)
(** * What is written to the roll cache is read back *)

(** Evaluates the digits and white space that [parseInt] meets at the
    head of a known string. *)
Ltac read_chars :=
  repeat match goal with
         | |- context [digit_value ?c] =>
             let v := eval vm_compute in (digit_value c) in
             change (digit_value c) with v
         | |- context [is_white ?c] =>
             let v := eval vm_compute in (is_white c) in
             change (is_white c) with v
         | |- context [white_lead ?c] =>
             let v := eval vm_compute in (white_lead c) in
             change (white_lead c) with v
         end;
  cbv beta iota;
  repeat match goal with
         | |- context [?k <? 10] => change (k <? 10) with true
         end;
  cbv beta iota.

Lemma parse_digits_uint_pos (l : Decimal.uint) (acc : positive) :
  parse_digits 10 (DecimalString.NilEmpty.string_of_uint l) (Some (Zpos acc))
  = Some (Zpos (Pos.of_uint_acc l acc)).
Proof.
  revert acc. induction l as [| l IH | l IH | l IH | l IH | l IH | l IH
                               | l IH | l IH | l IH | l IH];
    intros acc; [reflexivity | ..];
    cbn [DecimalString.NilEmpty.string_of_uint Pos.of_uint_acc parse_digits];
    read_chars; rewrite <- IH; repeat f_equal; lia.
Qed.

Lemma parse_digits_uint_zero (l : Decimal.uint) :
  parse_digits 10 (DecimalString.NilEmpty.string_of_uint l) (Some 0)
  = Some (Z.of_N (Pos.of_uint l)).
Proof.
  induction l as [| l IH | l IH | l IH | l IH | l IH | l IH
                  | l IH | l IH | l IH | l IH];
    [reflexivity | ..];
    cbn [DecimalString.NilEmpty.string_of_uint Pos.of_uint parse_digits];
    read_chars;
    [exact IH | apply parse_digits_uint_pos ..].
Qed.

Lemma parse_digits_uint (d : Decimal.uint) :
  d <> Decimal.Nil ->
  parse_digits 10 (DecimalString.NilEmpty.string_of_uint d) None
  = Some (Z.of_N (Pos.of_uint d)).
Proof.
  intros Hd.
  destruct d as [| l | l | l | l | l | l | l | l | l | l];
    [contradiction | ..];
    cbn [DecimalString.NilEmpty.string_of_uint Pos.of_uint parse_digits];
    read_chars;
    [apply parse_digits_uint_zero | apply parse_digits_uint_pos ..].
Qed.

(** [parseInt] reads the decimal digits of a number, with or without a
    minus sign before them, as that number. *)
Lemma parseInt_digits (d : Decimal.uint) :
  d <> Decimal.Nil ->
  parseInt (DecimalString.NilEmpty.string_of_uint d)
  = Num (to_double (Z.of_N (Pos.of_uint d)))
  /\ parseInt (String "-" (DecimalString.NilEmpty.string_of_uint d))
     = Num (- to_double (Z.of_N (Pos.of_uint d))).
Proof.
  intros Hd.
  pose proof (parse_digits_uint d Hd) as H.
  assert (Hcases :
    (exists l, d = Decimal.D0 l) \/
    (exists c r, DecimalString.NilEmpty.string_of_uint d = String c r
                 /\ In c ["1"; "2"; "3"; "4"; "5"; "6"; "7"; "8"; "9"]%char)).
  { destruct d as [| l | l | l | l | l | l | l | l | l | l];
      [contradiction | left; eauto | right ..];
      cbn [DecimalString.NilEmpty.string_of_uint];
      do 2 eexists; (split; [reflexivity | simpl; tauto]). }
  destruct Hcases as [[l ->] | (c & r & Hs & Hc)].
  - (* a leading 0: what follows is a digit, not an x *)
    destruct l as [| l | l | l | l | l | l | l | l | l | l];
      cbn [DecimalString.NilEmpty.string_of_uint] in H |- *;
      unfold parseInt; cbn [skip_white]; read_chars; cbv beta iota zeta;
      rewrite H; split; f_equal; lia.
  - rewrite Hs in H |- *.
    simpl in Hc.
    repeat (destruct Hc as [<- | Hc]; [| try contradiction]);
      unfold parseInt; cbn [skip_white]; read_chars; cbv beta iota zeta;
      rewrite H; split; f_equal; lia.
Qed.

(** [parseInt] reads the decimal digits of a positive integer as its
    Number value. *)
Lemma parseInt_decimal (p : positive) :
  parseInt (decimal (Zpos p)) = Num (to_double (Zpos p)) /\
  parseInt (String "-" (decimal (Zpos p))) = Num (- to_double (Zpos p)).
Proof.
  unfold decimal.
  cbn [Z.to_int DecimalString.NilZero.string_of_int].
  assert (Hof : Pos.of_uint (Pos.to_uint p) = Npos p)
    by apply DecimalPos.Unsigned.of_to.
  assert (Hd : Pos.to_uint p <> Decimal.Nil)
    by (intros E; rewrite E in Hof; discriminate).
  destruct (parseInt_digits (Pos.to_uint p) Hd) as [Hpos Hneg].
  rewrite Hof in Hpos, Hneg.
  unfold DecimalString.NilZero.string_of_uint.
  destruct (Pos.to_uint p) eqn:E; try contradiction; split; assumption.
Qed.

(** A number from [2 ^ 53] on is rounded to one from [2 ^ 53] on. *)
Lemma round53_large (n : Z) : 2 ^ 53 <= n -> 2 ^ 53 <= round53 n.
Proof.
  intros Hn. unfold round53.
  assert (H53 : 53 <= Z.log2 n) by (apply Z.log2_le_pow2; lia).
  destruct (Z.leb_spec (Z.log2 n + 1 - 53) 0) as [Hs | Hs]; [lia |].
  remember (Z.log2 n + 1 - 53) as s eqn:Es.
  assert (Hpow : 0 < 2 ^ s) by (apply Z.pow_pos_nonneg; lia).
  assert (Hlog : 2 ^ (52 + s) <= n).
  { replace (52 + s) with (Z.log2 n) by lia. apply Z.log2_spec. lia. }
  rewrite Z.pow_add_r in Hlog by lia.
  assert (Hq : 2 ^ 52 <= n / 2 ^ s)
    by (apply Z.div_le_lower_bound; lia).
  assert (H2 : 2 <= 2 ^ s).
  { change 2 with (2 ^ 1) at 1. apply Z.pow_le_mono_r; lia. }
  change (2 ^ 53) with (2 ^ 52 * 2).
  destruct ((2 ^ (s - 1) <? n mod 2 ^ s)
            || ((n mod 2 ^ s =? 2 ^ (s - 1)) && Z.odd (n / 2 ^ s)));
    change (2 ^ 52) with 4503599627370496 in *; nia.
Qed.

Lemma to_double_below (c : Z) : to_double c < 2 ^ 53 -> c < 2 ^ 53.
Proof.
  intros H. destruct (Z.lt_ge_cases c (2 ^ 53)) as [Hc | Hc]; [exact Hc |].
  exfalso. unfold to_double in H.
  pose proof (round53_large c Hc) as Hr.
  assert (2 ^ 53 <= 2 ^ 1024) by (apply Z.pow_le_mono_r; lia).
  change (2 ^ 53) with 9007199254740992 in *. lia.
Qed.

(** What [shortest] comes up with reads back as the number. *)
Lemma shortest_reads_back (fuel : nat) (k n x : Z) :
  to_double x = x -> to_double (shortest fuel k n x) = x.
Proof.
  intros Hx. revert k.
  induction fuel as [| fuel IH]; intros k; [exact Hx |].
  cbn [shortest].
  destruct (n <=? k); [exact Hx |]. cbv zeta.
  destruct (to_double (x / 10 ^ (n - k) * 10 ^ (n - k)) =? x) eqn:Elo;
    destruct (to_double (x / 10 ^ (n - k) * 10 ^ (n - k) + 10 ^ (n - k)) =? x)
      eqn:Ehi;
    cbn [andb negb orb];
    repeat match goal with
           | |- context [if ?b then _ else _] => destruct b
           end;
    try (now apply Z.eqb_eq); apply IH.
Qed.

Lemma shortest_nonneg (fuel : nat) (k n x : Z) :
  0 <= x -> 0 <= shortest fuel k n x.
Proof.
  intros Hx. revert k.
  induction fuel as [| fuel IH]; intros k; [exact Hx |].
  cbn [shortest].
  destruct (n <=? k); [exact Hx |]. cbv zeta.
  assert (Hp : 0 <= 10 ^ (n - k)) by (apply Z.pow_nonneg; lia).
  assert (Hq : 0 <= x / 10 ^ (n - k)) by (apply Z_div_nonneg_nonneg; lia).
  repeat match goal with
         | |- context [if ?b then _ else _] => destruct b
         end;
    try apply IH; nia.
Qed.

(** Every safe integer printed by a template literal parses back to
    itself. *)
Lemma parseInt_toString_safe (z : Z) :
  Z.abs z <= MAX_SAFE_INTEGER -> parseInt (toString z) = Num z.
Proof.
  intros Hz.
  assert (Hx : to_double (Z.abs z) = Z.abs z)
    by (apply to_double_safe; lia).
  unfold MAX_SAFE_INTEGER in Hz.
  assert (Hbig : 2 ^ 53 <= 2 ^ 1024) by (apply Z.pow_le_mono_r; lia).
  unfold toString. cbv zeta. rewrite Hx.
  destruct (Z.leb_spec (2 ^ 1024) (Z.abs z)) as [Hinf | _];
    [change (2 ^ 53) with 9007199254740992 in *; lia |].
  pose proof (shortest_reads_back 17 1 (digits (Z.abs z)) (Z.abs z) Hx) as Hc.
  pose proof (shortest_nonneg 17 1 (digits (Z.abs z)) (Z.abs z)
                (Z.abs_nonneg z)) as Hc0.
  remember (shortest 17 1 (digits (Z.abs z)) (Z.abs z)) as c eqn:Ec.
  assert (Hlt : c < 2 ^ 53).
  { apply to_double_below. rewrite Hc.
    change (2 ^ 53) with 9007199254740992. lia. }
  destruct (Z.ltb_spec c (10 ^ 21)) as [_ | Hge];
    [| change (2 ^ 53) with 9007199254740992 in *;
       change (10 ^ 21) with 1000000000000000000000 in *; lia].
  destruct c as [| p | p]; [| | lia].
  - (* the number is 0 *)
    change (to_double 0) with 0 in Hc.
    assert (z = 0) by lia. subst z. reflexivity.
  - destruct (parseInt_decimal p) as [Hpos Hneg].
    destruct (Z.ltb_spec z 0) as [Hneg0 | Hpos0].
    + change ("-" ++ decimal (Z.pos p))%string
        with (String "-" (decimal (Z.pos p))).
      rewrite Hneg, Hc. f_equal. lia.
    + change (EmptyString ++ decimal (Z.pos p))%string
        with (decimal (Z.pos p)).
      rewrite Hpos, Hc. f_equal. lia.
Qed.

(* ================================================================= *)
(** * Where the bootstrap writes *)

Lemma change_refl D F w p : change D F w w p.
Proof. left. reflexivity. Qed.

Lemma change_trans D F w1 w2 w3 p :
  change D F w1 w2 p -> change D F w2 w3 p -> change D F w1 w3 p.
Proof.
  unfold change.
  intros [E1 | [(Hd1 & Hn1 & Hs1) | (Hf1 & c1 & Hc1)]]
         [E2 | [(Hd2 & Hn2 & Hs2) | (Hf2 & c2 & Hc2)]].
  - left. congruence.
  - right. left. repeat split; congruence.
  - right. right. eauto.
  - right. left. repeat split; congruence.
  - congruence.
  - right. right. eauto.
  - right. right. split; [exact Hf1 |]. exists c1. congruence.
  - congruence.
  - right. right. eauto.
Qed.

Lemma change_weaken (D D' F F' : Path -> Prop) w w' p :
  (forall q, D q -> D' q) -> (forall q, F q -> F' q) ->
  change D F w w' p -> change D' F' w w' p.
Proof.
  intros HD HF [E | [(Hd & Hn & Hs) | (Hf & c & Hc)]].
  - left. exact E.
  - right. left. auto.
  - right. right. eauto.
Qed.

Lemma writes_bind D F {A B} (m : M A) (k : A -> M B) :
  writes D F m -> (forall a, writes D F (k a)) -> writes D F (bind m k).
Proof.
  intros Wm Wk w. unfold bind.
  destruct (Wm w) as [H1 H2].
  destruct (m w) as [[a | e |] w1]; simpl in *; auto.
  destruct (Wk a w1) as [H3 H4]. split; [congruence |].
  intros p. eapply change_trans; eauto.
Qed.

Lemma writes_catch D F {A} (m : M A) (h : Exn -> M A) :
  writes D F m -> (forall e, writes D F (h e)) -> writes D F (catch m h).
Proof.
  intros Wm Wh w. unfold catch.
  destruct (Wm w) as [H1 H2].
  destruct (m w) as [[a | e |] w1]; simpl in *; auto.
  destruct (Wh e w1) as [H3 H4]. split; [congruence |].
  intros p. eapply change_trans; eauto.
Qed.

Lemma writes_attempt D F {A} (m : M A) :
  writes D F m -> writes D F (attempt m).
Proof.
  intros Wm w. unfold attempt.
  destruct (Wm w) as [H1 H2].
  destruct (m w) as [[a | e |] w1]; simpl in *; auto.
Qed.

Lemma writes_idle D F {A} (m : M A) : idle m -> writes D F m.
Proof.
  intros Hi w. destruct (Hi w) as [Hfs Hd]. split; [exact Hd |].
  intros p. left. rewrite Hfs. reflexivity.
Qed.

Lemma writes_weaken (D D' F F' : Path -> Prop) {A} (m : M A) :
  (forall q, D q -> D' q) -> (forall q, F q -> F' q) ->
  writes D F m -> writes D' F' m.
Proof.
  intros HD HF W w. destruct (W w) as [H1 H2]. split; [exact H1 |].
  intros p. eapply change_weaken; eauto.
Qed.

Lemma confined_of_writes D F {A} (m : M A) : writes D F m -> confined D F m.
Proof.
  intros W w Hdet. destruct (W w) as [H1 H2]. split; [| exact H2].
  rewrite H1. exact Hdet.
Qed.

Lemma confined_bind D F {A B} (m : M A) (k : A -> M B) :
  confined D F m -> (forall a, confined D F (k a)) -> confined D F (bind m k).
Proof.
  intros Cm Ck w Hdet. unfold bind.
  destruct (Cm w Hdet) as [H1 H2].
  destruct (m w) as [[a | e |] w1]; simpl in *; auto.
  destruct (Ck a w1 H1) as [H3 H4]. split; [exact H3 |].
  intros p. eapply change_trans; eauto.
Qed.

Lemma confined_catch D F {A} (m : M A) (h : Exn -> M A) :
  confined D F m -> (forall e, confined D F (h e)) -> confined D F (catch m h).
Proof.
  intros Cm Ch w Hdet. unfold catch.
  destruct (Cm w Hdet) as [H1 H2].
  destruct (m w) as [[a | e |] w1]; simpl in *; auto.
  destruct (Ch e w1 H1) as [H3 H4]. split; [exact H3 |].
  intros p. eapply change_trans; eauto.
Qed.

Ltac idle_by_cases :=
  let u := fresh "u" in
  intros u; cbv beta zeta delta
    [ret throw pending emit console_log readFile Math_random get_net
     new_BrowserWindow statusWindow_on_ready_to_show statusWindow_loadURL
     close_statusWindow statusWindow_null spawn JSON_parse get_prop
     semver_cmp call_method js_le template get_bodyEnds];
  repeat match goal with
         | |- context [match ?x with _ => _ end] => destruct x
         | |- context [if ?x then _ else _] => destruct x
         end;
  split; reflexivity.

Lemma path_eqb_eq (p q : Path) : path_eqb p q = true <-> p = q.
Proof.
  revert q. induction p as [| a p IH]; intros [| b q]; simpl;
    try (split; discriminate); [tauto |].
  rewrite andb_true_iff, String.eqb_eq, IH.
  split; [intros [-> ->]; reflexivity | intros E; inversion E; auto].
Qed.

Lemma fs_set_other p q n f : q <> p -> fs_set p n f q = f q.
Proof.
  intros Hq. unfold fs_set.
  destruct (path_eqb q p) eqn:E; [| reflexivity].
  apply path_eqb_eq in E. contradiction.
Qed.

Lemma fs_set_same p n f : fs_set p n f p = Some n.
Proof. unfold fs_set. now rewrite path_eqb_refl. Qed.

Lemma path_eq_dec (p q : Path) : {p = q} + {p <> q}.
Proof. apply list_eq_dec, string_dec. Qed.

Lemma writes_mkdir (D F : Path -> Prop) directory :
  D directory -> writes D F (mkdir directory).
Proof.
  intros Hd w. unfold mkdir.
  destruct (fs w directory) as [n |] eqn:E; simpl;
    [split; [reflexivity | intros p; left; reflexivity] |].
  destruct (creation_error w directory); simpl;
    [split; [reflexivity | intros p; left; reflexivity] |].
  split; [reflexivity |]. intros p. unfold change. simpl.
  destruct (path_eq_dec p directory) as [-> | Hne].
  - right. left. rewrite fs_set_same. auto.
  - left. now apply fs_set_other.
Qed.

Lemma writes_writeFile (D F : Path -> Prop) file data :
  F file -> writes D F (writeFile file data).
Proof.
  intros Hf w. unfold writeFile.
  destruct (write_error w file); simpl;
    [split; [reflexivity | intros p; left; reflexivity] |].
  split; [reflexivity |]. intros p. unfold change. simpl.
  destruct (path_eq_dec p file) as [-> | Hne].
  - right. right. rewrite fs_set_same. eauto.
  - left. now apply fs_set_other.
Qed.

Lemma writes_open_stream (D F : Path -> Prop) file :
  F file -> writes D F (open_stream file).
Proof.
  intros Hf w. unfold open_stream.
  destruct (write_error w file); simpl;
    [split; [reflexivity | intros p; left; reflexivity] |].
  split; [reflexivity |]. intros p. unfold change. simpl.
  destruct (path_eq_dec p file) as [-> | Hne].
  - right. right. rewrite fs_set_same. eauto.
  - left. now apply fs_set_other.
Qed.

Lemma writes_stream_write (D F : Path -> Prop) file chunk :
  F file -> writes D F (stream_write file chunk).
Proof.
  intros Hf w. unfold stream_write. simpl.
  split; [reflexivity |]. intros p. unfold change. simpl.
  destruct (path_eq_dec p file) as [-> | Hne].
  - right. right. rewrite fs_set_same. eauto.
  - left. now apply fs_set_other.
Qed.

Lemma writes_mkdirMaybe (D F : Path -> Prop) directory :
  D directory -> writes D F (mkdirMaybe directory).
Proof.
  intros Hd. apply writes_catch; [now apply writes_mkdir |].
  intros [[] ? | | | | | |]; apply writes_idle; idle_by_cases.
Qed.

Lemma writes_mkdirMaybe_each (D F : Path -> Prop) dirs :
  Forall D dirs -> writes D F (mkdirMaybe_each dirs).
Proof.
  induction 1 as [| d dirs Hd Hrest IH]; simpl.
  - apply writes_idle. idle_by_cases.
  - apply writes_bind; [now apply writes_mkdirMaybe | intros _; exact IH].
Qed.

(** Takes a computation apart down to the steps that do not write. *)
Ltac writes_auto :=
  cbv beta zeta;
  lazymatch goal with
  | |- writes _ _ (bind _ _) => apply writes_bind; [| intro]; writes_auto
  | |- writes _ _ (catch _ _) => apply writes_catch; [| intro]; writes_auto
  | |- writes _ _ (attempt _) => apply writes_attempt; writes_auto
  | |- writes _ _ (prequest _) => unfold prequest; writes_auto
  | |- writes _ _ (getPreviousRoll _ _) =>
      unfold getPreviousRoll; writes_auto
  | |- writes _ _ (semver_eq _ _) => unfold semver_eq; writes_auto
  | |- writes _ _ (semver_gt _ _) => unfold semver_gt; writes_auto
  | |- writes _ _ (getVersion _) => unfold getVersion; writes_auto
  | |- writes _ _ (if ?b then _ else _) => destruct b; writes_auto
  | |- writes _ _ (match ?x with _ => _ end) => destruct x; writes_auto
  | |- _ => try (apply writes_idle; idle_by_cases)
  end.

Lemma removelast_two {A} (l : list A) (a b : A) :
  removelast (l ++ [a; b]) = l ++ [a].
Proof.
  change (l ++ [a; b]) with (l ++ [a] ++ [b]).
  rewrite app_assoc. apply removelast_last.
Qed.

Lemma dirname_rollCache info v :
  path_dirname (rollCache_of info v)
  = path_join (cacheDir info) ["rolls"%string].
Proof. apply removelast_two. Qed.

Lemma writes_checkChance info v :
  writes
    (fun q => In q (ensureDir_directories
                      (path_join (cacheDir info) ["rolls"%string])))
    (fun q => q = rollCache_of info v)
    (checkChance info v).
Proof.
  unfold checkChance. fold (rollCache_of info v).
  rewrite dirname_rollCache.
  writes_auto.
  - apply writes_mkdirMaybe_each. apply Forall_forall. auto.
  - apply writes_writeFile. reflexivity.
Qed.

(* ================================================================= *)
(** * ensureDir and mkdirMaybe *)

Lemma mkdirMaybe_ok directory w :
  fst (mkdirMaybe directory w) = Ok tt ->
  fs (snd (mkdirMaybe directory w)) directory <> None.
Proof.
  unfold mkdirMaybe, catch, mkdir.
  destruct (fs w directory) as [n |] eqn:E; simpl.
  - intros _. rewrite E. discriminate.
  - destruct (creation_error w directory) as [c |] eqn:Hc; simpl.
    + destruct c; simpl; try discriminate.
      unfold creation_error in Hc.
      destruct (fs w (path_dirname directory)) as [[] |];
        try discriminate.
      destruct (denied w directory); discriminate.
    + intros _. rewrite fs_set_same. discriminate.
Qed.

Lemma mkdirMaybe_exists directory w :
  fs w directory <> None ->
  fst (mkdirMaybe directory w) = Ok tt /\
  fs (snd (mkdirMaybe directory w)) = fs w.
Proof.
  intros Hex. unfold mkdirMaybe, catch, mkdir.
  destruct (fs w directory) as [n |]; [| contradiction].
  split; reflexivity.
Qed.

(** What exists is still there, and as it was, after any number of
    [mkdirMaybe]. *)
Lemma mkdirMaybe_each_keeps dirs w p :
  fs w p <> None -> fs (snd (mkdirMaybe_each dirs w)) p = fs w p.
Proof.
  intros Hex.
  assert (W : writes (fun _ => True) no_path (mkdirMaybe_each dirs))
    by (apply writes_mkdirMaybe_each, Forall_forall; auto).
  destruct (W w) as [_ Hc].
  destruct (Hc p) as [E | [(_ & Hn & _) | ([] & _)]];
    [exact E | contradiction].
Qed.

Lemma mkdirMaybe_each_ok dirs w :
  fst (mkdirMaybe_each dirs w) = Ok tt ->
  forall d, In d dirs -> fs (snd (mkdirMaybe_each dirs w)) d <> None.
Proof.
  revert w. induction dirs as [| d0 dirs IH]; intros w Hok d Hin;
    [destruct Hin |].
  simpl in *. unfold bind in *.
  pose proof (mkdirMaybe_ok d0 w) as H0.
  destruct (mkdirMaybe d0 w) as [[[] | e |] w1]; simpl in *;
    try discriminate.
  destruct Hin as [<- | Hin]; [| now apply IH].
  rewrite mkdirMaybe_each_keeps by auto. auto.
Qed.

Lemma mkdirMaybe_each_exist dirs w :
  (forall d, In d dirs -> fs w d <> None) ->
  fst (mkdirMaybe_each dirs w) = Ok tt /\
  fs (snd (mkdirMaybe_each dirs w)) = fs w.
Proof.
  revert w. induction dirs as [| d0 dirs IH]; intros w Hex; simpl;
    [split; reflexivity |].
  unfold bind.
  destruct (mkdirMaybe_exists d0 w) as [H1 H2]; [apply Hex; now left |].
  destruct (mkdirMaybe d0 w) as [o w1]. simpl in H1, H2. subst o.
  destruct (IH w1) as [H3 H4].
  - intros d Hin. rewrite H2. apply Hex. now right.
  - split; [exact H3 | congruence].
Qed.

Lemma ensureDir_from_last directory (directories : list string) :
  directories <> [] ->
  In (directory ++ directories) (ensureDir_from directory directories).
Proof.
  revert directory.
  induction directories as [| d rest IH]; intros directory Hne;
    [contradiction |].
  simpl. destruct rest as [| d' rest'].
  - left. reflexivity.
  - right. specialize (IH (directory ++ [d]) ltac:(discriminate)).
    rewrite <- app_assoc in IH. exact IH.
Qed.

Lemma ensureDir_from_longer directory directories p :
  In p (ensureDir_from directory directories) ->
  (List.length directory < List.length p)%nat.
Proof.
  revert directory.
  induction directories as [| d rest IH]; intros directory Hin;
    [destruct Hin |].
  simpl in Hin. destruct Hin as [<- | Hin].
  - rewrite length_app. simpl. lia.
  - apply IH in Hin. rewrite length_app in Hin. simpl in Hin. lia.
Qed.

Lemma ensureDir_from_length directory rest p :
  In p (ensureDir_from directory rest) ->
  (List.length p <= List.length directory + List.length rest)%nat.
Proof.
  revert directory.
  induction rest as [| d rest IH]; intros directory; simpl; [tauto |].
  intros [<- | Hin].
  - rewrite length_app. simpl. lia.
  - apply IH in Hin. rewrite length_app in Hin. simpl in Hin. lia.
Qed.

(** X1.  Whatever its outcome, [ensureDir] changes nothing that exists:
    every path is as before, or is a directory that was missing and is a
    prefix, of two components at least, of the path it was given. *)
Theorem ensureDir_only_adds_directories dirPath w p :
  fs (snd (ensureDir dirPath w)) p = fs w p \/
  (In p (ensureDir_directories dirPath) /\
   (2 <= List.length p)%nat /\
   fs w p = None /\
   fs (snd (ensureDir dirPath w)) p = Some Dir).
Proof.
  assert (W : writes (fun q => In q (ensureDir_directories dirPath)) no_path
                (ensureDir dirPath))
    by (apply writes_mkdirMaybe_each, Forall_forall; auto).
  destruct (W w) as [_ Hc].
  destruct (Hc p) as [E | [(Hin & Hn & Hs) | ([] & _)]]; [now left |].
  right. repeat split; auto.
  destruct dirPath as [| d0 rest]; [destruct Hin |].
  apply ensureDir_from_longer in Hin. simpl in Hin. lia.
Qed.

(** X2.  When [ensureDir] resolves, the path it was given exists, and
    so does every prefix of it from the second component on; and a
    second call resolves too and changes nothing. *)
Theorem ensureDir_makes_the_path dirPath w :
  fst (ensureDir dirPath w) = Ok tt ->
  (forall d, In d (ensureDir_directories dirPath) ->
             fs (snd (ensureDir dirPath w)) d <> None) /\
  ((2 <= List.length dirPath)%nat ->
   fs (snd (ensureDir dirPath w)) dirPath <> None) /\
  fst (ensureDir dirPath (snd (ensureDir dirPath w))) = Ok tt /\
  fs (snd (ensureDir dirPath (snd (ensureDir dirPath w))))
  = fs (snd (ensureDir dirPath w)).
Proof.
  intros Hok. unfold ensureDir in *.
  pose proof (mkdirMaybe_each_ok _ _ Hok) as Hall.
  split; [exact Hall |]. split.
  - intros Hlen. apply Hall.
    destruct dirPath as [| d0 [| d1 rest]]; simpl in Hlen; try lia.
    apply (ensureDir_from_last [d0] (d1 :: rest)). discriminate.
  - now apply mkdirMaybe_each_exist.
Qed.

(** X3.  [ensureDir] never creates the first component of the path: a
    path of one component is left alone, and when the first component
    is missing the first [mkdir] fails with ENOENT and nothing is
    created. *)
Theorem ensureDir_skips_the_first_component d0 w :
  ensureDir [d0] w = (Ok tt, w) /\
  forall d1 rest,
    fs w [d0] = None ->
    fs w [d0; d1] = None ->
    fst (ensureDir (d0 :: d1 :: rest) w) = Throw (FsError ENOENT [d0; d1]) /\
    fs (snd (ensureDir (d0 :: d1 :: rest) w)) = fs w.
Proof.
  split; [reflexivity |].
  intros d1 rest H0 H1.
  unfold ensureDir. simpl. unfold bind, mkdirMaybe, catch, mkdir.
  simpl. rewrite H1. unfold creation_error. simpl. rewrite H0.
  split; reflexivity.
Qed.

Lemma ensureDir_makes_the_path_witness :
  (forall d,
     In d (ensureDir_directories ["C:"; "Cache"; "rolls"]%string) ->
     fs (snd (ensureDir ["C:"; "Cache"; "rolls"]%string
                (a_world a_disk (staged 30)))) d <> None) /\
  ((2 <= List.length ["C:"; "Cache"; "rolls"]%string)%nat ->
   fs (snd (ensureDir ["C:"; "Cache"; "rolls"]%string
              (a_world a_disk (staged 30))))
     ["C:"; "Cache"; "rolls"]%string <> None) /\
  fst (ensureDir ["C:"; "Cache"; "rolls"]%string
         (snd (ensureDir ["C:"; "Cache"; "rolls"]%string
                 (a_world a_disk (staged 30))))) = Ok tt /\
  fs (snd (ensureDir ["C:"; "Cache"; "rolls"]%string
             (snd (ensureDir ["C:"; "Cache"; "rolls"]%string
                     (a_world a_disk (staged 30))))))
  = fs (snd (ensureDir ["C:"; "Cache"; "rolls"]%string
               (a_world a_disk (staged 30)))).
Proof.
  apply (ensureDir_makes_the_path ["C:"; "Cache"; "rolls"]%string
           (a_world a_disk (staged 30))).
  vm_compute. reflexivity.
Defined.

Lemma ensureDir_skips_the_first_component_witness :
  fst (ensureDir ["cache"; "rolls"; "x"]%string (a_world a_disk (staged 30)))
  = Throw (FsError ENOENT ["cache"; "rolls"]%string) /\
  fs (snd (ensureDir ["cache"; "rolls"; "x"]%string
             (a_world a_disk (staged 30))))
  = fs (a_world a_disk (staged 30)).
Proof.
  apply (proj2 (ensureDir_skips_the_first_component "cache"%string
                  (a_world a_disk (staged 30)))
           "rolls"%string ["x"%string]);
    reflexivity.
Defined.

(* ================================================================= *)
(** * More on the rollout gate *)

(** Where the round trip ends: from [1e21] on a template literal is in
    exponent notation, of which [parseInt] reads the digits before the
    point; and a cache file of more digits than a number holds reads
    back rounded. *)
Lemma large_rolls_do_not_read_back :
  toString (10 ^ 21) = "1e+21"%string /\
  parseInt (toString (10 ^ 21)) = Num 1 /\
  toString (2 ^ 64) = "18446744073709552000"%string /\
  parseInt "9007199254740993" = Num 9007199254740992.
Proof. repeat split; vm_compute; reflexivity. Qed.

(** X4.  The roll cache round trip: once [`${roll}`] has been written to
    the cache file, [getPreviousRoll] resolves to [roll], for every
    integer [roll] that is safe (at most MAX_SAFE_INTEGER in absolute
    value), and leaves the disk as it found it. *)
Theorem written_roll_is_read_back cacheFile v roll w :
  Z.abs roll <= MAX_SAFE_INTEGER ->
  fst (writeFile cacheFile (toString roll) w) = Ok tt ->
  fst (getPreviousRoll cacheFile v
         (snd (writeFile cacheFile (toString roll) w))) = Ok roll /\
  fs (snd (getPreviousRoll cacheFile v
             (snd (writeFile cacheFile (toString roll) w))))
  = fs (snd (writeFile cacheFile (toString roll) w)).
Proof.
  intros Hsafe Hw.
  assert (Hfile : fs (snd (writeFile cacheFile (toString roll) w)) cacheFile
                  = Some (File (toString roll))).
  { unfold writeFile in *.
    destruct (write_error w cacheFile); simpl in *; [discriminate |].
    apply fs_set_same. }
  destruct (getPreviousRoll_run cacheFile v
              (snd (writeFile cacheFile (toString roll) w))) as [t ->].
  split; [| reflexivity].
  simpl. unfold stored_roll.
  rewrite Hfile, parseInt_toString_safe by exact Hsafe.
  reflexivity.
Qed.

Lemma written_roll_is_read_back_witness :
  fst (getPreviousRoll ["C:"; "Cache"; "r"]%string "1.2.0"
         (snd (writeFile ["C:"; "Cache"; "r"]%string (toString (-7))
                 (a_world a_disk (staged 30))))) = Ok (-7) /\
  fs (snd (getPreviousRoll ["C:"; "Cache"; "r"]%string "1.2.0"
             (snd (writeFile ["C:"; "Cache"; "r"]%string (toString (-7))
                     (a_world a_disk (staged 30))))))
  = fs (snd (writeFile ["C:"; "Cache"; "r"]%string (toString (-7))
               (a_world a_disk (staged 30)))).
Proof.
  apply (written_roll_is_read_back ["C:"; "Cache"; "r"]%string "1.2.0"
           (-7) (a_world a_disk (staged 30))).
  - vm_compute. discriminate.
  - vm_compute. reflexivity.
Defined.

(** What ToNumber makes of text: the literals of the language are
    numbers, whatever their notation, and nothing is 0. *)
Lemma numeric_text_is_a_number :
  map string_floor ["0x64"; "1e2"; "100.0"; " 100 "; EmptyString; "99.5"]%string
  = [Num 100; Num 100; Num 100; Num 100; Num 0; Num 99] /\
  string_floor "Infinity" = Num (2 ^ 1024) /\
  map string_floor ["abc"; "12px"; "0x"; "1e"; "."]%string
  = [NaN; NaN; NaN; NaN; NaN].
Proof. repeat split; vm_compute; reflexivity. Qed.

(** X5.  With the chance file there, a [chance] that ToNumber turns
    into NaN (one that is absent from the object, text that is no
    numeric literal, an object) never lets the update through: the
    gate, if it returns, returns false. *)
Theorem chance_that_is_no_number info v w r body chance b w' :
  net w (chance_request info v) = Responds r ->
  statusCode r = 200 ->
  parsed r = Some body ->
  property body "chance" = Some chance ->
  floor_ToNumber chance = NaN ->
  checkChance info v w = (Ok b, w') ->
  b = false.
Proof.
  intros Hnet Hst Hbody Hprop Hnan Hrun.
  destruct (checkChance_returns _ _ _ _ _ _ Hnet Hst Hrun)
    as (body' & chance' & roll & Hb & Hp & _ & Hdec & _).
  rewrite Hbody in Hb. inversion Hb; subst body'.
  rewrite Hprop in Hp. inversion Hp; subst chance'.
  unfold js_le in Hdec.
  destruct (unconvertible chance);
    [discriminate (f_equal (fun m => fst (m w)) Hdec) |].
  rewrite Hnan in Hdec. apply ret_eq in Hdec. now subst b.
Qed.

Lemma chance_that_is_no_number_witness : false = false.
Proof.
  apply (chance_that_is_no_number an_info "1.2.0"
           (a_world (cached_disk "1")
              (server (version_descriptor "1.2.0")
                 (responds 200 ["{}"%string] (Some (JObj FNil)))
                 an_updater))
           {| statusCode := 200; content_length := None;
              chunks := ["{}"%string]; parsed := Some (JObj FNil) |}
           (JObj FNil) JUndefined false
           (snd (checkChance an_info "1.2.0"
                   (a_world (cached_disk "1")
                      (server (version_descriptor "1.2.0")
                         (responds 200 ["{}"%string] (Some (JObj FNil)))
                         an_updater)))));
    evaluate.
Defined.

(** X6.  Whatever its outcome, the gate changes nothing on disk but
    this: it may create missing directories on the way to
    [cacheDir/rolls], and it may write the roll file of the version. *)
Theorem checkChance_writes_only_the_roll_cache info v w p :
  fs (snd (checkChance info v w)) p = fs w p \/
  (In p (ensureDir_directories (path_join (cacheDir info) ["rolls"%string]))
   /\ fs w p = None
   /\ fs (snd (checkChance info v w)) p = Some Dir) \/
  (p = rollCache_of info v /\
   exists c, fs (snd (checkChance info v w)) p = Some (File c)).
Proof. exact (proj2 (writes_checkChance info v w) p). Qed.

(* ================================================================= *)
(** * More on the download *)

Lemma receive_without_length file p1 p2 accum body w :
  receive file None p1 accum body w = receive file None p2 accum body w.
Proof.
  revert accum w. induction body as [| chunk body IH]; intros accum w;
    simpl; [reflexivity |].
  unfold bind, ret. simpl. apply IH.
Qed.

(** X7.  Progress is reported for a response of status 200 that carries
    a Content-Length only: without it, the download does not depend on
    the progress callback at all. *)
Theorem progress_needs_content_length info p1 p2 w :
  (forall r, net w (updater_request info) = Responds r ->
             statusCode r = 200 -> content_length r = None) ->
  fetchUpdater info p1 w = fetchUpdater info p2 w.
Proof.
  intros Hlen. unfold fetchUpdater.
  fold (updater_request info). fold (updaterPath_of info).
  unfold bind, emit, get_net.
  set (w1 := with_trace (EvRequest (updater_request info) :: trace w) w).
  pose proof (keeps_outStream_opens quiet quiet_quiet (updaterPath_of info) w1)
    as [Hn _].
  destruct (outStream_opens (updaterPath_of info) w1) as [[[c |] | e |] w2];
    try reflexivity.
  simpl in Hn. rewrite Hn. subst w1. simpl.
  destruct (net w (updater_request info)) as [| r] eqn:Hnet; [reflexivity |].
  destruct (statusCode r =? 200) eqn:Hst; [| reflexivity].
  apply Z.eqb_eq in Hst. simpl.
  rewrite (Hlen r eq_refl Hst).
  rewrite (receive_without_length (updaterPath_of info) p1 p2).
  reflexivity.
Qed.

Lemma progress_needs_content_length_witness :
  fetchUpdater an_info (fun a t => emit (EvSend a t))
    (a_newer_world an_updater)
  = fetchUpdater an_info (fun _ _ => throw WindowError)
      (a_newer_world an_updater).
Proof.
  apply (progress_needs_content_length an_info).
  intros r Hr _. vm_compute in Hr. inversion Hr. reflexivity.
Defined.

Lemma concat_empty_cons (x : string) (xs : list string) :
  String.concat EmptyString (x :: xs)
  = (x ++ String.concat EmptyString xs)%string.
Proof.
  destruct xs as [| y ys]; simpl; [| reflexivity].
  clear. induction x as [| c x IH]; simpl; [reflexivity | now rewrite <- IH].
Qed.

Lemma append_assoc (a b c : string) : ((a ++ b) ++ c = a ++ (b ++ c))%string.
Proof. induction a as [| x a IH]; simpl; [reflexivity | now rewrite IH]. Qed.

Lemma receive_appends file contentLength progress accum body w c :
  (forall a t u, fst (progress a t u) = Ok tt /\
                 fs (snd (progress a t u)) = fs u) ->
  fs w file = Some (File c) ->
  fs (snd (receive file contentLength progress accum body w)) file
  = Some (File (c ++ String.concat EmptyString body)).
Proof.
  intros Hp. revert accum w c.
  induction body as [| chunk body IH]; intros accum w c Hfile.
  - simpl. rewrite Hfile. f_equal. f_equal.
    clear. induction c as [| x c IH]; simpl; [reflexivity | now rewrite <- IH].
  - cbn [receive]. rewrite concat_empty_cons, <- append_assoc.
    destruct contentLength as [total |].
    + unfold bind at 1, on_data.
      destruct (Hp (accum + Z.of_nat (String.length chunk)) total w)
        as [H1 H2].
      destruct (progress (accum + Z.of_nat (String.length chunk)) total w)
        as [o u]. simpl in H1, H2. subst o.
      unfold bind at 1, stream_write.
      apply IH. simpl. rewrite fs_set_same, H2, Hfile. reflexivity.
    + unfold bind at 1, ret. unfold bind at 1, stream_write.
      apply IH. simpl. rewrite fs_set_same, Hfile. reflexivity.
Qed.

Lemma serve_detached_keeps w p :
  fs w p <> None -> fs (snd (serve_detached w)) p = fs w p.
Proof.
  intros Hex. unfold serve_detached.
  destruct (detached w) as [| d rest]; [reflexivity |].
  destruct (writes_mkdirMaybe (fun _ => True) no_path d I
              (with_detached rest w)) as [_ Hc].
  specialize (Hc p).
  destruct (mkdirMaybe d (with_detached rest w)) as [[[] | e |] w1];
    simpl in *;
    destruct Hc as [E | [(_ & Hn & _) | ([] & _)]];
    solve [exact E | contradiction].
Qed.

Lemma serve_detached_n_keeps n w p :
  fs w p <> None -> fs (snd (serve_detached_n n w)) p = fs w p.
Proof.
  revert w. induction n as [| n IH]; intros w Hex; simpl; [reflexivity |].
  unfold bind. pose proof (serve_detached_ok w) as Hok.
  pose proof (serve_detached_keeps w p Hex) as Hk.
  destruct (serve_detached w) as [o w1]. simpl in *. subst o.
  rewrite IH; congruence.
Qed.

(** X8.  A download that resolves, resolves to [tempDir] joined with
    [latest-updater.exe], after a response of status 200, and that file
    then holds the whole body of the response, chunk after chunk. *)
Theorem fetchUpdater_resolves_with_the_body info progress w p w' :
  (forall a t u, fst (progress a t u) = Ok tt /\
                 fs (snd (progress a t u)) = fs u) ->
  fetchUpdater info progress w = (Ok p, w') ->
  p = updaterPath_of info /\
  exists r,
    net w (updater_request info) = Responds r /\
    statusCode r = 200 /\
    fs w' p = Some (File (String.concat EmptyString (chunks r))).
Proof.
  intros Hp Hrun. unfold fetchUpdater in Hrun.
  fold (updater_request info) in Hrun. fold (updaterPath_of info) in Hrun.
  unfold bind at 1, emit in Hrun.
  set (w1 := with_trace (EvRequest (updater_request info) :: trace w) w)
    in Hrun.
  unfold bind at 1 in Hrun.
  pose proof (keeps_outStream_opens quiet quiet_quiet (updaterPath_of info) w1)
    as [Hn _].
  assert (Hopened : fst (outStream_opens (updaterPath_of info) w1) = Ok None ->
    fs (snd (outStream_opens (updaterPath_of info) w1)) (updaterPath_of info)
    = Some (File EmptyString)).
  { unfold outStream_opens, bind.
    pose proof (serve_detached_n_ok (openAfter w1) w1) as H1.
    destruct (serve_detached_n (openAfter w1) w1) as [o1 u1].
    simpl in H1. subst o1.
    unfold open_stream.
    destruct (write_error u1 (updaterPath_of info)); simpl.
    - match goal with
      | |- context [serve_detached_n ?n ?u] =>
          pose proof (serve_detached_n_ok n u) as H3;
          destruct (serve_detached_n n u) as [o3 u3]
      end.
      simpl in H3. subst o3. simpl. discriminate.
    - match goal with
      | |- context [serve_detached_n ?n ?u] =>
          pose proof (serve_detached_n_ok n u) as H3;
          pose proof (serve_detached_n_keeps n u (updaterPath_of info)) as H4;
          destruct (serve_detached_n n u) as [o3 u3]
      end.
      simpl in H3, H4. subst o3. simpl. intros _.
      rewrite H4; rewrite fs_set_same; [reflexivity | discriminate]. }
  destruct (outStream_opens (updaterPath_of info) w1) as [[[c |] | e |] w2];
    try discriminate.
  simpl in Hn, Hopened. specialize (Hopened eq_refl).
  unfold bind at 1, get_net in Hrun. rewrite Hn in Hrun.
  subst w1. simpl in Hrun.
  destruct (net w (updater_request info)) as [| r] eqn:Hnet;
    [discriminate |].
  destruct (statusCode r =? 200) eqn:Hst; simpl in Hrun.
  - apply Z.eqb_eq in Hst. unfold bind in Hrun.
    pose proof (receive_appends (updaterPath_of info) (content_length r)
                  progress 0 (chunks r) w2 EmptyString Hp Hopened) as Hbody.
    destruct (receive (updaterPath_of info) (content_length r) progress 0
                (chunks r) w2) as [[[] | e |] w3]; try discriminate.
    unfold get_bodyEnds, emit, pending in Hrun.
    destruct (bodyEnds w3); try discriminate.
    inversion Hrun; subst p w'. split; [reflexivity |].
    exists r. auto.
  - unfold bind in Hrun.
    destruct (pipe (updaterPath_of info) (chunks r) w2) as [[[] | e |] w3];
      discriminate.
Qed.

Lemma send_progress_is_harmless a t u :
  fst (send_progress a t u) = Ok tt /\ fs (snd (send_progress a t u)) = fs u.
Proof. unfold send_progress. destruct (statusWindow u); split; reflexivity. Qed.

Lemma fetchUpdater_resolves_with_the_body_witness :
  updaterPath_of an_info = updaterPath_of an_info /\
  exists r,
    net (a_newer_world an_updater) (updater_request an_info) = Responds r /\
    statusCode r = 200 /\
    fs (snd (fetchUpdater an_info send_progress (a_newer_world an_updater)))
      (updaterPath_of an_info)
    = Some (File (String.concat EmptyString (chunks r))).
Proof.
  apply (fetchUpdater_resolves_with_the_body an_info send_progress
           (a_newer_world an_updater) (updaterPath_of an_info)
           (snd (fetchUpdater an_info send_progress
                   (a_newer_world an_updater)))).
  - apply send_progress_is_harmless.
  - evaluate.
Defined.

(* ================================================================= *)
(** * What stays as it is during a run *)

Lemma preserves_bind {X} (f : World -> X) {A B} (m : M A) (k : A -> M B) :
  preserves f m -> (forall a, preserves f (k a)) -> preserves f (bind m k).
Proof.
  intros Pm Pk w. unfold bind. specialize (Pm w).
  destruct (m w) as [[a | e |] w1]; simpl in *; auto.
  rewrite Pk. exact Pm.
Qed.

Lemma preserves_catch {X} (f : World -> X) {A} (m : M A) (h : Exn -> M A) :
  preserves f m -> (forall e, preserves f (h e)) -> preserves f (catch m h).
Proof.
  intros Pm Ph w. unfold catch. specialize (Pm w).
  destruct (m w) as [[a | e |] w1]; simpl in *; auto.
  rewrite Ph. exact Pm.
Qed.

Lemma preserves_attempt {X} (f : World -> X) {A} (m : M A) :
  preserves f m -> preserves f (attempt m).
Proof.
  intros Pm w. unfold attempt. specialize (Pm w).
  destruct (m w) as [[a | e |] w1]; simpl in *; auto.
Qed.

(** A step that leaves the window, [cp.spawn] and the refusals of the
    file system alone: unfold it and look at every case. *)
Ltac still_by_cases :=
  let u := fresh "u" in
  intros u; cbv beta zeta delta
    [ret throw pending emit console_log mkdir readFile writeFile open_stream
     stream_write Math_random get_net ensureDir_detached spawn JSON_parse
     get_prop semver_cmp call_method send_progress js_le template get_bodyEnds];
  repeat match goal with
         | |- context [match ?x with _ => _ end] => destruct x
         | |- context [if ?x then _ else _] => destruct x
         end;
  reflexivity.

Lemma still_mkdirMaybe_each dirs : preserves backdrop (mkdirMaybe_each dirs).
Proof.
  induction dirs as [| d dirs IH]; simpl; [still_by_cases |].
  apply preserves_bind; [| intros _; exact IH].
  apply preserves_catch; [still_by_cases |].
  intros [[] ? | | | | | |]; still_by_cases.
Qed.

Lemma still_serve_detached : preserves backdrop serve_detached.
Proof.
  intros w. unfold serve_detached.
  destruct (detached w) as [| d rest]; [reflexivity |].
  pose proof (still_mkdirMaybe_each [d] (with_detached rest w)) as H.
  simpl in H. unfold bind in H.
  destruct (mkdirMaybe d (with_detached rest w)) as [[[] | e |] w1];
    simpl in *; exact H.
Qed.

Lemma still_serve_detached_n n : preserves backdrop (serve_detached_n n).
Proof.
  induction n as [| n IH]; simpl; [still_by_cases |].
  apply preserves_bind; [apply still_serve_detached | intros _; exact IH].
Qed.

Lemma still_outStream_opens file : preserves backdrop (outStream_opens file).
Proof.
  intros w. unfold outStream_opens.
  match goal with
  | |- backdrop (snd (?m w)) = _ =>
      assert (P : preserves backdrop m); [| exact (P w)]
  end.
  apply preserves_bind; [apply still_serve_detached_n | intros _].
  apply preserves_bind; [still_by_cases | intros err].
  apply preserves_bind; [| intros _; still_by_cases].
  intros u. apply still_serve_detached_n.
Qed.

Lemma still_pipe file body : preserves backdrop (pipe file body).
Proof.
  induction body as [| chunk body IH]; simpl; [still_by_cases |].
  apply preserves_bind; [still_by_cases | intros _; exact IH].
Qed.

Lemma still_on_data listener :
  preserves backdrop listener -> preserves backdrop (on_data listener).
Proof.
  intros Hl w. unfold on_data. specialize (Hl w).
  destruct (listener w) as [[[] | e |] w1]; exact Hl.
Qed.

Lemma still_receive file contentLength progress accum body :
  (forall a t, preserves backdrop (progress a t)) ->
  preserves backdrop (receive file contentLength progress accum body).
Proof.
  intros Hp. revert accum.
  induction body as [| chunk body IH]; intros accum; simpl;
    [still_by_cases |].
  apply preserves_bind.
  - destruct contentLength; [apply still_on_data, Hp | still_by_cases].
  - intros piped. apply preserves_bind; [| intros _; apply IH].
    destruct piped; still_by_cases.
Qed.

Lemma still_push_pids pids updaterArgs :
  preserves backdrop (push_pids pids updaterArgs).
Proof.
  revert updaterArgs.
  induction pids as [| pid pids IH]; intros updaterArgs; simpl;
    [still_by_cases |].
  apply preserves_bind; [still_by_cases | intros a1].
  apply preserves_bind; [still_by_cases | intros a2; apply IH].
Qed.

(** Takes a computation apart down to steps that can be looked at case
    by case. *)
Ltac still_auto :=
  cbv beta zeta;
  lazymatch goal with
  | |- preserves _ (bind _ _) => apply preserves_bind; [| intro]; still_auto
  | |- preserves _ (catch _ _) => apply preserves_catch; [| intro]; still_auto
  | |- preserves _ (attempt _) => apply preserves_attempt; still_auto
  | |- preserves _ (prequest _) => unfold prequest; still_auto
  | |- preserves _ (getPreviousRoll _ _) =>
      unfold getPreviousRoll; still_auto
  | |- preserves _ (semver_eq _ _) => unfold semver_eq; still_auto
  | |- preserves _ (semver_gt _ _) => unfold semver_gt; still_auto
  | |- preserves _ (getVersion _) => unfold getVersion; still_auto
  | |- preserves _ (checkChance _ _) => unfold checkChance; still_auto
  | |- preserves _ (fetchUpdater _ _) => unfold fetchUpdater; still_auto
  | |- preserves _ (ensureDir _) => apply still_mkdirMaybe_each
  | |- preserves _ (outStream_opens _) => apply still_outStream_opens
  | |- preserves _ (pipe _ _) => apply still_pipe
  | |- preserves _ (receive _ _ _ _ _) =>
      apply still_receive; intros; still_by_cases
  | |- preserves _ (push_pids _ _) => apply still_push_pids
  | |- preserves _ (if ?b then _ else _) => destruct b; still_auto
  | |- preserves _ (match ?x with _ => _ end) => destruct x; still_auto
  | |- _ => try still_by_cases
  end.

Lemma still_getVersion info : preserves backdrop (getVersion info).
Proof. still_auto. Qed.

Lemma still_semver_eq a b : preserves backdrop (semver_eq a b).
Proof. still_auto. Qed.

Lemma still_semver_gt a b : preserves backdrop (semver_gt a b).
Proof. still_auto. Qed.

Lemma still_checkChance info v : preserves backdrop (checkChance info v).
Proof. still_auto. Qed.

Lemma still_fetchUpdater info :
  preserves backdrop (fetchUpdater info send_progress).
Proof. still_auto. Qed.

(* ================================================================= *)
(** * The roll cache *)

(** [ensureDir] creates what is missing: from a directory that exists,
    every directory further down the path that is there already or
    that may be created is there afterwards. *)
Lemma ensureDir_from_creates (rest : list string) :
  forall directory w,
    fs w directory = Some Dir ->
    (forall d, In d (ensureDir_from directory rest) ->
               fs w d = Some Dir \/ (fs w d = None /\ denied w d = false)) ->
    fst (mkdirMaybe_each (ensureDir_from directory rest) w) = Ok tt /\
    forall d, In d (ensureDir_from directory rest) ->
              fs (snd (mkdirMaybe_each (ensureDir_from directory rest) w)) d
              = Some Dir.
Proof.
  induction rest as [| a rest IH]; intros directory w Hdir Hall.
  - split; [reflexivity | intros d []].
  - cbn [ensureDir_from mkdirMaybe_each] in *. unfold bind.
    assert (H1 :
      fst (mkdirMaybe (directory ++ [a]) w) = Ok tt /\
      fs (snd (mkdirMaybe (directory ++ [a]) w)) (directory ++ [a])
      = Some Dir /\
      (forall p, p <> directory ++ [a] ->
                 fs (snd (mkdirMaybe (directory ++ [a]) w)) p = fs w p) /\
      denied (snd (mkdirMaybe (directory ++ [a]) w)) = denied w).
    { destruct (Hall (directory ++ [a]) (or_introl eq_refl))
        as [Hd | [Hn Hden]];
        unfold mkdirMaybe, catch, mkdir.
      - rewrite Hd. simpl. repeat split; auto.
      - rewrite Hn. unfold creation_error, path_dirname.
        rewrite removelast_last, Hdir, Hden. simpl.
        repeat split; [apply fs_set_same |].
        intros p Hp. now apply fs_set_other. }
    destruct H1 as (Hok & Hnew & Hother & Hden).
    destruct (mkdirMaybe (directory ++ [a]) w) as [o w1].
    simpl in Hok, Hnew, Hother, Hden. subst o.
    destruct (IH (directory ++ [a]) w1 Hnew) as [Hok' Hall'].
    { intros d Hin.
      assert (Hne : d <> directory ++ [a]).
      { intros ->. apply ensureDir_from_longer in Hin. lia. }
      rewrite (Hother d Hne), Hden. apply Hall. now right. }
    split; [exact Hok' |].
    intros d [<- | Hin]; [| now apply Hall'].
    rewrite mkdirMaybe_each_keeps by (rewrite Hnew; discriminate).
    exact Hnew.
Qed.

Lemma rollCache_is_no_directory_of_the_path info v :
  ~ In (rollCache_of info v)
      (ensureDir_directories (path_join (cacheDir info) ["rolls"%string])).
Proof.
  unfold rollCache_of, path_join, ensureDir_directories.
  destruct (cacheDir info ++ ["rolls"%string]) as [| d0 rest] eqn:E;
    [tauto |].
  intros Hin. apply ensureDir_from_length in Hin.
  assert (Hlen : List.length (cacheDir info ++ ["rolls"%string; v])
                 = S (List.length (d0 :: rest))).
  { rewrite <- E, !length_app. simpl. lia. }
  rewrite Hlen in Hin. simpl in Hin. lia.
Qed.

(** A fresh roll is written down before the gate returns: with no roll
    in the cache, a chance that can be printed and compared, and a disk
    that lets the directories and the file be made, the gate returns,
    the directories down to [cacheDir/rolls] are there and the cache
    file holds the roll. *)
Lemma checkChance_persists info v w r body chance :
  net w (chance_request info v) = Responds r ->
  statusCode r = 200 ->
  parsed r = Some body ->
  property body "chance" = Some chance ->
  unconvertible chance = false ->
  stored_roll w (rollCache_of info v) = 0 ->
  fs w (rollCache_of info v) <> Some Dir ->
  denied w (rollCache_of info v) = false ->
  fs w (firstn 1 (path_join (cacheDir info) ["rolls"%string])) = Some Dir ->
  (forall d,
     In d (ensureDir_directories (path_join (cacheDir info) ["rolls"%string])) ->
     fs w d = Some Dir \/ (fs w d = None /\ denied w d = false)) ->
  exists b u,
    checkChance info v w = (Ok b, u) /\
    (forall d,
       In d (ensureDir_directories
               (path_join (cacheDir info) ["rolls"%string])) ->
       fs u d = Some Dir) /\
    fs u (rollCache_of info v)
    = Some (File (toString (d100 (random w (drawn w))))).
Proof.
  intros Hnet Hstatus Hbody Hprop Hconv Hzero Hfile Hden Hroot Hall.
  unfold checkChance. fold (chance_request info v).
  fold (rollCache_of info v).
  unfold bind at 1. unfold prequest, bind at 1, emit.
  simpl. rewrite Hnet, Hstatus. simpl.
  unfold bind at 1. unfold JSON_parse. rewrite Hbody. unfold ret at 1.
  unfold bind at 1.
  set (w1 := with_trace (EvRequest (chance_request info v) :: trace w) w).
  unfold get_prop at 1. rewrite Hprop. unfold ret at 1.
  unfold bind at 1. unfold template. rewrite Hconv. unfold ret at 1.
  unfold bind at 1, console_log, emit.
  set (w2 := with_trace (EvLog (LogChance chance) :: trace w1) w1).
  unfold bind at 1.
  destruct (getPreviousRoll_run (rollCache_of info v) v w2) as [t Hprev].
  rewrite Hprev.
  assert (Hstored : stored_roll w2 (rollCache_of info v)
                    = stored_roll w (rollCache_of info v)) by reflexivity.
  rewrite Hstored, Hzero.
  set (w3 := with_trace (t ++ trace w2) w2).
  unfold bind at 1. change (0 =? 0) with true. cbv iota.
  unfold bind at 1. unfold Math_random at 1.
  change (random w3 (drawn w3)) with (random w (drawn w)).
  set (roll := d100 (random w (drawn w))).
  set (w4 := with_drawn (S (drawn w3)) w3).
  unfold bind at 1. unfold ensureDir. rewrite dirname_rollCache.
  (* the directories *)
  assert (Hdirs :
    fst (mkdirMaybe_each
           (ensureDir_directories
              (path_join (cacheDir info) ["rolls"%string])) w4) = Ok tt /\
    forall d,
      In d (ensureDir_directories
              (path_join (cacheDir info) ["rolls"%string])) ->
      fs (snd (mkdirMaybe_each
                 (ensureDir_directories
                    (path_join (cacheDir info) ["rolls"%string])) w4)) d
      = Some Dir).
  { unfold ensureDir_directories in *.
    destruct (path_join (cacheDir info) ["rolls"%string]) as [| d0 rest];
      [split; [reflexivity | intros d []] |].
    apply ensureDir_from_creates; [exact Hroot | exact Hall]. }
  destruct Hdirs as [Hok Hmade].
  pose proof (writes_mkdirMaybe_each
                (fun q => In q (ensureDir_directories
                                  (path_join (cacheDir info)
                                     ["rolls"%string])))
                no_path
                (ensureDir_directories
                   (path_join (cacheDir info) ["rolls"%string]))
                ltac:(apply Forall_forall; auto) w4) as [_ Hchange].
  pose proof (still_mkdirMaybe_each
                (ensureDir_directories
                   (path_join (cacheDir info) ["rolls"%string])) w4)
    as Hback.
  destruct (mkdirMaybe_each
              (ensureDir_directories
                 (path_join (cacheDir info) ["rolls"%string])) w4)
    as [o w5].
  simpl in Hok, Hmade, Hchange, Hback. subst o.
  (* the file *)
  assert (Hsame : forall p,
    ~ In p (ensureDir_directories
              (path_join (cacheDir info) ["rolls"%string])) ->
    fs w5 p = fs w p).
  { intros p Hp.
    destruct (Hchange p) as [E | [(Hin & _) | ([] & _)]];
      [exact E | contradiction]. }
  assert (Hparent :
    fs w5 (path_join (cacheDir info) ["rolls"%string]) = Some Dir).
  { destruct (in_dec path_eq_dec
                (path_join (cacheDir info) ["rolls"%string])
                (ensureDir_directories
                   (path_join (cacheDir info) ["rolls"%string])))
      as [Hin | Hout]; [now apply Hmade |].
    rewrite (Hsame _ Hout).
    unfold ensureDir_directories in Hout.
    destruct (path_join (cacheDir info) ["rolls"%string])
      as [| d0 [| d1 rest]] eqn:E.
    - unfold path_join in E. destruct (cacheDir info); discriminate.
    - exact Hroot.
    - exfalso. apply Hout.
      apply (ensureDir_from_last [d0] (d1 :: rest)). discriminate. }
  assert (Hwrite : write_error w5 (rollCache_of info v) = None).
  { unfold write_error, creation_error.
    rewrite (Hsame _ (rollCache_is_no_directory_of_the_path info v)).
    rewrite dirname_rollCache, Hparent.
    assert (Hd5 : denied w5 = denied w).
    { unfold backdrop in Hback. simpl in Hback. congruence. }
    rewrite Hd5, Hden.
    destruct (fs w (rollCache_of info v)) as [[c |] |];
      try reflexivity. now elim Hfile. }
  unfold bind at 1. unfold writeFile at 1. rewrite Hwrite. cbv zeta iota.
  unfold bind at 1, emit. cbv beta iota.
  unfold ret at 1. cbv beta iota.
  unfold bind at 1. unfold js_le. rewrite Hconv. unfold ret at 1.
  match goal with
  | |- context [if ?c then ret true else ret false] => exists c
  end.
  eexists. split; [| split].
  - match goal with
    | |- context [if ?c then ret true else ret false] => destruct c
    end; reflexivity.
  - intros d Hin. simpl.
    rewrite fs_set_other; [now apply Hmade |].
    intros ->. exact (rollCache_is_no_directory_of_the_path info v Hin).
  - simpl. apply fs_set_same.
Qed.

(** C6, as the code has it.  When the gate returns with the chance file
    there: a number other than 0 at the start of the cache file is
    reused as the roll, whatever its range, and the disk stays as it is;
    otherwise (no file, or content that starts with no number or
    amounts to 0) the roll is drawn afresh, lies between 1 and 100, and the
    cache file holds it once the gate has returned.  And the gate does
    get that far: with no roll in the cache and a chance that can be
    printed and compared, where the first component of the path to
    [cacheDir/rolls] is a directory, each directory further down is
    there or may be created, and the cache file may be written, the
    gate returns, having created the directories as needed and left
    the roll in the file. *)
Theorem roll_cache_policy info v w r :
  net w (chance_request info v) = Responds r ->
  statusCode r = 200 ->
  (forall b w' roll,
     checkChance info v w = (Ok b, w') ->
     last_event w' = Some (EvLog (LogRolled roll)) ->
     (stored_roll w (rollCache_of info v) <> 0 ->
      roll = stored_roll w (rollCache_of info v) /\ fs w' = fs w) /\
     (stored_roll w (rollCache_of info v) = 0 ->
      1 <= roll <= 100 /\
      fs w' (rollCache_of info v) = Some (File (toString roll)))) /\
  (forall body chance,
     parsed r = Some body ->
     property body "chance" = Some chance ->
     unconvertible chance = false ->
     stored_roll w (rollCache_of info v) = 0 ->
     fs w (rollCache_of info v) <> Some Dir ->
     denied w (rollCache_of info v) = false ->
     fs w (firstn 1 (path_join (cacheDir info) ["rolls"%string]))
     = Some Dir ->
     (forall d,
        In d (ensureDir_directories
                (path_join (cacheDir info) ["rolls"%string])) ->
        fs w d = Some Dir \/ (fs w d = None /\ denied w d = false)) ->
     exists b u,
       checkChance info v w = (Ok b, u) /\
       1 <= d100 (random w (drawn w)) <= 100 /\
       (forall d,
          In d (ensureDir_directories
                  (path_join (cacheDir info) ["rolls"%string])) ->
          fs u d = Some Dir) /\
       fs u (rollCache_of info v)
       = Some (File (toString (d100 (random w (drawn w)))))).
Proof.
  intros Hnet Hstatus. split.
  - intros b w' roll Hrun Hlast.
    destruct (checkChance_returns _ _ _ _ _ _ Hnet Hstatus Hrun)
      as (body & chance & roll' & _ & _ & Hl & _ & Hcases).
    pose proof (last_event_eq _ _ _ Hl Hlast) as E.
    inversion E; subst roll'; clear E.
    destruct Hcases as [(Hs & Hr & Hfs) | (Hs & Hr & Hfs)].
    + split; [intros _; split; assumption | intros Hz; contradiction].
    + split; [intros Hz; contradiction |].
      intros _. split; [| exact Hfs].
      subst roll. apply d100_range.
  - intros body chance Hbody Hprop Hconv Hzero Hfile Hden Hroot Hall.
    destruct (checkChance_persists info v w r body chance
                Hnet Hstatus Hbody Hprop Hconv Hzero Hfile Hden Hroot Hall)
      as (b & u & Hrun & Hdirs & Hroll).
    exists b, u. repeat split; auto; apply d100_range.
Qed.

Lemma roll_cache_policy_witness :
  (forall b w' roll,
     checkChance an_info "1.2.0" (a_world a_disk (staged 30)) = (Ok b, w') ->
     last_event w' = Some (EvLog (LogRolled roll)) ->
     (stored_roll (a_world a_disk (staged 30))
        (rollCache_of an_info "1.2.0") <> 0 ->
      roll = stored_roll (a_world a_disk (staged 30))
               (rollCache_of an_info "1.2.0")
      /\ fs w' = fs (a_world a_disk (staged 30))) /\
     (stored_roll (a_world a_disk (staged 30))
        (rollCache_of an_info "1.2.0") = 0 ->
      1 <= roll <= 100 /\
      fs w' (rollCache_of an_info "1.2.0") = Some (File (toString roll)))) /\
  exists b u,
    checkChance an_info "1.2.0" (a_world a_disk (staged 30)) = (Ok b, u) /\
    1 <= d100 (random (a_world a_disk (staged 30))
                 (drawn (a_world a_disk (staged 30)))) <= 100 /\
    (forall d,
       In d (ensureDir_directories
               (path_join (cacheDir an_info) ["rolls"%string])) ->
       fs u d = Some Dir) /\
    fs u (rollCache_of an_info "1.2.0")
    = Some (File (toString (d100 (random (a_world a_disk (staged 30))
                                    (drawn (a_world a_disk (staged 30))))))).
Proof.
  destruct (roll_cache_policy an_info "1.2.0" (a_world a_disk (staged 30))
              (chance_response 30) eq_refl eq_refl) as [Hreturned Hpersists].
  split; [exact Hreturned |].
  apply (Hpersists (JObj (FCons "chance" (JNum 30) FNil)) (JNum 30));
    try reflexivity.
  - discriminate.
  - intros d [<- | [<- | []]]; [left | right; split]; reflexivity.
Defined.

(** On a disk that has [C:\Cache] and no [rolls] in it, the gate makes
    the directory, draws 51 and writes it down. *)
Lemma fresh_roll_is_written_down :
  fs (a_world a_disk (staged 30)) ["C:"; "Cache"; "rolls"]%string = None /\
  fs (snd (checkChance an_info "1.2.0" (a_world a_disk (staged 30))))
    ["C:"; "Cache"; "rolls"]%string = Some Dir /\
  fs (snd (checkChance an_info "1.2.0" (a_world a_disk (staged 30))))
    (rollCache_of an_info "1.2.0") = Some (File "51").
Proof. repeat split; vm_compute; reflexivity. Qed.

(** What counts as no roll: no file, an empty file, text, a zero. *)
Lemma stored_roll_absent :
  stored_roll (a_world a_disk (staged 30)) (rollCache_of an_info "1.2.0") = 0 /\
  stored_roll (a_world (cached_disk EmptyString) (staged 30))
    (rollCache_of an_info "1.2.0") = 0 /\
  stored_roll (a_world (cached_disk "abc") (staged 30))
    (rollCache_of an_info "1.2.0") = 0 /\
  stored_roll (a_world (cached_disk "0") (staged 30))
    (rollCache_of an_info "1.2.0") = 0.
Proof. repeat split; vm_compute; reflexivity. Qed.

(** What counts as a roll all the same: a number after white space, a
    byte order mark included, and a number followed by anything. *)
Lemma stored_roll_present :
  stored_roll (a_world (cached_disk (with_byte_order_mark "42")) (staged 30))
    (rollCache_of an_info "1.2.0") = 42 /\
  stored_roll (a_world (cached_disk "  42") (staged 30))
    (rollCache_of an_info "1.2.0") = 42 /\
  stored_roll (a_world (cached_disk "42 or so") (staged 30))
    (rollCache_of an_info "1.2.0") = 42 /\
  stored_roll (a_world (cached_disk "-5") (staged 30))
    (rollCache_of an_info "1.2.0") = -5.
Proof. repeat split; vm_compute; reflexivity. Qed.

(** A chance that cannot be printed stops the gate at the log line
    that prints it: nothing is read, drawn or written. *)
Lemma unprintable_chance_stops_the_gate :
  checkChance an_info "1.2.0"
    (a_world a_disk
       (server (version_descriptor "1.2.0")
          (responds 200 ["{chance}"%string]
             (Some (JObj (FCons "chance"
                            (JObj (FCons "toString" (JNum 1) FNil)) FNil))))
          an_updater))
  = (Throw (TypeError "Cannot convert object to primitive value"),
     with_trace [EvRequest (chance_request an_info "1.2.0")]
       (a_world a_disk
          (server (version_descriptor "1.2.0")
             (responds 200 ["{chance}"%string]
                (Some (JObj (FCons "chance"
                               (JObj (FCons "toString" (JNum 1) FNil)) FNil))))
             an_updater))).
Proof. reflexivity. Qed.

(** C6 as stated fails: a cache file that holds 150 is not a valid roll,
    and the gate reuses it all the same, without drawing or writing. *)
Lemma stale_roll_150_is_reused :
  history (snd (checkChance an_info "1.2.0"
                  (a_world (cached_disk "150") (staged 50))))
  = [ EvRequest (chance_request an_info "1.2.0");
      EvLog (LogChance (JNum 50));
      EvReadFile (rollCache_of an_info "1.2.0");
      EvLog (LogRolled 150) ]
  /\ ~ (1 <= 150 <= 100).
Proof. split; [vm_compute; reflexivity | lia]. Qed.

(* ================================================================= *)
(** * Where a whole run writes *)

Lemma confined_ensureDir_detached (D F : Path -> Prop) dirPath :
  Forall D (ensureDir_directories dirPath) ->
  confined D F (ensureDir_detached dirPath).
Proof.
  intros Hd w _. split; [exact Hd | intros p; left; reflexivity].
Qed.

Lemma confined_serve_detached (D F : Path -> Prop) :
  confined D F serve_detached.
Proof.
  intros w Hdet. unfold serve_detached.
  destruct (detached w) as [| d rest] eqn:E;
    [simpl; split; [rewrite E; constructor | intros p; left; reflexivity] |].
  inversion Hdet as [| ? ? Hd Hrest]; subst.
  destruct (writes_mkdirMaybe D F d Hd (with_detached rest w)) as [H1 H2].
  destruct (mkdirMaybe d (with_detached rest w)) as [[[] | e |] w1];
    simpl in *.
  - split; [rewrite H1; exact Hrest | exact H2].
  - split; [constructor | exact H2].
  - split; [rewrite H1; exact Hrest | exact H2].
Qed.

Lemma confined_serve_detached_n (D F : Path -> Prop) n :
  confined D F (serve_detached_n n).
Proof.
  induction n as [| n IH]; simpl.
  - apply confined_of_writes, writes_idle. idle_by_cases.
  - apply confined_bind; [apply confined_serve_detached | intros _; exact IH].
Qed.

Lemma confined_outStream_opens (D F : Path -> Prop) file :
  F file -> confined D F (outStream_opens file).
Proof.
  intros Hf w. unfold outStream_opens.
  match goal with
  | |- _ -> Forall D (detached (snd (?m w))) /\ _ =>
      assert (C : confined D F m); [| exact (C w)]
  end.
  apply confined_bind; [apply confined_serve_detached_n | intros _].
  apply confined_bind;
    [now apply confined_of_writes, writes_open_stream | intros err].
  apply confined_bind.
  - intros u. apply confined_serve_detached_n.
  - intros _. apply confined_of_writes, writes_idle. idle_by_cases.
Qed.

Lemma writes_pipe (D F : Path -> Prop) file body :
  F file -> writes D F (pipe file body).
Proof.
  intros Hf. induction body as [| chunk body IH]; simpl.
  - apply writes_idle. idle_by_cases.
  - apply writes_bind; [now apply writes_stream_write | intros _; exact IH].
Qed.

Lemma idle_send_progress a t : idle (send_progress a t).
Proof.
  intros w. unfold send_progress. destruct (statusWindow w); split; reflexivity.
Qed.

Lemma writes_receive (D F : Path -> Prop) file contentLength accum body :
  F file -> writes D F (receive file contentLength send_progress accum body).
Proof.
  intros Hf. revert accum.
  induction body as [| chunk body IH]; intros accum; simpl.
  - apply writes_idle. idle_by_cases.
  - apply writes_bind.
    + destruct contentLength; apply writes_idle; [| idle_by_cases].
      intros u. unfold on_data.
      destruct (idle_send_progress (accum + Z.of_nat (String.length chunk))
                  z u) as [H1 H2].
      destruct (send_progress (accum + Z.of_nat (String.length chunk)) z u)
        as [[[] | e |] u1]; split; assumption.
    + intros piped. apply writes_bind; [| intros _; apply IH].
      destruct piped;
        [now apply writes_stream_write | apply writes_idle; idle_by_cases].
Qed.

Lemma confined_fetchUpdater (D F : Path -> Prop) info :
  F (updaterPath_of info) -> confined D F (fetchUpdater info send_progress).
Proof.
  intros Hf. unfold fetchUpdater. fold (updaterPath_of info).
  apply confined_bind;
    [apply confined_of_writes, writes_idle; idle_by_cases | intros _].
  apply confined_bind; [now apply confined_outStream_opens | intros opened].
  apply confined_of_writes.
  destruct opened as [c |]; [apply writes_idle; idle_by_cases |].
  apply writes_bind; [apply writes_idle; idle_by_cases | intros outcome].
  destruct outcome as [| response].
  - apply writes_bind; apply writes_idle || intro; try idle_by_cases.
    apply writes_idle. idle_by_cases.
  - destruct (negb (statusCode response =? 200)).
    + apply writes_bind; [now apply writes_pipe | intros _].
      apply writes_idle. idle_by_cases.
    + apply writes_bind; [now apply writes_receive | intros _].
      apply writes_bind; [apply writes_idle; idle_by_cases | intros ended].
      destruct ended; apply writes_idle; idle_by_cases.
Qed.

Lemma writes_push_pids (D F : Path -> Prop) pids updaterArgs :
  writes D F (push_pids pids updaterArgs).
Proof.
  revert updaterArgs.
  induction pids as [| pid pids IH]; intros updaterArgs; simpl.
  - apply writes_idle. idle_by_cases.
  - apply writes_bind; [apply writes_idle; idle_by_cases | intros a1].
    apply writes_bind; [apply writes_idle; idle_by_cases | intros a2].
    apply IH.
Qed.

Lemma confined_entry info :
  confined (bootstrap_dirs info) (bootstrap_files info) (entry info).
Proof.
  unfold entry.
  apply confined_bind; [apply confined_of_writes; writes_auto | intros lv].
  destruct (negb (truthy lv)); [apply confined_of_writes; writes_auto |].
  apply confined_bind; [apply confined_of_writes; writes_auto | intros same].
  destruct same; [apply confined_of_writes; writes_auto |].
  apply confined_bind; [apply confined_of_writes; writes_auto | intros older].
  destruct older; [apply confined_of_writes; writes_auto |].
  apply confined_bind.
  { apply confined_of_writes.
    eapply writes_weaken; [| | apply writes_checkChance].
    - intros q Hq. right. exact Hq.
    - intros q ->. right. eauto. }
  intros lucky.
  destruct (negb lucky); [apply confined_of_writes; writes_auto |].
  apply confined_bind; [apply confined_of_writes; writes_auto | intros _].
  apply confined_bind.
  { apply confined_ensureDir_detached. apply Forall_forall.
    intros q Hq. left. exact Hq. }
  intros _.
  apply confined_bind.
  { apply (confined_fetchUpdater _ _ info). left. reflexivity. }
  intros updaterPath. cbv zeta.
  apply confined_bind; [apply confined_of_writes, writes_push_pids |].
  intros updaterArgs. apply confined_of_writes. writes_auto.
Qed.

(** X9.  Where a run writes.  Whatever its outcome, a run of the
    bootstrap leaves every path of the disk as it was, except that it
    may create missing directories among the prefixes of the temp
    directory and of [cacheDir/rolls], and write two kinds of files: the
    updater in the temp directory and a roll file in [cacheDir/rolls].
    The application directory, for one, is never touched. *)
Theorem module_exports_writes_only_its_own_files info w p :
  detached w = [] ->
  fs (snd (module_exports info w)) p = fs w p \/
  (bootstrap_dirs info p /\ fs w p = None /\
   fs (snd (module_exports info w)) p = Some Dir) \/
  (bootstrap_files info p /\
   exists c, fs (snd (module_exports info w)) p = Some (File c)).
Proof.
  intros Hdet.
  assert (C : confined (bootstrap_dirs info) (bootstrap_files info)
                (module_exports info)).
  { unfold module_exports. apply confined_catch; [apply confined_entry |].
    intros e. apply confined_of_writes. writes_auto. }
  destruct (C w) as [_ Hc]; [rewrite Hdet; constructor |].
  exact (Hc p).
Qed.

Lemma module_exports_writes_only_its_own_files_witness :
  fs (snd (module_exports an_info (a_newer_world an_updater)))
    ["C:"; "App"; "app.exe"]%string
  = fs (a_newer_world an_updater) ["C:"; "App"; "app.exe"]%string \/
  (bootstrap_dirs an_info ["C:"; "App"; "app.exe"]%string /\
   fs (a_newer_world an_updater) ["C:"; "App"; "app.exe"]%string = None /\
   fs (snd (module_exports an_info (a_newer_world an_updater)))
     ["C:"; "App"; "app.exe"]%string = Some Dir) \/
  (bootstrap_files an_info ["C:"; "App"; "app.exe"]%string /\
   exists c,
     fs (snd (module_exports an_info (a_newer_world an_updater)))
       ["C:"; "App"; "app.exe"]%string = Some (File c)).
Proof.
  apply (module_exports_writes_only_its_own_files an_info
           (a_newer_world an_updater) ["C:"; "App"; "app.exe"]%string).
  reflexivity.
Defined.

(* ================================================================= *)
(** * The status window *)

Lemma spec_step_still {A B} w0 w (m : M A) (k : A -> M B) Q :
  preserves backdrop m ->
  backdrop w = backdrop w0 ->
  (forall a w1, backdrop w1 = backdrop w0 -> spec w1 (k a) Q) ->
  (forall e w1, backdrop w1 = backdrop w0 -> Q (Throw e) w1) ->
  (forall w1, Q Pending w1) ->
  spec w (bind m k) Q.
Proof.
  intros K E Hok Hthrow Hpending. apply spec_bind. unfold spec.
  specialize (K w).
  destruct (m w) as [[a | e |] w1]; simpl in *;
    [apply Hok | apply Hthrow | apply Hpending]; congruence.
Qed.

Lemma spec_step_free {A B} w (m : M A) (k : A -> M B) Q :
  (forall a w1, spec w1 (k a) Q) ->
  (forall e w1, Q (Throw e) w1) ->
  (forall w1, Q Pending w1) ->
  spec w (bind m k) Q.
Proof.
  intros Hok Hthrow Hpending. apply spec_bind. unfold spec.
  destruct (m w) as [[a | e |] w1]; simpl;
    [apply Hok | apply Hthrow | apply Hpending].
Qed.

(** X10.  The status window is not left open.  If no status window is
    open when the bootstrap is called and the returned promise settles,
    no status window is open afterwards: whether the run ends early,
    fails in the download or in [cp.spawn], or starts the updater. *)
Theorem settled_run_leaves_no_window_open info w :
  statusWindow w <> Some WindowOpen ->
  fst (module_exports info w) <> Pending ->
  statusWindow (snd (module_exports info w)) <> Some WindowOpen.
Proof.
  intros Hclosed.
  assert (Hrun : spec w (module_exports info)
                   (fun o w' => o <> Pending ->
                                statusWindow w' <> Some WindowOpen)).
  { assert (Hhandler : forall e u,
      spec u (console_log (LogError e) ;; close_statusWindow ;; ret false)
        (fun o w' => o <> Pending -> statusWindow w' <> Some WindowOpen)).
    { intros e u. unfold spec, bind, console_log, emit, close_statusWindow.
      simpl. destruct (statusWindow u) eqn:E; simpl; intros _;
        [discriminate | rewrite E; discriminate]. }
    assert (Hfalse : forall m u,
      backdrop u = backdrop w ->
      spec u (console_log m ;; ret false)
        (fun o w' =>
           match o with
           | Throw e =>
               spec w' (console_log (LogError e) ;; close_statusWindow ;;
                        ret false)
                 (fun o w' => o <> Pending ->
                              statusWindow w' <> Some WindowOpen)
           | _ => o <> Pending -> statusWindow w' <> Some WindowOpen
           end)).
    { intros m u E. unfold spec, bind, console_log, emit. simpl. intros _.
      unfold backdrop in E. congruence. }
    unfold module_exports. apply spec_catch. unfold entry.
    apply (spec_step_still w);
      [apply still_getVersion | reflexivity |
      | intros e w1 _; apply Hhandler | intros w1 H; now elim H].
    intros latestVersion w1 E1.
    destruct (negb (truthy latestVersion)); [now apply Hfalse |].
    apply (spec_step_still w);
      [apply still_semver_eq | exact E1 |
      | intros e w2 _; apply Hhandler | intros w2 H; now elim H].
    intros same w2 E2.
    destruct same; [now apply Hfalse |].
    apply (spec_step_still w);
      [apply still_semver_gt | exact E2 |
      | intros e w3 _; apply Hhandler | intros w3 H; now elim H].
    intros older w3 E3.
    destruct older; [now apply Hfalse |].
    apply (spec_step_still w);
      [apply still_checkChance | exact E3 |
      | intros e w4 _; apply Hhandler | intros w4 H; now elim H].
    intros lucky w4 E4.
    destruct (negb lucky); [now apply Hfalse |].
    apply spec_step_free;
      [| intros e w5; apply Hhandler | intros w5 H; now elim H].
    intros [] w5.
    apply spec_step_free;
      [| intros e w6; apply Hhandler | intros w6 H; now elim H].
    intros [] w6.
    apply spec_step_free;
      [| intros e w7; apply Hhandler | intros w7 H; now elim H].
    intros updaterPath w7. cbv zeta.
    apply spec_step_free;
      [| intros e w8; apply Hhandler | intros w8 H; now elim H].
    intros updaterArgs w8.
    apply spec_step_free;
      [| intros e w9; apply Hhandler | intros w9 H; now elim H].
    intros [] w9.
    apply spec_step_free;
      [| intros e w10; apply Hhandler | intros w10 H; now elim H].
    intros [] w10.
    unfold spec, bind, close_statusWindow, emit. simpl.
    destruct (statusWindow w10) eqn:E; simpl; intros _;
      [discriminate | rewrite E; discriminate]. }
  exact Hrun.
Qed.

Lemma settled_run_leaves_no_window_open_witness :
  statusWindow
    (snd (module_exports an_info (a_newer_world a_server_error)))
  <> Some WindowOpen.
Proof.
  apply (settled_run_leaves_no_window_open an_info
           (a_newer_world a_server_error)).
  - discriminate.
  - vm_compute. discriminate.
Defined.

(* ================================================================= *)
(** * Runs told in full *)

Lemma updater_is_no_temp_directory info :
  ~ In (updaterPath_of info) (ensureDir_directories (tempDir info)).
Proof.
  unfold updaterPath_of, path_resolve, ensureDir_directories.
  destruct (tempDir info) as [| d0 rest]; [tauto |].
  intros Hin. apply ensureDir_from_length in Hin.
  rewrite length_app in Hin. simpl in Hin. lia.
Qed.

Lemma dirname_updaterPath info :
  path_dirname (updaterPath_of info) = tempDir info.
Proof. apply removelast_last. Qed.

Lemma serve_detached_n_misses n w p :
  ~ In p (detached w) -> fs (snd (serve_detached_n n w)) p = fs w p.
Proof.
  intros Hp.
  destruct (confined_serve_detached_n (fun q => q <> p) no_path n w)
    as [_ Hc].
  { apply Forall_forall. intros q Hq ->. contradiction. }
  destruct (Hc p) as [E | [(Hne & _) | ([] & _)]]; [exact E | now elim Hne].
Qed.

(** The download goes through when the temp directory is there, the
    file can be written, the server answers 200 and the body comes to
    its end. *)
Lemma fetchUpdater_ok info progress w r :
  (forall a t u, fst (progress a t u) = Ok tt /\
                 fs (snd (progress a t u)) = fs u) ->
  (forall a t, preserves backdrop (progress a t)) ->
  bodyEnds w = Completes ->
  fs w (tempDir info) = Some Dir ->
  fs w (updaterPath_of info) <> Some Dir ->
  denied w (updaterPath_of info) = false ->
  ~ In (updaterPath_of info) (detached w) ->
  net w (updater_request info) = Responds r ->
  statusCode r = 200 ->
  exists w',
    fetchUpdater info progress w = (Ok (updaterPath_of info), w') /\
    fs w' (updaterPath_of info)
    = Some (File (String.concat EmptyString (chunks r))).
Proof.
  intros Hp Hstill Hends Htemp Hfile Hden Hdet Hnet Hst.
  unfold fetchUpdater.
  fold (updater_request info). fold (updaterPath_of info).
  unfold bind at 1, emit.
  set (w1 := with_trace (EvRequest (updater_request info) :: trace w) w).
  unfold bind at 1.
  pose proof (keeps_outStream_opens quiet quiet_quiet (updaterPath_of info) w1)
    as [Hn _].
  assert (Hopened :
    fst (outStream_opens (updaterPath_of info) w1) = Ok None /\
    fs (snd (outStream_opens (updaterPath_of info) w1)) (updaterPath_of info)
    = Some (File EmptyString)).
  { unfold outStream_opens, bind.
    pose proof (serve_detached_n_ok (openAfter w1) w1) as H1.
    pose proof (serve_detached_n_misses (openAfter w1) w1
                  (updaterPath_of info) Hdet) as H2.
    pose proof (serve_detached_n_keeps (openAfter w1) w1 (tempDir info))
      as H3.
    pose proof (still_serve_detached_n (openAfter w1) w1) as H4.
    destruct (serve_detached_n (openAfter w1) w1) as [o1 u1].
    simpl in H1, H2, H3, H4. subst o1.
    assert (He : write_error u1 (updaterPath_of info) = None).
    { unfold write_error, creation_error. rewrite dirname_updaterPath.
      rewrite H2, H3 by congruence. rewrite Htemp.
      unfold backdrop in H4. simpl in H4.
      assert (Hd : denied u1 = denied w) by congruence.
      rewrite Hd, Hden.
      destruct (fs w (updaterPath_of info)) as [[c |] |];
        try reflexivity. now elim Hfile. }
    unfold open_stream. rewrite He. simpl.
    match goal with
    | |- context [serve_detached_n ?n ?u] =>
        pose proof (serve_detached_n_ok n u) as H5;
        pose proof (serve_detached_n_keeps n u (updaterPath_of info)) as H6;
        destruct (serve_detached_n n u) as [o3 u3]
    end.
    simpl in H5, H6. subst o3. simpl. split; [reflexivity |].
    rewrite H6; rewrite fs_set_same; [reflexivity | discriminate]. }
  destruct Hopened as [Ho Hf].
  pose proof (still_outStream_opens (updaterPath_of info) w1) as Hb2.
  destruct (outStream_opens (updaterPath_of info) w1) as [o w2].
  simpl in Ho, Hf, Hn, Hb2. subst o.
  unfold bind at 1, get_net. rewrite Hn. subst w1. simpl. rewrite Hnet.
  rewrite Hst. simpl. unfold bind.
  pose proof (receive_appends (updaterPath_of info) (content_length r)
                progress 0 (chunks r) w2 EmptyString Hp Hf) as Hbody.
  pose proof (receive_ok (updaterPath_of info) (content_length r)
                progress 0 (chunks r) w2
                (fun a t u => proj1 (Hp a t u))) as Hok.
  pose proof (still_receive (updaterPath_of info) (content_length r)
                progress 0 (chunks r) Hstill w2) as Hb3.
  destruct (receive (updaterPath_of info) (content_length r) progress 0
              (chunks r) w2) as [o w3].
  simpl in Hbody, Hok, Hb3. subst o. cbn [fst snd].
  assert (He3 : bodyEnds w3 = Completes).
  { unfold backdrop in Hb2, Hb3. simpl in Hb2. congruence. }
  unfold get_bodyEnds. rewrite He3.
  exists w3. split; [reflexivity | exact Hbody].
Qed.

(** The status window either comes up or is given up; the run goes on
    in both cases, the disk and the network as they were. *)
Lemma open_window_run u :
  exists u',
    catch (new_BrowserWindow ;;
           statusWindow_on_ready_to_show ;;
           statusWindow_loadURL)
      (fun error => close_statusWindow ;; statusWindow_null) u
    = (Ok tt, u') /\
    fs u' = fs u /\ denied u' = denied u /\ net u' = net u /\
    spawnThrows u' = spawnThrows u /\ bodyEnds u' = bodyEnds u.
Proof.
  unfold catch, bind, new_BrowserWindow, statusWindow_on_ready_to_show,
    statusWindow_loadURL, close_statusWindow, statusWindow_null, emit.
  destruct (windowFault u) eqn:E; simpl; repeat (rewrite E; simpl);
    try (destruct (statusWindow u); simpl);
    eexists; repeat split; reflexivity.
Qed.

(** X11.  The lost lottery.  When the remote version is greater and the
    rollout gate returns false, the run resolves to false and does
    nothing after the gate but log the lost lottery: no status window,
    no directory, no download, no successor. *)
Theorem lost_lottery_ends_the_run info w rv fields s current remote :
  net w (version_request info) = Responds rv ->
  statusCode rv = 200 ->
  json_body rv = JObj fields ->
  lookup "version" fields = JStr s ->
  semver_parse (version info) = Some current ->
  semver_parse s = Some remote ->
  semver_greater remote current ->
  fst (checkChance info s
         (with_trace (EvRequest (version_request info) :: trace w) w))
  = Ok false ->
  module_exports info w
  = (Ok false,
     with_trace
       (EvLog LogLotteryLost
        :: trace (snd (checkChance info s
                         (with_trace
                            (EvRequest (version_request info) :: trace w) w))))
       (snd (checkChance info s
               (with_trace (EvRequest (version_request info) :: trace w) w)))).
Proof.
  intros Hnet Hst Hbody Hver Hcur Hrem Hgt Hgate.
  apply semver_greater_iff_lt in Hgt.
  unfold module_exports, entry.
  rewrite (catch_bind_ok _ _ _ _ _ _
             (getVersion_ok info w rv fields Hnet Hst Hbody)).
  rewrite Hver. rewrite (parsed_version_is_truthy _ _ Hrem). cbn [negb].
  rewrite (catch_bind_ok _ _ _ _ _ _ (semver_eq_run _ _ _ _ _ Hcur Hrem)).
  rewrite Hgt. cbn [negb].
  rewrite (catch_bind_ok _ _ _ _ _ _ (semver_gt_run _ _ _ _ _ Hcur Hrem)).
  rewrite Hgt. cbn [js_to_string negb].
  rewrite (catch_bind_ok _ _ _ _ _ _ (run_outcome _ _ _ Hgate)).
  reflexivity.
Qed.

Lemma lost_lottery_ends_the_run_witness :
  module_exports an_info (a_world a_disk (staged 30))
  = (Ok false,
     with_trace
       (EvLog LogLotteryLost
        :: trace (snd (checkChance an_info "1.2.0"
                         (with_trace
                            (EvRequest (version_request an_info)
                             :: trace (a_world a_disk (staged 30)))
                            (a_world a_disk (staged 30))))))
       (snd (checkChance an_info "1.2.0"
               (with_trace
                  (EvRequest (version_request an_info)
                   :: trace (a_world a_disk (staged 30)))
                  (a_world a_disk (staged 30)))))).
Proof.
  refine (lost_lottery_ends_the_run an_info (a_world a_disk (staged 30))
            (version_response "1.2.0")
            (FCons "version" (JStr "1.2.0") FNil) "1.2.0"%string
            {| major := 1; minor := 0; patch := 0; prerelease := [] |}
            {| major := 1; minor := 2; patch := 0; prerelease := [] |}
            _ _ _ _ _ _ _ _);
    vm_compute; reflexivity.
Defined.

(** X12.  The update in full.  When the remote version is greater, the
    rollout gate returns true and leaves the temp directory in place,
    the updater file can be written, the binary endpoint answers 200
    and the body of its response arrives in full, there is no process
    to wait for and [cp.spawn] does not throw, the run resolves to
    true; the last thing it did, apart from closing the
    status window, was to start [tempDir/latest-updater.exe] in the temp
    directory with the six options, each value between double quotes;
    and the file holds the body of the response.  Whether the status
    window could be created plays no part. *)
Theorem newer_version_is_fetched_and_started
  info w rv fields s current remote w2 r :
  net w (version_request info) = Responds rv ->
  statusCode rv = 200 ->
  json_body rv = JObj fields ->
  lookup "version" fields = JStr s ->
  semver_parse (version info) = Some current ->
  semver_parse s = Some remote ->
  semver_greater remote current ->
  checkChance info s
    (with_trace (EvRequest (version_request info) :: trace w) w)
  = (Ok true, w2) ->
  fs w2 (tempDir info) = Some Dir ->
  fs w2 (updaterPath_of info) <> Some Dir ->
  denied w (updaterPath_of info) = false ->
  net w (updater_request info) = Responds r ->
  statusCode r = 200 ->
  bodyEnds w = Completes ->
  waitPids info = [] ->
  spawnThrows w = false ->
  fst (module_exports info w) = Ok true /\
  (exists t rest,
     trace (snd (module_exports info w))
     = t ++ EvSpawn (path_to_string (updaterPath_of info))
              (plain_args info s) (tempDir info) :: rest /\
     (t = [] \/ t = [EvWindowClose])) /\
  fs (snd (module_exports info w)) (updaterPath_of info)
  = Some (File (String.concat EmptyString (chunks r))).
Proof.
  intros Hnet Hst Hbody Hver Hcur Hrem Hgt Hgate Htemp Hfile Hden
    Hnetu Hstu Hends Hpids Hspawn.
  apply semver_greater_iff_lt in Hgt.
  pose proof (keeps_checkChance quiet quiet_quiet info s
                (with_trace (EvRequest (version_request info) :: trace w) w))
    as [Hn2 _].
  pose proof (still_checkChance info s
                (with_trace (EvRequest (version_request info) :: trace w) w))
    as Hb2.
  rewrite Hgate in Hn2, Hb2. unfold backdrop in Hb2. simpl in Hn2, Hb2.
  unfold module_exports, entry. fold send_progress.
  rewrite (catch_bind_ok _ _ _ _ _ _
             (getVersion_ok info w rv fields Hnet Hst Hbody)).
  rewrite Hver. rewrite (parsed_version_is_truthy _ _ Hrem). cbn [negb].
  rewrite (catch_bind_ok _ _ _ _ _ _ (semver_eq_run _ _ _ _ _ Hcur Hrem)).
  rewrite Hgt. cbn [negb].
  rewrite (catch_bind_ok _ _ _ _ _ _ (semver_gt_run _ _ _ _ _ Hcur Hrem)).
  rewrite Hgt. cbn [js_to_string negb].
  rewrite (catch_bind_ok _ _ _ _ _ _ Hgate). cbn [negb].
  destruct (open_window_run w2) as (u & Hu & Hfs & Hdu & Hnu & Hsu & Heu).
  rewrite (catch_bind_ok _ _ _ _ _ _ Hu).
  rewrite (catch_bind_ok _ _ _ _ tt
             (with_detached (ensureDir_directories (tempDir info)) u)
             (eq_refl : ensureDir_detached (tempDir info) u = _)).
  destruct (fetchUpdater_ok info send_progress
              (with_detached (ensureDir_directories (tempDir info)) u) r)
    as (w7 & Hrun & Hfetched);
    [ apply send_progress_is_harmless
    | intros a t u0; unfold send_progress;
      destruct (statusWindow u0); reflexivity
    | simpl; rewrite Heu; congruence
    | simpl; rewrite Hfs; exact Htemp
    | simpl; rewrite Hfs; exact Hfile
    | simpl; rewrite Hdu; congruence
    | apply updater_is_no_temp_directory
    | simpl; rewrite Hnu, Hn2; exact Hnetu
    | exact Hstu | ].
  pose proof (still_fetchUpdater info
                (with_detached (ensureDir_directories (tempDir info)) u))
    as Hb7.
  rewrite Hrun in Hb7.
  rewrite (catch_bind_ok _ _ _ _ _ _ Hrun).
  assert (Hs7 : spawnThrows w7 = false).
  { unfold backdrop in Hb7. simpl in Hb7. congruence. }
  cbv zeta. rewrite Hpids.
  unfold catch, bind, for_in_keys, push_pids, ret, console_log, emit, spawn,
    close_statusWindow. simpl.
  rewrite Hs7. simpl.
  destruct (statusWindow w7); simpl.
  - split; [reflexivity |]. split; [| exact Hfetched].
    exists [EvWindowClose]. eexists. split; [reflexivity | now right].
  - split; [reflexivity |]. split; [| exact Hfetched].
    exists []. eexists. split; [reflexivity | now left].
Qed.

Lemma newer_version_is_fetched_and_started_witness :
  fst (module_exports an_info (a_newer_world an_updater)) = Ok true /\
  (exists t rest,
     trace (snd (module_exports an_info (a_newer_world an_updater)))
     = t ++ EvSpawn (path_to_string (updaterPath_of an_info))
              (plain_args an_info "1.2.0") (tempDir an_info) :: rest /\
     (t = [] \/ t = [EvWindowClose])) /\
  fs (snd (module_exports an_info (a_newer_world an_updater)))
    (updaterPath_of an_info)
  = Some (File "MZP").
Proof.
  refine (newer_version_is_fetched_and_started an_info
            (a_newer_world an_updater)
            (version_response "1.2.0")
            (FCons "version" (JStr "1.2.0") FNil) "1.2.0"%string
            {| major := 1; minor := 0; patch := 0; prerelease := [] |}
            {| major := 1; minor := 2; patch := 0; prerelease := [] |}
            (snd (checkChance an_info "1.2.0"
                    (with_trace
                       (EvRequest (version_request an_info)
                        :: trace (a_newer_world an_updater))
                       (a_newer_world an_updater))))
            {| statusCode := 200; content_length := None;
               chunks := ["MZ"; "P"]%string; parsed := None |}
            _ _ _ _ _ _ _ _ _ _ _ _ _ _ _ _);
    try (vm_compute; reflexivity).
  vm_compute. discriminate.
Defined.

(* ================================================================= *)
(** * Versions that are none *)

(** X13.  A version that is no semantic version.  When the version file
    brings a truthy [version] and either that value or the installed
    version is not a semantic version, [semver.eq] throws; the run
    resolves to false, having logged the error and asked the server for
    the version file only. *)
Theorem invalid_version_fails_the_run info w r fields v :
  net w (version_request info) = Responds r ->
  statusCode r = 200 ->
  json_body r = JObj fields ->
  lookup "version" fields = v ->
  truthy v = true ->
  semver_parse (version info) = None \/ semver_of_value v = None ->
  fst (module_exports info w) = Ok false /\
  exists t,
    trace (snd (module_exports info w))
    = t ++ [EvLog (LogError (TypeError "Invalid Version"));
            EvRequest (version_request info)] ++ trace w /\
    (t = [] \/ t = [EvWindowClose]).
Proof.
  intros Hnet Hst Hbody Hver Htruthy Hbad.
  assert (Heq : forall u,
    semver_eq (JStr (version info)) v u
    = (Throw (TypeError "Invalid Version"), u)).
  { intros u. unfold semver_eq, semver_cmp, bind. simpl.
    destruct Hbad as [H | H]; rewrite H; [reflexivity |].
    destruct (semver_parse (version info)); reflexivity. }
  unfold module_exports, entry.
  rewrite (catch_bind_ok _ _ _ _ _ _
             (getVersion_ok info w r fields Hnet Hst Hbody)).
  rewrite Hver, Htruthy. cbn [negb].
  rewrite (catch_bind_throw _ _ _ _ _ _ (Heq _)).
  match goal with
  | |- context [(console_log (LogError ?e) ;; _) ?u] =>
      destruct (handler_run e u) as (t & Hrun & Htrace & Ht)
  end.
  rewrite Hrun at 1. split; [reflexivity |].
  exists t. split; [rewrite Htrace; reflexivity | exact Ht].
Qed.

Lemma invalid_version_fails_the_run_witness :
  fst (module_exports an_info
         (a_world a_disk
            (server (version_descriptor "latest") (responds 404 [] None)
               an_updater)))
  = Ok false /\
  exists t,
    trace (snd (module_exports an_info
                  (a_world a_disk
                     (server (version_descriptor "latest")
                        (responds 404 [] None) an_updater))))
    = t ++ [EvLog (LogError (TypeError "Invalid Version"));
            EvRequest (version_request an_info)]
        ++ trace (a_world a_disk
                    (server (version_descriptor "latest")
                       (responds 404 [] None) an_updater)) /\
    (t = [] \/ t = [EvWindowClose]).
Proof.
  refine (invalid_version_fails_the_run an_info
            (a_world a_disk
               (server (version_descriptor "latest") (responds 404 [] None)
                  an_updater))
            (version_response "latest")
            (FCons "version" (JStr "latest") FNil) (JStr "latest")
            _ _ _ _ _ _);
    try (vm_compute; reflexivity).
  right. vm_compute. reflexivity.
Defined.

(* ================================================================= *)
(** * Samples of the general facts *)

Lemma true_only_after_spawn_witness :
  spawned_since (a_newer_world an_updater)
    (snd (module_exports an_info (a_newer_world an_updater))).
Proof.
  apply (true_only_after_spawn an_info (a_newer_world an_updater)).
  vm_compute. reflexivity.
Defined.

Lemma wait_pids_never_launch_witness :
  fst (module_exports (with_waitPids [111; 222] an_info)
         (a_newer_world an_updater))
  <> Ok true.
Proof.
  apply (wait_pids_never_launch (with_waitPids [111; 222] an_info)
           (a_newer_world an_updater)).
  discriminate.
Defined.

(* ================================================================= *)
(** * A download that comes to its end *)








(** The same run with a body that stalls after the headers of a 200
    response: the file stream is never closed, and the promise stays
    pending, the status window open. *)
Lemma stalled_download_never_settles :
  net (with_bodyEnds Stalls (a_newer_world an_updater))
    (updater_request an_info) <> NoResponse /\
  fst (module_exports an_info
         (with_bodyEnds Stalls (a_newer_world an_updater))) = Pending /\
  statusWindow (snd (module_exports an_info
                       (with_bodyEnds Stalls (a_newer_world an_updater))))
  = Some WindowOpen.
Proof.
  split; [vm_compute; discriminate |]. split; vm_compute; reflexivity.
Qed.
